(** * yyson-ruby: the conversion layer between Ruby values and yyjson trees

    A shallow embedding of [ext/yyjson/*.c]: the option resolvers
    ([parser.c], [writer.c]), the exporter ([object_dumper.c]), the HTML
    post-processing of the writer ([writer.c]), the entry points and
    their file variants ([yyjson_ext.c]) and the importer with its
    key-interning cache ([value_builder.c]).  Byte strings are [string]s (one [ascii] per byte);
    C integers are [Z] with the wrap-around written where the code can reach
    it; Ruby exceptions are the [Raise] outcomes of a result type. *)

From Stdlib Require Import ZArith Lia Bool List Ascii String.
From Stdlib Require Import Floats.SpecFloat.
From stdpp Require Import base decidable numbers list gmap sets strings sorting.
From Equations Require Import Equations.

Local Open Scope string_scope.
Local Open Scope Z_scope.

Set Warnings "-register-all".

(** ** Ruby values (common.h, ruby.h) *)

(** Identity of a heap object, what [rb_obj_id] returns. *)
Definition obj_id := positive.

(** A Ruby [VALUE]: immediates, numbers, strings and symbols by content, and
    references to heap objects (arrays, hashes and every other object). *)
Inductive VALUE : Type :=
| Qnil
| Qtrue
| Qfalse
| Fixnum (n : Z)
| Bignum (n : Z)
| Float (d : spec_float)
| Str (s : string)
| Sym (name : string)
| Ref (id : obj_id).

(** The methods of an object that is none of the basic types, as the dumper
    probes them: [rb_respond_to] is [is_Some], [rb_funcall] the content. *)
Record custom_object := {
  time_like : bool;
  iso8601 : option string;
  xmlschema : option string;
  as_json : option VALUE;
  to_s : string
}.

Inductive heap_object : Type :=
| RArray (items : list VALUE)
| RHash (pairs : list (VALUE * VALUE))
| RObject (o : custom_object).

(** A Ruby Hash handed over as options: its pairs in insertion order. *)
Definition rb_hash := list (VALUE * VALUE).

Inductive generate_error : Type :=
| NestingTooDeep (depth : Z)
| CircularReference
| NanNotAllowed
| DocumentCreateFailed
| ConvertFailed
| WriteFailed
| EscapeFailed.

Inductive exn : Type :=
| GenerateError (e : generate_error)
| ParseError (pos : Z) (msg : string)
| RuntimeError (msg : string).

Inductive result (A : Type) : Type :=
| Ok (a : A)
| Raise (e : exn).
Arguments Ok {A} a.
Arguments Raise {A} e.

#[global] Instance result_bind : MBind result := fun A B k r =>
  match r with
  | Ok a => k a
  | Raise e => Raise e
  end.

#[global] Instance result_fmap : FMap result := fun A B f r =>
  match r with
  | Ok a => Ok (f a)
  | Raise e => Raise e
  end.

Definition NIL_P (v : VALUE) : bool :=
  match v with Qnil => true | _ => false end.

Definition RTEST (v : VALUE) : bool :=
  match v with Qnil | Qfalse => false | _ => true end.

Definition SYMBOL_P (v : VALUE) : bool :=
  match v with Sym _ => true | _ => false end.

(** [rb_hash_aref(h, ID2SYM(rb_intern(name)))] on a hash without default:
    the value stored under the symbol, [Qnil] when there is none. *)
Fixpoint rb_hash_aref (h : rb_hash) (name : string) : VALUE :=
  match h with
  | [] => Qnil
  | (Sym k, v) :: rest => if String.eqb k name then v else rb_hash_aref rest name
  | _ :: rest => rb_hash_aref rest name
  end.

Definition RHASH_EMPTY_P (h : rb_hash) : bool :=
  match h with [] => true | _ => false end.

(** ** Modes and option records (common.h, value_builder.h, object_dumper.h) *)

Inductive yyjson_mode_t : Type :=
| MODE_STRICT
| MODE_COMPAT
| MODE_RAILS
| MODE_OBJECT
| MODE_CUSTOM.

Record yyjson_parse_options := {
  p_symbolize_names : bool;
  p_freeze : bool;
  p_allow_nan : bool;
  p_allow_comments : bool;
  p_max_nesting : Z;
  p_mode : yyjson_mode_t
}.

Record yyjson_dump_options := {
  pretty : bool;
  escape_slash : bool;
  allow_nan : bool;
  escape_html : bool;
  indent : Z;
  mode : yyjson_mode_t
}.

(** ** Option resolution (parser.c, writer.c) *)

Section Resolver.

(** [NUM2INT] of the Ruby runtime: the C [int] of a numeric value, or the
    exception the conversion raises. *)
Variable NUM2INT : VALUE -> result Z.

(** The assignments of one mode branch of [yyjson_extract_parse_options]. *)
Definition parse_mode_defaults (val : VALUE) (o : yyjson_parse_options)
  : yyjson_parse_options :=
  match val with
  | Sym mode_id =>
      if String.eqb mode_id "strict" then
        {| p_symbolize_names := false; p_freeze := p_freeze o;
           p_allow_nan := false; p_allow_comments := false;
           p_max_nesting := p_max_nesting o; p_mode := MODE_STRICT |}
      else if String.eqb mode_id "compat" then
        {| p_symbolize_names := p_symbolize_names o; p_freeze := p_freeze o;
           p_allow_nan := p_allow_nan o; p_allow_comments := p_allow_comments o;
           p_max_nesting := p_max_nesting o; p_mode := MODE_COMPAT |}
      else if String.eqb mode_id "rails" then
        {| p_symbolize_names := true; p_freeze := p_freeze o;
           p_allow_nan := true; p_allow_comments := true;
           p_max_nesting := p_max_nesting o; p_mode := MODE_RAILS |}
      else if String.eqb mode_id "object" then
        {| p_symbolize_names := p_symbolize_names o; p_freeze := p_freeze o;
           p_allow_nan := p_allow_nan o; p_allow_comments := p_allow_comments o;
           p_max_nesting := p_max_nesting o; p_mode := MODE_OBJECT |}
      else if String.eqb mode_id "custom" then
        {| p_symbolize_names := p_symbolize_names o; p_freeze := p_freeze o;
           p_allow_nan := p_allow_nan o; p_allow_comments := p_allow_comments o;
           p_max_nesting := p_max_nesting o; p_mode := MODE_CUSTOM |}
      else o
  | _ => o
  end.

(** The defaults [yyjson_extract_parse_options] sets before it reads the hash. *)
Definition parse_defaults : yyjson_parse_options :=
  {| p_symbolize_names := false; p_freeze := false; p_allow_nan := true;
     p_allow_comments := true; p_max_nesting := 100; p_mode := MODE_COMPAT |}.

Definition yyjson_extract_parse_options (opts_hash : option rb_hash)
  : result yyjson_parse_options :=
  let opts := parse_defaults in
  match opts_hash with
  | None => Ok opts
  | Some h =>
      let opts := parse_mode_defaults (rb_hash_aref h "mode") opts in
      let val := rb_hash_aref h "symbolize_names" in
      let opts :=
        if NIL_P val then opts else
        {| p_symbolize_names := RTEST val; p_freeze := p_freeze opts;
           p_allow_nan := p_allow_nan opts; p_allow_comments := p_allow_comments opts;
           p_max_nesting := p_max_nesting opts; p_mode := p_mode opts |} in
      let val := rb_hash_aref h "freeze" in
      let opts :=
        if NIL_P val then opts else
        {| p_symbolize_names := p_symbolize_names opts; p_freeze := RTEST val;
           p_allow_nan := p_allow_nan opts; p_allow_comments := p_allow_comments opts;
           p_max_nesting := p_max_nesting opts; p_mode := p_mode opts |} in
      let val := rb_hash_aref h "allow_nan" in
      let opts :=
        if NIL_P val then opts else
        {| p_symbolize_names := p_symbolize_names opts; p_freeze := p_freeze opts;
           p_allow_nan := RTEST val; p_allow_comments := p_allow_comments opts;
           p_max_nesting := p_max_nesting opts; p_mode := p_mode opts |} in
      let val := rb_hash_aref h "allow_comments" in
      let opts :=
        if NIL_P val then opts else
        {| p_symbolize_names := p_symbolize_names opts; p_freeze := p_freeze opts;
           p_allow_nan := p_allow_nan opts; p_allow_comments := RTEST val;
           p_max_nesting := p_max_nesting opts; p_mode := p_mode opts |} in
      let val := rb_hash_aref h "max_nesting" in
      if NIL_P val then Ok opts else
      n ← NUM2INT val;
      Ok {| p_symbolize_names := p_symbolize_names opts; p_freeze := p_freeze opts;
            p_allow_nan := p_allow_nan opts; p_allow_comments := p_allow_comments opts;
            p_max_nesting := n; p_mode := p_mode opts |}
  end.

(** The assignments of one mode branch of [yyjson_extract_dump_options]. *)
Definition dump_mode_defaults (val : VALUE) (o : yyjson_dump_options)
  : yyjson_dump_options :=
  match val with
  | Sym mode_id =>
      if String.eqb mode_id "strict" then
        {| pretty := pretty o; escape_slash := true; allow_nan := false;
           escape_html := escape_html o; indent := indent o; mode := MODE_STRICT |}
      else if String.eqb mode_id "compat" then
        {| pretty := pretty o; escape_slash := escape_slash o; allow_nan := allow_nan o;
           escape_html := escape_html o; indent := indent o; mode := MODE_COMPAT |}
      else if String.eqb mode_id "rails" then
        {| pretty := pretty o; escape_slash := escape_slash o; allow_nan := allow_nan o;
           escape_html := true; indent := indent o; mode := MODE_RAILS |}
      else if String.eqb mode_id "object" then
        {| pretty := pretty o; escape_slash := escape_slash o; allow_nan := allow_nan o;
           escape_html := escape_html o; indent := indent o; mode := MODE_OBJECT |}
      else o
  | _ => o
  end.

Definition dump_defaults : yyjson_dump_options :=
  {| pretty := false; escape_slash := false; allow_nan := true;
     escape_html := false; indent := 2; mode := MODE_COMPAT |}.

(** [yyjson_extract_dump_options], statement by statement: [pretty],
    [indent], [escape_slash] and [allow_nan] are read before the mode block,
    [escape_html] after it. *)
Definition yyjson_extract_dump_options (opts_hash : option rb_hash)
  : result yyjson_dump_options :=
  let opts := dump_defaults in
  match opts_hash with
  | None => Ok opts
  | Some h =>
      let val := rb_hash_aref h "pretty" in
      let opts :=
        if NIL_P val then opts else
        {| pretty := RTEST val; escape_slash := escape_slash opts;
           allow_nan := allow_nan opts; escape_html := escape_html opts;
           indent := indent opts; mode := mode opts |} in
      let val := rb_hash_aref h "indent" in
      opts ← (if NIL_P val then Ok opts else
               n ← NUM2INT val;
               Ok {| pretty := if 0 <? n then true else pretty opts;
                     escape_slash := escape_slash opts;
                     allow_nan := allow_nan opts; escape_html := escape_html opts;
                     indent := n; mode := mode opts |});
      let val := rb_hash_aref h "escape_slash" in
      let opts :=
        if NIL_P val then opts else
        {| pretty := pretty opts; escape_slash := RTEST val;
           allow_nan := allow_nan opts; escape_html := escape_html opts;
           indent := indent opts; mode := mode opts |} in
      let val := rb_hash_aref h "allow_nan" in
      let opts :=
        if NIL_P val then opts else
        {| pretty := pretty opts; escape_slash := escape_slash opts;
           allow_nan := RTEST val; escape_html := escape_html opts;
           indent := indent opts; mode := mode opts |} in
      let opts := dump_mode_defaults (rb_hash_aref h "mode") opts in
      let val := rb_hash_aref h "escape_html" in
      let opts :=
        if NIL_P val then opts else
        {| pretty := pretty opts; escape_slash := escape_slash opts;
           allow_nan := allow_nan opts; escape_html := RTEST val;
           indent := indent opts; mode := mode opts |} in
      Ok opts
  end.

End Resolver.

(** ** The exporter (object_dumper.c) *)

(** The mutable yyjson value the dumper builds. *)
Inductive yyjson_mut_val : Type :=
| mut_null
| mut_true
| mut_false
| mut_sint (n : Z)
| mut_real (d : spec_float)
| mut_str (s : string)
| mut_arr (items : list yyjson_mut_val)
| mut_obj (pairs : list (string * yyjson_mut_val)).

Inductive ruby_type : Type :=
| T_NIL | T_TRUE | T_FALSE | T_FIXNUM | T_BIGNUM | T_FLOAT
| T_STRING | T_SYMBOL | T_ARRAY | T_HASH | T_OTHER.

Definition MAX_NESTING_DEPTH : Z := 100.

(** [dump_context] without its constant fields [doc] and [opts]; [visited]
    is the Ruby Hash keyed by object ids, used as a set. *)
Record dump_context := {
  depth : Z;
  visited : gset obj_id
}.

(** A computation of the dumper: it reads and updates the context, and
    either returns, raises (the context is then abandoned with the call) or
    runs out of the fuel that bounds the recursion of the model ([None]). *)
Definition dumper (A : Type) : Type :=
  dump_context -> option (result (A * dump_context)).

Definition dret {A} (a : A) : dumper A := fun ctx => Some (Ok (a, ctx)).

Definition rb_raise {A} (e : exn) : dumper A := fun _ => Some (Raise e).

Definition dbind {A B} (m : dumper A) (k : A -> dumper B) : dumper B :=
  fun ctx =>
    match m ctx with
    | Some (Ok (a, ctx')) => k a ctx'
    | Some (Raise e) => Some (Raise e)
    | None => None
    end.

Notation "'do' x <- m ; k" := (dbind m (fun x => k))
  (at level 10, x name, m at level 100, k at level 200).

Definition isinf (d : spec_float) : bool :=
  match d with S754_infinity _ => true | _ => false end.

Definition isnan (d : spec_float) : bool :=
  match d with S754_nan => true | _ => false end.

(** The bytes of a C string up to its terminating NUL, what
    [yyjson_mut_str] copies through [strlen]. *)
Fixpoint c_str (s : string) : string :=
  match s with
  | EmptyString => EmptyString
  | String c rest => if Ascii.eqb c zero then EmptyString else String c (c_str rest)
  end.

Section Dumper.

(** The object graph the call walks: every reference denotes an object. *)
Variable heap : obj_id -> heap_object.

(** [to_s] of the runtime on the values of the built-in classes. *)
Variable builtin_to_s : VALUE -> string.

Variable opts : yyjson_dump_options.

Definition TYPE (obj : VALUE) : ruby_type :=
  match obj with
  | Qnil => T_NIL
  | Qtrue => T_TRUE
  | Qfalse => T_FALSE
  | Fixnum _ => T_FIXNUM
  | Bignum _ => T_BIGNUM
  | Float _ => T_FLOAT
  | Str _ => T_STRING
  | Sym _ => T_SYMBOL
  | Ref id =>
      match heap id with
      | RArray _ => T_ARRAY
      | RHash _ => T_HASH
      | RObject _ => T_OTHER
      end
  end.

Definition is_collection (obj : VALUE) : bool :=
  match TYPE obj with T_ARRAY | T_HASH => true | _ => false end.

Definition check_circular_reference (obj : VALUE) : dumper unit :=
  fun ctx =>
    if MAX_NESTING_DEPTH <? depth ctx then
      Some (Raise (GenerateError (NestingTooDeep (depth ctx))))
    else
      match obj with
      | Ref obj_id =>
          if negb (is_collection obj) then Some (Ok (tt, ctx))
          else if decide (obj_id ∈ visited ctx) then
            Some (Raise (GenerateError CircularReference))
          else
            Some (Ok (tt, {| depth := depth ctx;
                             visited := {[obj_id]} ∪ visited ctx |}))
      | _ => Some (Ok (tt, ctx))
      end.

Definition unmark_visited (obj : VALUE) : dumper unit :=
  fun ctx =>
    match obj with
    | Ref obj_id =>
        if negb (is_collection obj) then Some (Ok (tt, ctx))
        else Some (Ok (tt, {| depth := depth ctx;
                              visited := visited ctx ∖ {[obj_id]} |}))
    | _ => Some (Ok (tt, ctx))
    end.

(** [ctx->depth++] and [ctx->depth--]. *)
Definition depth_add (k : Z) : dumper unit :=
  fun ctx => Some (Ok (tt, {| depth := depth ctx + k; visited := visited ctx |})).

(** Strings are taken to be UTF-8 already: [rb_str_export_to_enc] is the
    identity on them. *)
Definition dump_string (str : string) : dumper yyjson_mut_val :=
  dret (mut_str str).

Definition dump_symbol (name : string) : dumper yyjson_mut_val :=
  dret (mut_str (c_str name)).

(** [FIX2LONG] for a Fixnum; [NUM2LL] for a Bignum, which raises a
    RangeError outside of [long long]. *)
Definition dump_integer (num : VALUE) : dumper yyjson_mut_val :=
  match num with
  | Fixnum val => dret (mut_sint val)
  | Bignum val =>
      if (- 2 ^ 63 <=? val) && (val <? 2 ^ 63) then dret (mut_sint val)
      else rb_raise (RuntimeError "RangeError")
  | _ => rb_raise (RuntimeError "TypeError")
  end.

Definition dump_float (val : spec_float) : dumper yyjson_mut_val :=
  if (isinf val || isnan val) && negb (allow_nan opts) then
    rb_raise (GenerateError NanNotAllowed)
  else dret (mut_real val).

Definition RARRAY_items (ary : VALUE) : list VALUE :=
  match ary with
  | Ref id => match heap id with RArray items => items | _ => [] end
  | _ => []
  end.

Definition RHASH_pairs (hash : VALUE) : list (VALUE * VALUE) :=
  match hash with
  | Ref id => match heap id with RHash pairs => pairs | _ => [] end
  | _ => []
  end.

Definition custom_of (obj : VALUE) : option custom_object :=
  match obj with
  | Ref id => match heap id with RObject o => Some o | _ => None end
  | _ => None
  end.

(** [rb_funcall(obj, id_to_s, 0)]. *)
Definition funcall_to_s (obj : VALUE) : string :=
  match custom_of obj with
  | Some o => to_s o
  | None => builtin_to_s obj
  end.

Section Recursion.

(** The recursive call, [dump_ruby_object] with the fuel that is left. *)
Variable dump_rec : VALUE -> dumper yyjson_mut_val.

(** The loop of [dump_array] over the entries. *)
Fixpoint dump_items (items : list VALUE) : dumper (list yyjson_mut_val) :=
  match items with
  | [] => dret []
  | item :: rest =>
      do json_val <- dump_rec item;
      do arr <- dump_items rest;
      dret (json_val :: arr)
  end.

Definition dump_array (ary : VALUE) : dumper yyjson_mut_val :=
  do _ <- check_circular_reference ary;
  do _ <- depth_add 1;
  do arr <- dump_items (RARRAY_items ary);
  do _ <- depth_add (-1);
  do _ <- unmark_visited ary;
  dret (mut_arr arr).

Definition dump_hash_iter (key val : VALUE)
  : dumper (string * yyjson_mut_val) :=
  let key_str :=
    match TYPE key with
    | T_STRING => match key with Str s => s | _ => EmptyString end
    | T_SYMBOL => match key with Sym s => s | _ => EmptyString end
    | _ => funcall_to_s key
    end in
  do json_val <- dump_rec val;
  dret (key_str, json_val).

(** [rb_hash_foreach(hash, dump_hash_iter, ctx)]. *)
Fixpoint dump_pairs (pairs : list (VALUE * VALUE))
  : dumper (list (string * yyjson_mut_val)) :=
  match pairs with
  | [] => dret []
  | (key, val) :: rest =>
      do kv <- dump_hash_iter key val;
      do obj <- dump_pairs rest;
      dret (kv :: obj)
  end.

Definition dump_hash (hash : VALUE) : dumper yyjson_mut_val :=
  do _ <- check_circular_reference hash;
  do _ <- depth_add 1;
  do obj <- dump_pairs (RHASH_pairs hash);
  do _ <- depth_add (-1);
  do _ <- unmark_visited hash;
  dret (mut_obj obj).

End Recursion.

Definition is_basic_json_type (obj : VALUE) : bool :=
  match TYPE obj with
  | T_OTHER => false
  | _ => true
  end.

Definition is_time_like (obj : VALUE) : bool :=
  match custom_of obj with
  | Some o => time_like o
  | None => false
  end.

Definition dump_time (obj : VALUE) : dumper yyjson_mut_val :=
  let str :=
    match custom_of obj with
    | Some o =>
        match iso8601 o with
        | Some s => s
        | None =>
            match xmlschema o with
            | Some s => s
            | None => to_s o
            end
        end
    | None => funcall_to_s obj
    end in
  dump_string str.

Definition mode_eqb (a b : yyjson_mode_t) : bool :=
  match a, b with
  | MODE_STRICT, MODE_STRICT | MODE_COMPAT, MODE_COMPAT
  | MODE_RAILS, MODE_RAILS | MODE_OBJECT, MODE_OBJECT
  | MODE_CUSTOM, MODE_CUSTOM => true
  | _, _ => false
  end.

(** [try_as_json]: the values of the built-in classes are taken not to
    respond to [as_json]; the dumper only calls it on other objects. *)
Definition try_as_json (obj : VALUE) : VALUE :=
  if mode_eqb (mode opts) MODE_COMPAT && is_basic_json_type obj then Qnil
  else if mode_eqb (mode opts) MODE_RAILS && is_basic_json_type obj then Qnil
  else
    match custom_of obj with
    | Some o =>
        match as_json o with
        | Some r => r
        | None => Qnil
        end
    | None => Qnil
    end.

Fixpoint dump_ruby_object (fuel : nat) (obj : VALUE) : dumper yyjson_mut_val :=
  match fuel with
  | O => fun _ => None
  | S fuel' =>
      match TYPE obj with
      | T_NIL => dret mut_null
      | T_TRUE => dret mut_true
      | T_FALSE => dret mut_false
      | T_FIXNUM | T_BIGNUM => dump_integer obj
      | T_FLOAT =>
          match obj with
          | Float d => dump_float d
          | _ => rb_raise (RuntimeError "TypeError")
          end
      | T_STRING =>
          match obj with
          | Str s => dump_string s
          | _ => rb_raise (RuntimeError "TypeError")
          end
      | T_SYMBOL =>
          match obj with
          | Sym s => dump_symbol s
          | _ => rb_raise (RuntimeError "TypeError")
          end
      | T_ARRAY => dump_array (dump_ruby_object fuel') obj
      | T_HASH => dump_hash (dump_ruby_object fuel') obj
      | T_OTHER =>
          if is_time_like obj then dump_time obj
          else
            let as_json_result := try_as_json obj in
            if negb (NIL_P as_json_result) then
              dump_ruby_object fuel' as_json_result
            else dump_string (funcall_to_s obj)
      end
  end.

(** The fresh context of [yyjson_dump_ruby_object]. *)
Definition initial_context : dump_context :=
  {| depth := 0; visited := ∅ |}.

Definition yyjson_dump_ruby_object (fuel : nat) (obj : VALUE)
  : option (result yyjson_mut_val) :=
  match dump_ruby_object fuel obj initial_context with
  | Some (Ok (root, _)) => Some (Ok root)
  | Some (Raise e) => Some (Raise e)
  | None => None
  end.

End Dumper.

(** ** The writer (writer.c) *)

Definition needs_escape (c : ascii) : bool :=
  Ascii.eqb c "<" || Ascii.eqb c ">" || Ascii.eqb c "&" || Ascii.eqb c "'".

(** First pass of [escape_html_entities]: the bytes that need escaping. *)
Fixpoint count_escapes (json : string) : Z :=
  match json with
  | EmptyString => 0
  | String c rest =>
      (if needs_escape c then 1 else 0) + count_escapes rest
  end.

(** Second pass: what the loop writes from [dst] on. *)
Fixpoint copy_and_escape (json : string) : string :=
  match json with
  | EmptyString => EmptyString
  | String c rest =>
      if Ascii.eqb c "<" then "\u003c" ++ copy_and_escape rest
      else if Ascii.eqb c ">" then "\u003e" ++ copy_and_escape rest
      else if Ascii.eqb c "&" then "\u0026" ++ copy_and_escape rest
      else if Ascii.eqb c "'" then "\u0027" ++ copy_and_escape rest
      else String c (copy_and_escape rest)
  end.

Definition strlen (s : string) : Z := Z.of_nat (String.length s).

(** [escape_html_entities]: the new buffer and [*out_len]; [malloc] is taken
    to succeed, and a second pass that wrote past the [new_len] bytes it
    allocated would leave no result. *)
Definition escape_html_entities (json : string) : option (string * Z) :=
  let len := strlen json in
  let escape_count := count_escapes json in
  if escape_count =? 0 then Some (json, len)
  else
    let new_len := len + escape_count * 5 in
    let result := copy_and_escape json in
    if strlen result <=? new_len then Some (result, strlen result) else None.

(** [rb_str_new(ptr, len)]: the first [len] bytes at [ptr]. *)
Definition rb_str_new (ptr : string) (len : Z) : string :=
  String.substring 0 (Z.to_nat len) ptr.

Section Writer.

Variable heap : obj_id -> heap_object.
Variable builtin_to_s : VALUE -> string.

(** The serializer of the yyjson engine, [None] when it returns NULL, and
    the flag bits of yyjson.h. *)
Variable yyjson_mut_write_opts : yyjson_mut_val -> Z -> option string.
Variable YYJSON_WRITE_PRETTY : Z.
Variable YYJSON_WRITE_PRETTY_TWO_SPACES : Z.
Variable YYJSON_WRITE_ESCAPE_SLASHES : Z.
Variable YYJSON_WRITE_ALLOW_INF_AND_NAN : Z.

Definition write_flags (opts : yyjson_dump_options) : Z :=
  let flg := 0 in
  let flg :=
    if pretty opts
    then Z.lor (Z.lor flg YYJSON_WRITE_PRETTY) YYJSON_WRITE_PRETTY_TWO_SPACES
    else flg in
  let flg :=
    if escape_slash opts then Z.lor flg YYJSON_WRITE_ESCAPE_SLASHES else flg in
  let flg :=
    if allow_nan opts then Z.lor flg YYJSON_WRITE_ALLOW_INF_AND_NAN else flg in
  flg.

Definition yyjson_ruby_write_string (fuel : nat) (obj : VALUE)
  (opts : yyjson_dump_options) : option (result string) :=
  match yyjson_dump_ruby_object heap builtin_to_s opts fuel obj with
  | None => None
  | Some (Raise e) => Some (Raise e)
  | Some (Ok root) =>
      match yyjson_mut_write_opts root (write_flags opts) with
      | None => Some (Raise (GenerateError WriteFailed))
      | Some json =>
          let len := strlen json in
          if escape_html opts then
            match escape_html_entities json with
            | None => Some (Raise (GenerateError EscapeFailed))
            | Some (escaped, final_len) => Some (Ok (rb_str_new escaped final_len))
            end
          else Some (Ok (rb_str_new json len))
      end
  end.

Variable NUM2INT : VALUE -> result Z.

(** [yyjson_dump] of yyjson_ext.c: [YYJson.dump(obj, opts = {})]. *)
Definition yyjson_dump (fuel : nat) (obj : VALUE) (opts : option rb_hash)
  : option (result string) :=
  let opts := match opts with None => Some [] | Some h => Some h end in
  match yyjson_extract_dump_options NUM2INT opts with
  | Raise e => Some (Raise e)
  | Ok dump_opts => yyjson_ruby_write_string fuel obj dump_opts
  end.

End Writer.

(** ** The importer and its key cache (value_builder.c) *)

(** A parsed yyjson value, by its tag ([val_raw] stands for the tags the
    switch of [build_val] leaves to its default). *)
Inductive yyjson_val : Type :=
| val_raw
| val_null
| val_bool (b : bool)
| val_uint (n : Z)
| val_sint (n : Z)
| val_real (d : spec_float)
| val_str (s : string)
| val_arr (items : list yyjson_val)
| val_obj (pairs : list (string * yyjson_val)).

(** A value the builder constructs.  Every array and hash it makes is new,
    so they are kept as trees; a string carries the identity of its object,
    a symbol is identified by its name.  A hash is kept as its entries, in
    the order of the hash. *)
Inductive rvalue : Type :=
| R_nil
| R_true
| R_false
| R_fixnum (n : Z)
| R_bignum (n : Z)
| R_float (d : spec_float)
| R_string (id : obj_id) (frozen : bool) (s : string)
| R_symbol (name : string)
| R_array (frozen : bool) (items : list rvalue)
| R_hash (frozen : bool) (pairs : list (rvalue * rvalue)).

(** Whether two keys are one key of a Hash: two strings of the same bytes,
    or one symbol.  The keys [build_obj] makes are frozen UTF-8 strings or
    symbols. *)
Definition key_eql (a b : rvalue) : bool :=
  match a, b with
  | R_string _ _ s, R_string _ _ t => String.eqb s t
  | R_symbol s, R_symbol t => String.eqb s t
  | _, _ => false
  end.

(** [rb_hash_aset] with such a key: the entry of an equal key keeps its key
    and its place and takes the value; a key that is not in the hash is
    put after the entries. *)
Fixpoint rb_hash_aset (hash : list (rvalue * rvalue)) (key v : rvalue)
  : list (rvalue * rvalue) :=
  match hash with
  | [] => [(key, v)]
  | (key', v') :: rest =>
      if key_eql key' key then (key', v) :: rest
      else (key', v') :: rb_hash_aset rest key v
  end.

(** [rb_hash_bulk_insert], and the loop of [rb_hash_aset] that stands in
    its place without [HAVE_RB_HASH_BULK_INSERT]: the pairs of the buffer
    are stored one after the other. *)
Definition rb_hash_bulk_insert (pairs hash : list (rvalue * rvalue))
  : list (rvalue * rvalue) :=
  fold_left (fun h kv => rb_hash_aset h kv.1 kv.2) pairs hash.

Definition SMALL_INT_MIN : Z := -10.
Definition SMALL_INT_MAX : Z := 100.
Definition FIXNUM_MIN : Z := - 2 ^ 62.
Definition FIXNUM_MAX : Z := 2 ^ 62 - 1.

(** The table [yyjson_value_builder_init] fills: slot [i] holds
    [LONG2FIX(SMALL_INT_MIN + i)]. *)
Definition small_ints : list rvalue :=
  map (fun i => R_fixnum (SMALL_INT_MIN + Z.of_nat i))
      (seq 0 (Z.to_nat (SMALL_INT_MAX - SMALL_INT_MIN + 1))).

Definition small_int (n : Z) : rvalue :=
  default R_nil (small_ints !! Z.to_nat (n - SMALL_INT_MIN)).

(** [LONG2FIX]: the 63 bits of a [long] that a Fixnum keeps. *)
Definition LONG2FIX (n : Z) : rvalue :=
  R_fixnum ((n + 2 ^ 62) mod 2 ^ 63 - 2 ^ 62).

Definition fast_int (n : Z) : rvalue :=
  if (SMALL_INT_MIN <=? n) && (n <=? SMALL_INT_MAX) then small_int n
  else LONG2FIX n.

Definition CACHE_SIZE : Z := 63.
Definition CACHE_MAX_LEN : Z := 55.

Record cache_entry_t := {
  ptr : string;
  len : Z;
  hash : Z;
  val : rvalue
}.

(** [string_cache_t]: the slots [entries[0 .. len-1]] in use. *)
Definition string_cache_t := list cache_entry_t.

Definition cache_len (c : string_cache_t) : Z := Z.of_nat (length c).

Definition u8 (c : ascii) : Z := Z.of_N (N_of_ascii c).

Fixpoint fnv1a_loop (h : Z) (s : string) : Z :=
  match s with
  | EmptyString => h
  | String c rest => fnv1a_loop ((Z.lxor h (u8 c) * 16777619) mod 2 ^ 32) rest
  end.

Definition fnv1a (s : string) : Z := fnv1a_loop 2166136261 s.

(** [isalpha] in the C locale. *)
Definition isalpha (c : ascii) : bool :=
  ((65 <=? u8 c) && (u8 c <=? 90)) || ((97 <=? u8 c) && (u8 c <=? 122)).

(** [memcpy(&v, p, 8)] on a little-endian machine. *)
Fixpoint load_le (bs : list ascii) : Z :=
  match bs with
  | [] => 0
  | b :: rest => u8 b + 256 * load_le rest
  end.

Fixpoint le_bytes (n : nat) (v : Z) : list Z :=
  match n with
  | O => []
  | S n' => v mod 256 :: le_bytes n' (v / 256)
  end.

(** [__builtin_bswap64]: the bytes of [v] read in the opposite order. *)
Definition bswap64 (v : Z) : Z :=
  fold_left (fun acc b => acc * 256 + b) (le_bytes 8 v) 0.

Section Cache.

(** Whether plain [char] is signed on the target (it is on x86-64, not on
    AArch64 Linux); the byte loop of [fast_cmp] compares [char]s. *)
Variable char_signed : bool.

Definition char_val (c : ascii) : Z :=
  if char_signed && (128 <=? u8 c) then u8 c - 256 else u8 c.

(** First loop of [fast_cmp]: [n] words of eight bytes. *)
Fixpoint cmp_words (n : nat) (a b : list ascii) : option Z :=
  match n with
  | O => None
  | S n' =>
      let va := load_le (take 8 a) in
      let vb := load_le (take 8 b) in
      if negb (va =? vb) then
        Some (if bswap64 va <? bswap64 vb then -1 else 1)
      else cmp_words n' (drop 8 a) (drop 8 b)
  end.

(** Second loop of [fast_cmp]: the bytes that are left. *)
Fixpoint cmp_bytes (a b : list ascii) : Z :=
  match a, b with
  | x :: a', y :: b' =>
      if negb (Ascii.eqb x y) then (if char_val x <? char_val y then -1 else 1)
      else cmp_bytes a' b'
  | _, _ => 0
  end.

(** [fast_cmp] (the little-endian 64-bit variant) on the first [len] bytes
    of two keys. *)
Definition fast_cmp (a b : string) (len : Z) : Z :=
  let n := Z.to_nat len in
  let a := take n (list_ascii_of_string a) in
  let b := take n (list_ascii_of_string b) in
  let words := (n / 8)%nat in
  match cmp_words words a b with
  | Some r => r
  | None => cmp_bytes (drop (8 * words) a) (drop (8 * words) b)
  end.

Equations? cache_search_loop (c : string_cache_t) (s : string) (slen h : Z)
  (lo hi : Z) : Z by wf (Z.to_nat (hi - lo + 1)) lt :=
cache_search_loop c s slen h lo hi with Z_le_gt_dec lo hi := {
  | right _ => - (lo + 1)
  | left _ =>
      let mid := Z.shiftr (lo + hi) 1 in
      match c !! Z.to_nat mid with
      | None => - (lo + 1)
      | Some e =>
          if hash e <? h then cache_search_loop c s slen h (mid + 1) hi
          else if h <? hash e then cache_search_loop c s slen h lo (mid - 1)
          else if len e <? slen then cache_search_loop c s slen h (mid + 1) hi
          else if slen <? len e then cache_search_loop c s slen h lo (mid - 1)
          else
            let cmp := fast_cmp s (ptr e) slen in
            if cmp =? 0 then mid
            else if 0 <? cmp then cache_search_loop c s slen h (mid + 1) hi
            else cache_search_loop c s slen h lo (mid - 1)
      end }.
Proof.
  all: subst mid; rewrite Z.shiftr_div_pow2 by lia; change (2 ^ 1) with 2;
    pose proof (Z.div_mod (lo + hi) 2 ltac:(lia));
    pose proof (Z.mod_pos_bound (lo + hi) 2 ltac:(lia)); lia.
Qed.

Definition cache_search (c : string_cache_t) (s : string) (slen h : Z) : Z :=
  cache_search_loop c s slen h 0 (cache_len c - 1).

(** [cache_insert]: [memmove] of the slots from [pos] on, then the store. *)
Definition cache_insert (c : string_cache_t) (pos : Z) (s : string)
  (slen h : Z) (v : rvalue) : string_cache_t :=
  if CACHE_SIZE <=? cache_len c then c
  else
    (take (Z.to_nat pos) c
     ++ {| ptr := s; len := slen mod 2 ^ 32; hash := h; val := v |}
     :: drop (Z.to_nat pos) c)%list.

(** The string objects of the runtime: the next free identity and the
    table of interned strings. *)
Record object_space := {
  next_id : obj_id;
  fstrings : gmap string obj_id
}.

(** Whether extconf found [rb_enc_interned_str]. *)
Variable HAVE_RB_ENC_INTERNED_STR : bool.

Definition make_str (s : string) (os : object_space) : rvalue * object_space :=
  (R_string (next_id os) false s,
   {| next_id := Pos.succ (next_id os); fstrings := fstrings os |}).

Definition make_fstr (s : string) (os : object_space) : rvalue * object_space :=
  if HAVE_RB_ENC_INTERNED_STR then
    match fstrings os !! s with
    | Some id => (R_string id true s, os)
    | None =>
        (R_string (next_id os) true s,
         {| next_id := Pos.succ (next_id os);
            fstrings := <[s := next_id os]> (fstrings os) |})
    end
  else
    (R_string (next_id os) true s,
     {| next_id := Pos.succ (next_id os); fstrings := fstrings os |}).

(** [ID2SYM(rb_intern2(s, len))]. *)
Definition make_sym (s : string) (os : object_space) : rvalue * object_space :=
  (R_symbol s, os).

Definition first_byte (s : string) : ascii :=
  match s with
  | EmptyString => zero
  | String c _ => c
  end.

(** The test that sends a key past the cache. *)
Definition uncacheable (s : string) : bool :=
  let len := strlen s in
  (CACHE_MAX_LEN <? len) || (len =? 0) || negb (isalpha (first_byte s)).

Definition get_str_key (c : string_cache_t) (s : string) (os : object_space)
  : rvalue * string_cache_t * object_space :=
  let len := strlen s in
  if uncacheable s then
    let '(v, os) := make_fstr s os in (v, c, os)
  else
    let h := fnv1a s in
    let idx := cache_search c s len h in
    if 0 <=? idx then
      (default R_nil (val <$> c !! Z.to_nat idx), c, os)
    else
      let '(v, os) := make_fstr s os in
      (v, cache_insert c (- (idx + 1)) s len h v, os).

Definition get_sym_key (c : string_cache_t) (s : string) (os : object_space)
  : rvalue * string_cache_t * object_space :=
  let len := strlen s in
  if uncacheable s then
    let '(v, os) := make_sym s os in (v, c, os)
  else
    let h := fnv1a s in
    let idx := cache_search c s len h in
    if 0 <=? idx then
      (default R_nil (val <$> c !! Z.to_nat idx), c, os)
    else
      let '(v, os) := make_sym s os in
      (v, cache_insert c (- (idx + 1)) s len h v, os).

End Cache.

Section Builder.

Variable char_signed : bool.
Variable HAVE_RB_ENC_INTERNED_STR : bool.
Variable opts : yyjson_parse_options.

(** What [parse_ctx_t] points to and the call changes: the two caches, and
    the string objects of the runtime. *)
Record parse_ctx_t := {
  str_cache : string_cache_t;
  sym_cache : string_cache_t;
  objects : object_space
}.

Definition build_num (v : yyjson_val) : rvalue :=
  match v with
  | val_sint n =>
      if (SMALL_INT_MIN <=? n) && (n <=? SMALL_INT_MAX) then small_int n
      else if (FIXNUM_MIN <=? n) && (n <=? FIXNUM_MAX) then R_fixnum n
      else R_bignum n
  | val_uint n =>
      if n <=? SMALL_INT_MAX then small_int n
      else if n <=? FIXNUM_MAX then R_fixnum n
      else R_bignum n
  | val_real d => R_float d
  | _ => R_nil
  end.

Definition build_str (s : string) (ctx : parse_ctx_t) : rvalue * parse_ctx_t :=
  let '(v, os) :=
    if p_freeze opts then make_fstr HAVE_RB_ENC_INTERNED_STR s (objects ctx)
    else make_str s (objects ctx) in
  (v, {| str_cache := str_cache ctx; sym_cache := sym_cache ctx; objects := os |}).

(** The key of one pair of [build_obj], through the cache the call uses. *)
Definition build_key (ks : string) (ctx : parse_ctx_t) : rvalue * parse_ctx_t :=
  if p_symbolize_names opts then
    let '(k, c, os) := get_sym_key char_signed (sym_cache ctx) ks (objects ctx) in
    (k, {| str_cache := str_cache ctx; sym_cache := c; objects := os |})
  else
    let '(k, c, os) :=
      get_str_key char_signed HAVE_RB_ENC_INTERNED_STR (str_cache ctx) ks (objects ctx) in
    (k, {| str_cache := c; sym_cache := sym_cache ctx; objects := os |}).

Section Recursion.

Variable build_rec : yyjson_val -> parse_ctx_t -> rvalue * parse_ctx_t.

(** The loop of [build_arr] over the iterator. *)
Fixpoint build_items (items : list yyjson_val) (ctx : parse_ctx_t)
  : list rvalue * parse_ctx_t :=
  match items with
  | [] => ([], ctx)
  | item :: rest =>
      let '(x, ctx) := build_rec item ctx in
      let '(vals, ctx) := build_items rest ctx in
      (x :: vals, ctx)
  end.

Definition build_arr (items : list yyjson_val) (ctx : parse_ctx_t)
  : rvalue * parse_ctx_t :=
  match items with
  | [] => (R_array (p_freeze opts) [], ctx)
  | _ =>
      let '(vals, ctx) := build_items items ctx in
      (R_array (p_freeze opts) vals, ctx)
  end.

(** The loop of [build_obj] that fills the buffer [pairs]: the key, then
    the value, pair after pair. *)
Fixpoint build_pairs (pairs : list (string * yyjson_val)) (ctx : parse_ctx_t)
  : list (rvalue * rvalue) * parse_ctx_t :=
  match pairs with
  | [] => ([], ctx)
  | (ks, val) :: rest =>
      let '(k, ctx) := build_key ks ctx in
      let '(x, ctx) := build_rec val ctx in
      let '(kvs, ctx) := build_pairs rest ctx in
      ((k, x) :: kvs, ctx)
  end.

Definition build_obj (pairs : list (string * yyjson_val)) (ctx : parse_ctx_t)
  : rvalue * parse_ctx_t :=
  match pairs with
  | [] => (R_hash (p_freeze opts) [], ctx)
  | _ =>
      let '(kvs, ctx) := build_pairs pairs ctx in
      (R_hash (p_freeze opts) (rb_hash_bulk_insert kvs []), ctx)
  end.

End Recursion.

Fixpoint build_val (v : yyjson_val) (ctx : parse_ctx_t) {struct v}
  : rvalue * parse_ctx_t :=
  match v with
  | val_null => (R_nil, ctx)
  | val_bool b => (if b then R_true else R_false, ctx)
  | val_uint _ | val_sint _ | val_real _ => (build_num v, ctx)
  | val_str s => build_str s ctx
  | val_arr items => build_arr build_val items ctx
  | val_obj pairs => build_obj build_val pairs ctx
  | val_raw => (R_nil, ctx)
  end.

Definition build_val_simple (v : yyjson_val) (freeze : bool) (os : object_space)
  : rvalue * object_space :=
  match v with
  | val_null => (R_nil, os)
  | val_bool b => (if b then R_true else R_false, os)
  | val_uint _ | val_sint _ | val_real _ => (build_num v, os)
  | val_str s =>
      if freeze then make_fstr HAVE_RB_ENC_INTERNED_STR s os else make_str s os
  | _ => (R_nil, os)
  end.

Definition is_container (v : yyjson_val) : bool :=
  match v with val_arr _ | val_obj _ => true | _ => false end.

(** [yyjson_build_ruby_object] on the root of a document. *)
Definition yyjson_build_ruby_object (root : yyjson_val) (os : object_space)
  : rvalue * object_space :=
  if negb (is_container root) then build_val_simple root (p_freeze opts) os
  else
    let ctx := {| str_cache := []; sym_cache := []; objects := os |} in
    let '(v, ctx) := build_val root ctx in
    (v, objects ctx).

End Builder.

(** ** Parsing and the entry point (parser.c, yyjson_ext.c) *)

Section Parser.

Variable char_signed : bool.
Variable HAVE_RB_ENC_INTERNED_STR : bool.

(** The reader of the yyjson engine: the root of the document, or the
    position and message of [yyjson_read_err]; and the flag bits of
    yyjson.h. *)
Variable yyjson_read_opts : string -> Z -> yyjson_val + Z * string.
Variable YYJSON_READ_ALLOW_COMMENTS : Z.
Variable YYJSON_READ_ALLOW_INF_AND_NAN : Z.

Definition YYJSON_READ_NOFLAG : Z := 0.

Definition yyjson_parse_string (json_str : VALUE) (opts : yyjson_parse_options)
  (os : object_space) : result (rvalue * object_space) :=
  match json_str with
  | Str json =>
      let doc :=
        if p_allow_nan opts && p_allow_comments opts then
          let default_flg :=
            Z.lor YYJSON_READ_ALLOW_COMMENTS YYJSON_READ_ALLOW_INF_AND_NAN in
          yyjson_read_opts json default_flg
        else
          let flg := YYJSON_READ_NOFLAG in
          let flg :=
            if p_allow_comments opts then Z.lor flg YYJSON_READ_ALLOW_COMMENTS
            else flg in
          let flg :=
            if p_allow_nan opts then Z.lor flg YYJSON_READ_ALLOW_INF_AND_NAN
            else flg in
          yyjson_read_opts json flg in
      match doc with
      | inr (pos, msg) => Raise (ParseError pos msg)
      | inl root =>
          Ok (yyjson_build_ruby_object char_signed HAVE_RB_ENC_INTERNED_STR
                opts root os)
      end
  | _ => Raise (RuntimeError "TypeError")
  end.

Variable NUM2INT : VALUE -> result Z.

(** [default_parse_opts] of yyjson_ext.c. *)
Definition default_parse_opts : yyjson_parse_options :=
  {| p_symbolize_names := false; p_freeze := false; p_allow_nan := true;
     p_allow_comments := true; p_max_nesting := 100; p_mode := MODE_COMPAT |}.

(** [yyjson_load]: [YYJson.load(source, opts = {})]. *)
Definition yyjson_load (source : VALUE) (opts : option rb_hash)
  (os : object_space) : result (rvalue * object_space) :=
  match opts with
  | None => yyjson_parse_string source default_parse_opts os
  | Some h =>
      if RHASH_EMPTY_P h then yyjson_parse_string source default_parse_opts os
      else
        parse_opts ← yyjson_extract_parse_options NUM2INT opts;
        yyjson_parse_string source parse_opts os
  end.

End Parser.

(** ** The file variants (writer.c, parser.c, yyjson_ext.c) *)

(** What a call on a file raises: an exception of the calls on strings;
    [rb_eIOError] for a file the reader cannot open; [eParseError] with the
    text "Parse error in file %s at position %zu: %s (code: %u)";
    [eGenerateError] with the text "Failed to write JSON to file %s: %s
    (code: %u)". *)
Inductive file_exn : Type :=
| Raised (e : exn)
| IOError (path : string)
| FileParseError (path : string) (pos : Z) (msg : string) (code : Z)
| FileWriteError (path : string) (msg : string) (code : Z).

(** [Check_Type(v, T_STRING)] and [SafeStringValue(v)] on the values of the
    model, none of which but a String converts with [to_str]. *)
Definition StringValue (v : VALUE) : result string :=
  match v with
  | Str s => Ok s
  | _ => Raise (RuntimeError "TypeError")
  end.

Section Files.

(** The files of the machine, as the engine reads and writes them. *)
Variable FS : Type.

Variable heap : obj_id -> heap_object.
Variable builtin_to_s : VALUE -> string.

(** [yyjson_mut_write_file(path, doc, flg, NULL, &err)]: the files it
    leaves, and [err.msg] and [err.code] when it returns false. *)
Variable yyjson_mut_write_file :
  string -> yyjson_mut_val -> Z -> FS -> option (string * Z) * FS.
Variable YYJSON_WRITE_PRETTY : Z.
Variable YYJSON_WRITE_PRETTY_TWO_SPACES : Z.
Variable YYJSON_WRITE_ESCAPE_SLASHES : Z.
Variable YYJSON_WRITE_ALLOW_INF_AND_NAN : Z.

(** [yyjson_ruby_write_file]: the path goes to the engine as a C string;
    [Qnil] on success. *)
Definition yyjson_ruby_write_file (fuel : nat) (obj file_path : VALUE)
  (opts : yyjson_dump_options) (fs : FS) : option ((VALUE + file_exn) * FS) :=
  match StringValue file_path with
  | Raise e => Some (inr (Raised e), fs)
  | Ok s =>
      let path := c_str s in
      match yyjson_dump_ruby_object heap builtin_to_s opts fuel obj with
      | None => None
      | Some (Raise e) => Some (inr (Raised e), fs)
      | Some (Ok root) =>
          let flg :=
            write_flags YYJSON_WRITE_PRETTY YYJSON_WRITE_PRETTY_TWO_SPACES
              YYJSON_WRITE_ESCAPE_SLASHES YYJSON_WRITE_ALLOW_INF_AND_NAN opts in
          match yyjson_mut_write_file path root flg fs with
          | (Some (msg, code), fs) => Some (inr (FileWriteError path msg code), fs)
          | (None, fs) => Some (inl Qnil, fs)
          end
      end
  end.

Variable NUM2INT : VALUE -> result Z.

(** [yyjson_dump_file]: [YYJson.dump_file(obj, path, opts = {})]. *)
Definition yyjson_dump_file (fuel : nat) (obj path : VALUE) (opts : option rb_hash)
  (fs : FS) : option ((VALUE + file_exn) * FS) :=
  match StringValue path with
  | Raise e => Some (inr (Raised e), fs)
  | Ok _ =>
      let opts := match opts with None => Some [] | Some h => Some h end in
      match yyjson_extract_dump_options NUM2INT opts with
      | Raise e => Some (inr (Raised e), fs)
      | Ok dump_opts => yyjson_ruby_write_file fuel obj path dump_opts fs
      end
  end.

Variable char_signed : bool.
Variable HAVE_RB_ENC_INTERNED_STR : bool.

(** [yyjson_read_file(path, flg, NULL, &err)]: the root of the document,
    or [err.code], [err.pos] and [err.msg]. *)
Variable yyjson_read_file : string -> Z -> FS -> yyjson_val + Z * Z * string.
Variable YYJSON_READ_ALLOW_COMMENTS : Z.
Variable YYJSON_READ_ALLOW_INF_AND_NAN : Z.
Variable YYJSON_READ_ERROR_FILE_OPEN : Z.

Definition yyjson_parse_file (file_path : VALUE) (opts : yyjson_parse_options)
  (os : object_space) (fs : FS) : rvalue * object_space + file_exn :=
  match StringValue file_path with
  | Raise e => inr (Raised e)
  | Ok s =>
      let path := c_str s in
      let flg := 0 in
      let flg :=
        if p_allow_comments opts then Z.lor flg YYJSON_READ_ALLOW_COMMENTS else flg in
      let flg :=
        if p_allow_nan opts then Z.lor flg YYJSON_READ_ALLOW_INF_AND_NAN else flg in
      match yyjson_read_file path flg fs with
      | inr (code, pos, msg) =>
          if code =? YYJSON_READ_ERROR_FILE_OPEN then inr (IOError path)
          else inr (FileParseError path pos msg code)
      | inl root =>
          inl (yyjson_build_ruby_object char_signed HAVE_RB_ENC_INTERNED_STR
                 opts root os)
      end
  end.

(** [yyjson_load_file]: [YYJson.load_file(path, opts = {})]. *)
Definition yyjson_load_file (path : VALUE) (opts : option rb_hash)
  (os : object_space) (fs : FS) : rvalue * object_space + file_exn :=
  match StringValue path with
  | Raise e => inr (Raised e)
  | Ok _ =>
      let opts := match opts with None => Some [] | Some h => Some h end in
      match yyjson_extract_parse_options NUM2INT opts with
      | Raise e => inr (Raised e)
      | Ok parse_opts => yyjson_parse_file path parse_opts os fs
      end
  end.

End Files.

(** * Vocabulary of the statements *)

(** ** Option resolution *)

(** An explicit field of the hash decides, the fallback holds without it. *)
Definition overridden (h : rb_hash) (name : string) (fallback : bool) : bool :=
  if NIL_P (rb_hash_aref h name) then fallback else RTEST (rb_hash_aref h name).

(** The fields of the parse options the spec's table lists, as
    (mode, allow_nan, allow_comments, symbolize_names). *)
Definition parse_row (o : yyjson_parse_options)
  : yyjson_mode_t * bool * bool * bool :=
  (p_mode o, p_allow_nan o, p_allow_comments o, p_symbolize_names o).

(** The modes [yyjson_extract_dump_options] acts on: [:strict], [:rails]
    and [:object]; every other value of [:mode] leaves the options as they
    are ([:compat] sets the mode that is the default). *)
Definition dump_mode_acts (val : VALUE) : bool :=
  match val with
  | Sym mode_id =>
      String.eqb mode_id "strict" || String.eqb mode_id "rails"
      || String.eqb mode_id "object"
  | _ => false
  end.

(** Two option hashes that hold the same value under every key but [name]. *)
Definition same_but (name : string) (h h' : rb_hash) : Prop :=
  forall k, k <> name -> rb_hash_aref h k = rb_hash_aref h' k.

(** The modes [yyjson_extract_parse_options] acts on. *)
Definition parse_mode_acts (val : VALUE) : bool :=
  match val with
  | Sym mode_id =>
      String.eqb mode_id "strict" || String.eqb mode_id "rails"
      || String.eqb mode_id "object" || String.eqb mode_id "custom"
  | _ => false
  end.

(** The options [o] with [escape_html] set to [b]. *)
Definition with_escape_html (o : yyjson_dump_options) (b : bool)
  : yyjson_dump_options :=
  {| pretty := pretty o; escape_slash := escape_slash o; allow_nan := allow_nan o;
     escape_html := b; indent := indent o; mode := mode o |}.

(** ** The exporter *)

(** The context in which the entries of the container [id] are dumped. *)
Definition entered (id : obj_id) (ctx : dump_context) : dump_context :=
  {| depth := depth ctx + 1; visited := {[id]} ∪ visited ctx |}.

(** [x] is dumped from [ctx] and returns. *)
Definition exports_ok (dump_rec : VALUE -> dumper yyjson_mut_val)
  (ctx : dump_context) (x : VALUE) : Prop :=
  exists v, dump_rec x ctx = Some (Ok (v, ctx)).

Section ExporterTerms.

Variable heap : obj_id -> heap_object.

(** The entries of a container, in the order the dumper visits them. *)
Definition elements (obj : VALUE) : list VALUE :=
  (RARRAY_items heap obj ++ map snd (RHASH_pairs heap obj))%list.

End ExporterTerms.

Definition export_outcome (r : option (result yyjson_mut_val))
  : option (option exn) :=
  match r with
  | Some (Ok _) => Some None
  | Some (Raise e) => Some (Some e)
  | None => None
  end.

(** [n] arrays nested in one another: the array [k] holds the array
    [k + 1] alone, the innermost one is empty. *)
Definition nested_arrays (n : nat) : obj_id -> heap_object :=
  fun id =>
    if (Pos.to_nat id <? n)%nat then RArray [Ref (Pos.succ id)] else RArray [].

(** The same with hashes: the hash [k] holds the hash [k + 1] under [:a]. *)
Definition nested_hashes (n : nat) : obj_id -> heap_object :=
  fun id =>
    if (Pos.to_nat id <? n)%nat then RHash [(Sym "a", Ref (Pos.succ id))]
    else RHash [].

(** The export of [nested_arrays (S n)]: [n] arrays around an empty one. *)
Fixpoint nest (n : nat) : yyjson_mut_val :=
  match n with
  | O => mut_arr []
  | S n' => mut_arr [nest n']
  end.

(** Object graphs for the examples: an array that holds itself after a
    number, a hash that holds itself inside an array, and an array that
    holds the same array twice. *)
Definition self_array : obj_id -> heap_object :=
  fun id => RArray [Fixnum 1; Ref 1%positive].

Definition self_hash_via_array : obj_id -> heap_object :=
  fun id =>
    match id with
    | 1%positive => RHash [(Sym "items", Ref 2%positive)]
    | _ => RArray [Str "x"; Ref 1%positive]
    end.

Definition shared_siblings : obj_id -> heap_object :=
  fun id =>
    match id with
    | 1%positive => RArray [Ref 2%positive; Ref 2%positive]
    | _ => RArray [Fixnum 1; Fixnum 2]
    end.






(** Every [as_json] of the graph returns a value of one of the basic
    types: nil, a boolean, a number, a string, a symbol, an array or a
    hash. *)
Definition as_json_basic (heap : obj_id -> heap_object) : Prop :=
  forall id o r, heap id = RObject o -> as_json o = Some r -> TYPE heap r <> T_OTHER.

(** Whether a byte string holds a NUL byte. *)
Fixpoint has_nul (s : string) : bool :=
  match s with
  | EmptyString => false
  | String c rest => Ascii.eqb c zero || has_nul rest
  end.

Section ExporterNames.

Variable heap : obj_id -> heap_object.
Variable builtin_to_s : VALUE -> string.

(** The name under which [dump_hash_iter] files the value of a key: the
    bytes of a String, the name of a Symbol, [to_s] of anything else. *)
Definition key_name (key : VALUE) : string :=
  match key with
  | Str s => s
  | Sym s => s
  | _ => funcall_to_s heap builtin_to_s key
  end.

End ExporterNames.

(** An object whose [as_json] returns the object itself. *)
Definition self_as_json_object : custom_object :=
  {| time_like := false; iso8601 := None; xmlschema := None;
     as_json := Some (Ref 1%positive); to_s := "#<Node>" |}.

(** Whether a tree holds a number that is infinite or NaN. *)
Fixpoint has_nonfinite (v : yyjson_mut_val) : bool :=
  match v with
  | mut_real d => isinf d || isnan d
  | mut_arr items => existsb has_nonfinite items
  | mut_obj pairs => existsb (fun kv => has_nonfinite kv.2) pairs
  | _ => false
  end.

(** ** HTML escaping *)

(** What the spec says of one byte: its six-byte escape, or the byte. *)
Definition escape_sequence (c : ascii) : string :=
  if Ascii.eqb c "<" then "\u003c"
  else if Ascii.eqb c ">" then "\u003e"
  else if Ascii.eqb c "&" then "\u0026"
  else if Ascii.eqb c "'" then "\u0027"
  else String c EmptyString.

(** The text of the spec: every byte replaced by its sequence, in order. *)
Definition html_escaped (json : string) : string :=
  String.concat EmptyString (map escape_sequence (list_ascii_of_string json)).

(** No byte of the escaped text is one of the four. *)
Fixpoint all_escaped (s : string) : bool :=
  match s with
  | EmptyString => true
  | String c rest => negb (needs_escape c) && all_escaped rest
  end.

(** An engine for examples: it writes a string node as its bytes between
    quotes (none of them need a JSON escape in the examples below). *)
Definition quoting_writer (root : yyjson_mut_val) (flg : Z) : option string :=
  match root with
  | mut_str s => Some (String (ascii_of_nat 34) (s ++ String (ascii_of_nat 34) EmptyString))
  | _ => None
  end.

(** ** The key cache *)

(** The order of the cache compares lists of integers position by
    position. *)
Fixpoint lex_cmp (a b : list Z) : Z :=
  match a, b with
  | [], [] => 0
  | [], _ :: _ => -1
  | _ :: _, [] => 1
  | x :: a', y :: b' =>
      if x <? y then -1 else if y <? x then 1 else lex_cmp a' b'
  end.

Definition lex_lt (a b : list Z) : Prop := lex_cmp a b = -1.

(** Big-endian reading of a list of bytes. *)
Definition be_val (l : list Z) : Z :=
  fold_left (fun acc b => acc * 256 + b) l 0.

Definition is_byte (z : Z) : Prop := 0 <= z < 256.

(** The entry [cache_insert] stores for the key [s] with the value [v]. *)
Definition new_entry (s : string) (v : rvalue) : cache_entry_t :=
  {| ptr := s; len := strlen s; hash := fnv1a s; val := v |}.

(** An entry as [cache_insert] stores it for a cacheable key. *)
Definition entry_wf (e : cache_entry_t) : Prop :=
  len e = strlen (ptr e) /\ hash e = fnv1a (ptr e) /\ uncacheable (ptr e) = false.

(** The bytes of a key atom. *)
Definition atom_bytes (v : rvalue) : option string :=
  match v with
  | R_string _ _ s => Some s
  | R_symbol s => Some s
  | _ => None
  end.

(** The cacheable keys among [ks]. *)
Definition cacheable_set (ks : list string) : gset string :=
  list_to_set (filter (fun k => uncacheable k = false) ks).

(** How many distinct cacheable keys precede the position [i] of [ks]. *)
Definition distinct_before (ks : list string) (i : nat) : nat :=
  size (cacheable_set (take i ks)).

(** The string objects of a runtime that has made none yet. *)
Definition empty_space : object_space := {| next_id := 1%positive; fstrings := ∅ |}.

Section CacheTerms.

Variable char_signed : bool.

(** The integers [fast_cmp] compares for a key: the bytes of its whole
    eight-byte words as unsigned values, the bytes after them as [char]s. *)
Definition bcode (s : string) : list Z :=
  let l := list_ascii_of_string s in
  let w := (8 * (length l / 8))%nat in
  (map u8 (take w l) ++ map (char_val char_signed) (drop w l))%list.

(** What the search compares for an entry and for a key. *)
Definition entry_code (e : cache_entry_t) : list Z :=
  hash e :: len e :: bcode (ptr e).

Definition key_code (s : string) : list Z :=
  fnv1a s :: strlen s :: bcode s.

(** The order of the entry array: by hash, then by length, then by the
    bytes of the key, position by position. *)
Definition entry_lt (e1 e2 : cache_entry_t) : Prop :=
  hash e1 < hash e2
  \/ (hash e1 = hash e2
      /\ (len e1 < len e2
          \/ (len e1 = len e2
              /\ lex_lt (bcode (ptr e1)) (bcode (ptr e2))))).

(** The invariant of a cache. *)
Definition cache_inv (c : string_cache_t) : Prop :=
  StronglySorted entry_lt c /\ Forall entry_wf c /\ cache_len c <= CACHE_SIZE.

Definition found_at (c : string_cache_t) (k : list Z) (r : Z) : Prop :=
  0 <= r /\ exists e, c !! Z.to_nat r = Some e /\ entry_code e = k.

Definition insertion_point (c : string_cache_t) (k : list Z) (r : Z) : Prop :=
  exists p : nat,
    r = - (Z.of_nat p + 1) /\ (p <= length c)%nat
    /\ Forall (fun e => lex_lt (entry_code e) k) (take p c)
    /\ Forall (fun e => lex_lt k (entry_code e)) (drop p c).

(** The two key functions differ in how they make the value of a key. *)
Definition get_key_with (mk : string -> object_space -> rvalue * object_space)
  (c : string_cache_t) (s : string) (os : object_space)
  : rvalue * string_cache_t * object_space :=
  let len := strlen s in
  if uncacheable s then
    let '(v, os) := mk s os in (v, c, os)
  else
    let h := fnv1a s in
    let idx := cache_search char_signed c s len h in
    if 0 <=? idx then
      (default R_nil (val <$> c !! Z.to_nat idx), c, os)
    else
      let '(v, os) := mk s os in
      (v, cache_insert c (- (idx + 1)) s len h v, os).

(** What a lookup of the key [s] in the cache [c] does. *)
Inductive key_outcome (mk : string -> object_space -> rvalue * object_space)
  (c : string_cache_t) (s : string) (os : object_space)
  : rvalue -> string_cache_t -> object_space -> Prop :=
| key_bypass :
    uncacheable s = true ->
    key_outcome mk c s os (mk s os).1 c (mk s os).2
| key_hit e :
    uncacheable s = false -> e ∈ c -> ptr e = s ->
    key_outcome mk c s os (val e) c os
| key_insert (p : nat) :
    uncacheable s = false -> (forall e, e ∈ c -> ptr e <> s) ->
    cache_len c < CACHE_SIZE ->
    cache_inv
      (take p c ++ new_entry s (mk s os).1 :: drop p c)%list ->
    key_outcome mk c s os (mk s os).1
      (take p c ++ new_entry s (mk s os).1 :: drop p c)%list (mk s os).2
| key_full :
    uncacheable s = false -> (forall e, e ∈ c -> ptr e <> s) ->
    cache_len c = CACHE_SIZE ->
    key_outcome mk c s os (mk s os).1 c (mk s os).2.

(** One lookup as a step from a cache to the cache it leaves. *)
Inductive cache_step : string_cache_t -> string_cache_t -> Prop :=
| step_str interned c s os :
    cache_step c (get_str_key char_signed interned c s os).1.2
| step_sym c s os :
    cache_step c (get_sym_key char_signed c s os).1.2.

(** What relates a cache to the keys looked up so far, [ks], and to the
    values the lookups returned, [atoms]. *)
Record trace_inv (c : string_cache_t) (ks : list string) (atoms : list rvalue)
  : Prop := {
  ti_cache : cache_inv c;
  ti_length : length atoms = length ks;
  ti_bytes : forall i k a,
    ks !! i = Some k -> atoms !! i = Some a -> atom_bytes a = Some k;
  ti_val : forall e, e ∈ c -> atom_bytes (val e) = Some (ptr e);
  ti_hit : forall e i, e ∈ c -> ks !! i = Some (ptr e) -> atoms !! i = Some (val e);
  ti_all : cache_len c < CACHE_SIZE ->
    forall k, k ∈ ks -> uncacheable k = false -> exists e, e ∈ c /\ ptr e = k;
  ti_count : (length c <= size (cacheable_set ks))%nat;
  ti_early : forall i k,
    ks !! i = Some k -> uncacheable k = false ->
    (distinct_before ks i < Z.to_nat CACHE_SIZE)%nat ->
    exists e, e ∈ c /\ ptr e = k
}.

End CacheTerms.

(** The sign of [memcmp] on two buffers of one length: the bytes compared
    as unsigned values, position by position. *)
Definition memcmp_sign (a b : string) : Z :=
  lex_cmp (map u8 (list_ascii_of_string a)) (map u8 (list_ascii_of_string b)).

(** Whether every byte of a key is an ASCII byte. *)
Definition all_ascii (s : string) : Prop :=
  Forall (fun b => u8 b < 128) (list_ascii_of_string s).

(** The order of the entry array if the bytes of a key were compared as
    [memcmp] compares them: by hash, then by length, then by the bytes as
    unsigned values, position by position. *)
Definition entry_lt_bytes (e1 e2 : cache_entry_t) : Prop :=
  hash e1 < hash e2
  \/ (hash e1 = hash e2
      /\ (len e1 < len e2
          \/ (len e1 = len e2 /\ memcmp_sign (ptr e1) (ptr e2) = -1))).

(** Two cacheable keys of seven bytes with one FNV-1a hash: the second one
    has the two bytes of a UTF-8 letter, 0xC3 and 0xA9, after its first
    byte. *)
Definition colliding_key_ascii : string := "abbvbxa".

Definition colliding_key_utf8 : string :=
  String "a" (String (ascii_of_nat 195) (String (ascii_of_nat 169) "hhdi")).

(** The slot [r] of the cache holds an entry that the search compares
    equal to the key: same hash, same length, and [fast_cmp] returns 0. *)
Definition slot_matches (char_signed : bool) (c : string_cache_t) (s : string)
  (slen h : Z) (r : Z) : Prop :=
  exists e, c !! Z.to_nat r = Some e /\ hash e = h /\ len e = slen
            /\ fast_cmp char_signed s (ptr e) slen = 0.

(** ** The importer *)

(** The keys of a document in the order the builder meets them, and the
    keys of the hashes of a value. *)
Fixpoint doc_keys (v : yyjson_val) : list string :=
  match v with
  | val_arr items => flat_map doc_keys items
  | val_obj pairs => flat_map (fun kv => kv.1 :: doc_keys kv.2) pairs
  | _ => []
  end.

Fixpoint value_keys (v : rvalue) : list rvalue :=
  match v with
  | R_array _ items => flat_map value_keys items
  | R_hash _ pairs => flat_map (fun kv => kv.1 :: value_keys kv.2) pairs
  | _ => []
  end.

(** The cache a call uses for its keys. *)
Definition cache_in_use (opts : yyjson_parse_options) (ctx : parse_ctx_t)
  : string_cache_t :=
  if p_symbolize_names opts then sym_cache ctx else str_cache ctx.

(** A document of two objects, the first with 64 distinct cacheable keys
    of which ["zz"] is the last, the second with the key ["zz"] again. *)
Definition crowded_doc : yyjson_val :=
  val_arr
    [val_obj
       (map (fun i => (String "k" (String (ascii_of_nat (48 + i)) EmptyString),
                       val_null)) (seq 0 63)
        ++ [("zz", val_null)]);
     val_obj [("zz", val_null)]].

(** Induction on a document, with the hypothesis on every item. *)
Fixpoint yyjson_val_ind' (P : yyjson_val -> Prop)
  (Hraw : P val_raw) (Hnull : P val_null) (Hbool : forall b, P (val_bool b))
  (Huint : forall n, P (val_uint n)) (Hsint : forall n, P (val_sint n))
  (Hreal : forall d, P (val_real d)) (Hstr : forall s, P (val_str s))
  (Harr : forall items, Forall P items -> P (val_arr items))
  (Hobj : forall pairs, Forall (fun kv => P kv.2) pairs -> P (val_obj pairs))
  (v : yyjson_val) {struct v} : P v :=
  let rec := yyjson_val_ind' P Hraw Hnull Hbool Huint Hsint Hreal Hstr Harr Hobj in
  match v with
  | val_raw => Hraw
  | val_null => Hnull
  | val_bool b => Hbool b
  | val_uint n => Huint n
  | val_sint n => Hsint n
  | val_real d => Hreal d
  | val_str s => Hstr s
  | val_arr items =>
      Harr items
        ((fix go (l : list yyjson_val) : Forall P l :=
            match l with
            | [] => @List.Forall_nil _ P
            | x :: r => @List.Forall_cons _ P x r (rec x) (go r)
            end) items)
  | val_obj pairs =>
      Hobj pairs
        ((fix go (l : list (string * yyjson_val)) : Forall (fun kv => P kv.2) l :=
            match l with
            | [] => @List.Forall_nil _ _
            | kv :: r => @List.Forall_cons _ (fun kv => P kv.2) kv r (rec kv.2) (go r)
            end) pairs)
  end.

(** Whether no object of a document has two pairs with one key. *)
Fixpoint keys_distinct (v : yyjson_val) : bool :=
  match v with
  | val_arr items => forallb keys_distinct items
  | val_obj pairs =>
      bool_decide (NoDup (map fst pairs))
      && forallb (fun kv => keys_distinct kv.2) pairs
  | _ => true
  end.

Section BuilderTerms.

Variable char_signed : bool.
Variable interned : bool.
Variable opts : yyjson_parse_options.

Section KeyAtoms.

Variable atoms_rec : yyjson_val -> parse_ctx_t -> list rvalue.

(** The lookups of the loop of [build_arr]: those of every item, each from
    the context the items before it leave. *)
Fixpoint atoms_items (items : list yyjson_val) (ctx : parse_ctx_t) : list rvalue :=
  match items with
  | [] => []
  | item :: rest =>
      (atoms_rec item ctx
       ++ atoms_items rest (build_val char_signed interned opts item ctx).2)%list
  end.

(** The lookups of the loop of [build_obj]: for every pair the lookup of
    its key, then those of its value. *)
Fixpoint atoms_pairs (pairs : list (string * yyjson_val)) (ctx : parse_ctx_t)
  : list rvalue :=
  match pairs with
  | [] => []
  | (ks, x) :: rest =>
      let '(k, ctx) := build_key char_signed interned opts ks ctx in
      (k :: atoms_rec x ctx
         ++ atoms_pairs rest (build_val char_signed interned opts x ctx).2)%list
  end.

End KeyAtoms.

(** The values the key lookups of a build of [v] from [ctx] return, one for
    every key of the document, in the order of the lookups: what
    [build_obj] stores at the even places of its buffers. *)
Fixpoint key_atoms (v : yyjson_val) (ctx : parse_ctx_t) {struct v} : list rvalue :=
  match v with
  | val_arr items => atoms_items key_atoms items ctx
  | val_obj pairs => atoms_pairs key_atoms pairs ctx
  | _ => []
  end.

(** What a build of the document [v] does to the trace. *)
Definition extends_trace (v : yyjson_val) : Prop :=
  forall ctx ks atoms r ctx',
    trace_inv char_signed (cache_in_use opts ctx) ks atoms ->
    build_val char_signed interned opts v ctx = (r, ctx') ->
    trace_inv char_signed (cache_in_use opts ctx')
      (ks ++ doc_keys v) (atoms ++ key_atoms v ctx).

(** The keys of the hashes of what a build of [v] returns are the values
    of its lookups, when no object of [v] has a key twice. *)
Definition keeps_keys (v : yyjson_val) : Prop :=
  forall ctx ks atoms r ctx',
    trace_inv char_signed (cache_in_use opts ctx) ks atoms ->
    build_val char_signed interned opts v ctx = (r, ctx') ->
    keys_distinct v = true ->
    value_keys r = key_atoms v ctx.

(** Every key of the hashes of what a build of [v] returns is the value of
    one of its lookups. *)
Definition keys_looked_up (v : yyjson_val) : Prop :=
  forall ctx r ctx',
    build_val char_signed interned opts v ctx = (r, ctx') ->
    Forall (fun a => a ∈ key_atoms v ctx) (value_keys r).

End BuilderTerms.

(** The document a built value spells: a number by its value, a string
    and a key by their bytes, a hash by its entries, in order. *)
Fixpoint reify (v : rvalue) : yyjson_val :=
  match v with
  | R_nil => val_null
  | R_true => val_bool true
  | R_false => val_bool false
  | R_fixnum n | R_bignum n => val_sint n
  | R_float d => val_real d
  | R_string _ _ s | R_symbol s => val_str s
  | R_array _ items => val_arr (map reify items)
  | R_hash _ pairs =>
      val_obj (map (fun kv => (default EmptyString (atom_bytes kv.1), reify kv.2)) pairs)
  end.

(** The pairs of an object with the pair [(k, v)] stored: at the place of
    the pair with the key [k] when there is one, else at the end. *)
Fixpoint obj_store (pairs : list (string * yyjson_val)) (k : string)
  (v : yyjson_val) : list (string * yyjson_val) :=
  match pairs with
  | [] => [(k, v)]
  | (k', v') :: rest =>
      if String.eqb k' k then (k', v) :: rest
      else (k', v') :: obj_store rest k v
  end.

(** The pairs of an object as a hash keeps them: one pair a key, where the
    key stands first, with the value that stands with it last. *)
Definition obj_entries (pairs : list (string * yyjson_val))
  : list (string * yyjson_val) :=
  fold_left (fun h kv => obj_store h kv.1 kv.2) pairs [].

(** A document as the builder reads it: an unsigned integer is an integer,
    a value of a tag the builder does not know is null, and an object
    keeps one pair a key. *)
Fixpoint as_built (v : yyjson_val) : yyjson_val :=
  match v with
  | val_raw => val_null
  | val_uint n => val_sint n
  | val_arr items => val_arr (map as_built items)
  | val_obj pairs => val_obj (obj_entries (map (fun kv => (kv.1, as_built kv.2)) pairs))
  | _ => v
  end.

(** The value that stands last with the key [k] in a list of pairs. *)
Fixpoint last_value (pairs : list (string * yyjson_val)) (k : string)
  : option yyjson_val :=
  match pairs with
  | [] => None
  | (k', v) :: rest =>
      match last_value rest k with
      | Some w => Some w
      | None => if String.eqb k' k then Some v else None
      end
  end.

(** The integers of a document fit the C types the engine stores them in. *)
Fixpoint doc_wf (v : yyjson_val) : bool :=
  match v with
  | val_uint n => (0 <=? n) && (n <? 2 ^ 64)
  | val_sint n => (- 2 ^ 63 <=? n) && (n <? 2 ^ 63)
  | val_arr items => forallb doc_wf items
  | val_obj pairs => forallb (fun kv => doc_wf kv.2) pairs
  | _ => true
  end.

(** A key as the builder makes it: a symbol when names are symbolized, a
    frozen string otherwise. *)
Definition key_ok (sym : bool) (k : rvalue) : bool :=
  match k with
  | R_symbol _ => sym
  | R_string _ frozen _ => negb sym && frozen
  | _ => false
  end.

(** Every array, hash and string value of [v] is frozen or not as [freeze]
    says, and every key is as [key_ok] says. *)
Fixpoint frozen_as (sym freeze : bool) (v : rvalue) : bool :=
  match v with
  | R_string _ frozen _ => Bool.eqb frozen freeze
  | R_symbol _ => false
  | R_array frozen items =>
      Bool.eqb frozen freeze && forallb (frozen_as sym freeze) items
  | R_hash frozen pairs =>
      Bool.eqb frozen freeze
      && forallb (fun kv => key_ok sym kv.1 && frozen_as sym freeze kv.2) pairs
  | _ => true
  end.

(** The context [yyjson_build_ruby_object] starts a container from. *)
Definition fresh_ctx (os : object_space) : parse_ctx_t :=
  {| str_cache := []; sym_cache := []; objects := os |}.


Section ImporterTerms.

Variable char_signed : bool.
Variable interned : bool.
Variable opts : yyjson_parse_options.

(** The values of the cache in use are keys as the call makes them. *)
Definition cache_ok (ctx : parse_ctx_t) : Prop :=
  Forall (fun e => key_ok (p_symbolize_names opts) (val e) = true)
    (cache_in_use opts ctx).

(** What a build of the document [v] returns spells [v]. *)
Definition spells (v : yyjson_val) : Prop :=
  doc_wf v = true ->
  forall ctx ks atoms r ctx',
    trace_inv char_signed (cache_in_use opts ctx) ks atoms ->
    cache_ok ctx ->
    build_val char_signed interned opts v ctx = (r, ctx') ->
    reify r = as_built v.

(** What a build of [v] returns is frozen as the options say. *)
Definition freezes (v : yyjson_val) : Prop :=
  forall ctx r ctx',
    cache_ok ctx ->
    build_val char_signed interned opts v ctx = (r, ctx') ->
    frozen_as (p_symbolize_names opts) (p_freeze opts) r = true /\ cache_ok ctx'.

(** The values the lookups of a build of [v] return are keys as the call
    makes them. *)
Definition atoms_ok (v : yyjson_val) : Prop :=
  forall ctx,
    cache_ok ctx ->
    Forall (fun k => key_ok (p_symbolize_names opts) k = true)
      (key_atoms char_signed interned opts v ctx).

End ImporterTerms.

(** The identities of the strings of a value that are not frozen. *)
Fixpoint mutable_ids (v : rvalue) : list obj_id :=
  match v with
  | R_string id false _ => [id]
  | R_array _ items => flat_map mutable_ids items
  | R_hash _ pairs => flat_map (fun kv => (mutable_ids kv.1 ++ mutable_ids kv.2)%list) pairs
  | _ => []
  end.

(** The identities from [a] up to, and without, [b]. *)
Definition fresh_between (a b : obj_id) (ids : list obj_id) : Prop :=
  NoDup ids /\ forall id, id ∈ ids -> (a <= id < b)%positive.


Section AllocationTerms.

Variable char_signed : bool.
Variable interned : bool.
Variable opts : yyjson_parse_options.

(** What a build of [v] allocates: the strings it leaves unfrozen are
    objects made during the build, each one once. *)
Definition allocates (v : yyjson_val) : Prop :=
  forall ctx r ctx',
    cache_ok opts ctx ->
    build_val char_signed interned opts v ctx = (r, ctx') ->
    (next_id (objects ctx) <= next_id (objects ctx'))%positive
    /\ fresh_between (next_id (objects ctx)) (next_id (objects ctx')) (mutable_ids r).

End AllocationTerms.

(** A frozen string that is the interned string of its bytes. *)
Definition interned_in (os : object_space) (a : rvalue) : Prop :=
  exists id s, a = R_string id true s /\ fstrings os !! s = Some id.


(** With interned strings, the cache of string keys holds interned
    strings. *)
Definition cache_interned (ctx : parse_ctx_t) : Prop :=
  Forall (fun e => interned_in (objects ctx) (val e)) (str_cache ctx).

Section InternedTerms.

Variable char_signed : bool.
Variable opts : yyjson_parse_options.

(** What a build of [v] does to the interned strings. *)
Definition interns (v : yyjson_val) : Prop :=
  forall ctx r ctx',
    cache_interned ctx ->
    build_val char_signed true opts v ctx = (r, ctx') ->
    cache_interned ctx'
    /\ fstrings (objects ctx) ⊆ fstrings (objects ctx')
    /\ Forall (interned_in (objects ctx')) (value_keys r).

(** The values the lookups of a build of [v] return are interned
    strings. *)
Definition atoms_interned (v : yyjson_val) : Prop :=
  forall ctx r ctx',
    cache_interned ctx ->
    build_val char_signed true opts v ctx = (r, ctx') ->
    Forall (interned_in (objects ctx')) (key_atoms char_signed true opts v ctx).

End InternedTerms.

(** * Properties *)

(** ** Option resolution *)

Section ResolverFacts.

Variable NUM2INT : VALUE -> result Z.

(** What parse resolution returns, field by field: the mode bundle under
    every explicit field of the hash. *)
Lemma extract_parse_options_fields (h : rb_hash) (o : yyjson_parse_options) :
  yyjson_extract_parse_options NUM2INT (Some h) = Ok o ->
  let d := parse_mode_defaults (rb_hash_aref h "mode") parse_defaults in
  p_mode o = p_mode d
  /\ p_symbolize_names o = overridden h "symbolize_names" (p_symbolize_names d)
  /\ p_freeze o = overridden h "freeze" (p_freeze d)
  /\ p_allow_nan o = overridden h "allow_nan" (p_allow_nan d)
  /\ p_allow_comments o = overridden h "allow_comments" (p_allow_comments d).
Proof.
  intros H d. unfold yyjson_extract_parse_options in H. fold d in H.
  unfold overridden.
  destruct (NIL_P (rb_hash_aref h "symbolize_names"));
    destruct (NIL_P (rb_hash_aref h "freeze"));
    destruct (NIL_P (rb_hash_aref h "allow_nan"));
    destruct (NIL_P (rb_hash_aref h "allow_comments"));
    destruct (NIL_P (rb_hash_aref h "max_nesting"));
    try destruct (NUM2INT (rb_hash_aref h "max_nesting")) as [n|e];
    simpl in H; try discriminate; injection H as <-; simpl; auto.
Qed.

(** Parse resolution only fails in the conversion of [:max_nesting]. *)
Lemma extract_parse_options_total (h : rb_hash) :
  rb_hash_aref h "max_nesting" = Qnil ->
  exists o, yyjson_extract_parse_options NUM2INT (Some h) = Ok o.
Proof.
  intros H. unfold yyjson_extract_parse_options. rewrite H. simpl. eauto.
Qed.

End ResolverFacts.

Section DumpOptionFacts.

Variable NUM2INT : VALUE -> result Z.

(** Dump resolution only fails in the conversion of [:indent]. *)
Lemma extract_dump_options_total (h : rb_hash) :
  rb_hash_aref h "indent" = Qnil ->
  exists o, yyjson_extract_dump_options NUM2INT (Some h) = Ok o.
Proof.
  intros H. unfold yyjson_extract_dump_options. rewrite H. simpl. eauto.
Qed.

(** Under [:strict] the mode decides [allow_nan] and [escape_slash]. *)
Lemma extract_dump_options_strict (h : rb_hash) (o : yyjson_dump_options) :
  rb_hash_aref h "mode" = Sym "strict" ->
  yyjson_extract_dump_options NUM2INT (Some h) = Ok o ->
  mode o = MODE_STRICT /\ allow_nan o = false /\ escape_slash o = true.
Proof.
  intros Hm. unfold yyjson_extract_dump_options. rewrite Hm.
  destruct (NIL_P (rb_hash_aref h "indent"));
    [|destruct (NUM2INT (rb_hash_aref h "indent"))]; simpl; try discriminate;
    destruct (NIL_P (rb_hash_aref h "escape_html")); intros [= <-]; auto.
Qed.

(** Under [:rails] the output is HTML-escaped unless the hash says otherwise. *)
Lemma extract_dump_options_rails (h : rb_hash) (o : yyjson_dump_options) :
  rb_hash_aref h "mode" = Sym "rails" ->
  yyjson_extract_dump_options NUM2INT (Some h) = Ok o ->
  mode o = MODE_RAILS
  /\ escape_html o = overridden h "escape_html" true.
Proof.
  intros Hm. unfold yyjson_extract_dump_options, overridden. rewrite Hm.
  destruct (NIL_P (rb_hash_aref h "indent"));
    [|destruct (NUM2INT (rb_hash_aref h "indent"))]; simpl; try discriminate;
    destruct (NIL_P (rb_hash_aref h "escape_html")); intros [= <-]; auto.
Qed.

End DumpOptionFacts.

(** C6: parse-option resolution of a hash that sets none of [allow_nan],
    [allow_comments] and [symbolize_names] explicitly yields the bundle of
    its mode: Strict is (false, false, false); Compat, which is also what no
    mode and no hash give, is (true, true, false); Rails is
    (true, true, true); Object and Custom keep the Compat baseline. *)
Theorem parse_mode_default_bundles (NUM2INT : VALUE -> result Z)
  (h : rb_hash) (o : yyjson_parse_options) :
  rb_hash_aref h "allow_nan" = Qnil ->
  rb_hash_aref h "allow_comments" = Qnil ->
  rb_hash_aref h "symbolize_names" = Qnil ->
  yyjson_extract_parse_options NUM2INT (Some h) = Ok o ->
  (rb_hash_aref h "mode" = Sym "strict" ->
     parse_row o = (MODE_STRICT, false, false, false))
  /\ (rb_hash_aref h "mode" = Sym "compat" ->
     parse_row o = (MODE_COMPAT, true, true, false))
  /\ (rb_hash_aref h "mode" = Qnil ->
     parse_row o = (MODE_COMPAT, true, true, false))
  /\ (rb_hash_aref h "mode" = Sym "rails" ->
     parse_row o = (MODE_RAILS, true, true, true))
  /\ (rb_hash_aref h "mode" = Sym "object" ->
     parse_row o = (MODE_OBJECT, true, true, false))
  /\ (rb_hash_aref h "mode" = Sym "custom" ->
     parse_row o = (MODE_CUSTOM, true, true, false))
  /\ (exists o0, yyjson_extract_parse_options NUM2INT None = Ok o0
        /\ parse_row o0 = (MODE_COMPAT, true, true, false)).
Proof.
  intros Hnan Hcom Hsym Hex.
  apply extract_parse_options_fields in Hex.
  destruct Hex as (Hm & Hs & _ & Hn & Hc).
  unfold overridden in *. rewrite Hnan in Hn. rewrite Hcom in Hc. rewrite Hsym in Hs.
  simpl in Hs, Hn, Hc. unfold parse_row. rewrite Hm, Hs, Hn, Hc.
  repeat split; try (intros ->; reflexivity).
  exists parse_defaults. split; reflexivity.
Qed.

Lemma parse_mode_default_bundles_witness :
  parse_row {| p_symbolize_names := true; p_freeze := true; p_allow_nan := true;
               p_allow_comments := true; p_max_nesting := 100;
               p_mode := MODE_RAILS |} = (MODE_RAILS, true, true, true).
Proof.
  apply (parse_mode_default_bundles (fun _ => Ok 0)
           [(Sym "freeze", Qtrue); (Sym "mode", Sym "rails")]);
    reflexivity.
Defined.

(** C10: [yyjson_load] without an options hash, or with an empty one, takes
    the fast path through [default_parse_opts]; on every source it returns
    what the general path returns, that is [yyjson_parse_string] on the
    options [yyjson_extract_parse_options] resolves, and both resolve to
    Compat with symbolize_names = false, freeze = false, allow_nan = true,
    allow_comments = true and max_nesting = 100. *)
Theorem load_fast_path_agrees (char_signed interned : bool)
  (yyjson_read_opts : string -> Z -> yyjson_val + Z * string)
  (ALLOW_COMMENTS ALLOW_INF_AND_NAN : Z) (NUM2INT : VALUE -> result Z)
  (source : VALUE) (os : object_space) :
  let parse := yyjson_parse_string char_signed interned yyjson_read_opts
                 ALLOW_COMMENTS ALLOW_INF_AND_NAN source in
  let load := yyjson_load char_signed interned yyjson_read_opts
                ALLOW_COMMENTS ALLOW_INF_AND_NAN NUM2INT source in
  load None os = (o ← yyjson_extract_parse_options NUM2INT None; parse o os)
  /\ load (Some []) os
     = (o ← yyjson_extract_parse_options NUM2INT (Some []); parse o os)
  /\ yyjson_extract_parse_options NUM2INT None = Ok default_parse_opts
  /\ yyjson_extract_parse_options NUM2INT (Some []) = Ok default_parse_opts
  /\ default_parse_opts
     = {| p_symbolize_names := false; p_freeze := false; p_allow_nan := true;
          p_allow_comments := true; p_max_nesting := 100; p_mode := MODE_COMPAT |}.
Proof.
  repeat split.
Qed.

(** C1: dump-option resolution reads [pretty], [indent], [escape_slash]
    and [allow_nan] before the block that applies the mode, so under
    [:strict] the mode's values replace the explicit ones: whatever the hash
    says, the resolved [allow_nan] is false and [escape_slash] is true, as
    on the hash [{mode: :strict, allow_nan: true}] in either order of its
    keys.  Parse-option resolution applies the mode first and keeps the
    explicit value on the same hashes. *)
Theorem dump_mode_defaults_clobber_explicit (NUM2INT : VALUE -> result Z) :
  let h1 := [(Sym "mode", Sym "strict"); (Sym "allow_nan", Qtrue)] in
  let h2 := [(Sym "allow_nan", Qtrue); (Sym "mode", Sym "strict")] in
  let h3 := [(Sym "mode", Sym "strict"); (Sym "escape_slash", Qfalse)] in
  (allow_nan <$> yyjson_extract_dump_options NUM2INT (Some h1)) = Ok false
  /\ (allow_nan <$> yyjson_extract_dump_options NUM2INT (Some h2)) = Ok false
  /\ (escape_slash <$> yyjson_extract_dump_options NUM2INT (Some h3)) = Ok true
  /\ (p_allow_nan <$> yyjson_extract_parse_options NUM2INT (Some h1)) = Ok true
  /\ (p_allow_nan <$> yyjson_extract_parse_options NUM2INT (Some h2)) = Ok true
  /\ (forall h o,
        rb_hash_aref h "mode" = Sym "strict" ->
        yyjson_extract_dump_options NUM2INT (Some h) = Ok o ->
        allow_nan o = false /\ escape_slash o = true)
  /\ (forall h o,
        yyjson_extract_parse_options NUM2INT (Some h) = Ok o ->
        rb_hash_aref h "allow_nan" <> Qnil ->
        p_allow_nan o = RTEST (rb_hash_aref h "allow_nan")).
Proof.
  repeat apply conj; try reflexivity.
  - intros h o Hm Hex.
    destruct (extract_dump_options_strict NUM2INT h o Hm Hex) as (_ & Hn & Hs).
    split; assumption.
  - intros h o Hex Hset.
    apply extract_parse_options_fields in Hex as (_ & _ & _ & Hn & _).
    rewrite Hn. unfold overridden.
    destruct (rb_hash_aref h "allow_nan"); try reflexivity. contradiction.
Qed.

(** ** The exporter *)

Section DumperFacts.

Variable heap : obj_id -> heap_object.
Variable builtin_to_s : VALUE -> string.
Variable opts : yyjson_dump_options.

Lemma check_enters id ctx :
  is_collection heap (Ref id) = true -> depth ctx <= MAX_NESTING_DEPTH ->
  id ∉ visited ctx ->
  check_circular_reference heap (Ref id) ctx
  = Some (Ok (tt, {| depth := depth ctx; visited := {[id]} ∪ visited ctx |})).
Proof.
  intros Hc Hd Hv. unfold check_circular_reference.
  destruct (Z.ltb_spec MAX_NESTING_DEPTH (depth ctx)); [lia|].
  rewrite Hc. simpl. destruct (decide (id ∈ visited ctx)); [contradiction|reflexivity].
Qed.

Lemma check_rejects_ancestor id ctx :
  is_collection heap (Ref id) = true -> depth ctx <= MAX_NESTING_DEPTH ->
  id ∈ visited ctx ->
  check_circular_reference heap (Ref id) ctx
  = Some (Raise (GenerateError CircularReference)).
Proof.
  intros Hc Hd Hv. unfold check_circular_reference.
  destruct (Z.ltb_spec MAX_NESTING_DEPTH (depth ctx)); [lia|].
  rewrite Hc. simpl. destruct (decide (id ∈ visited ctx)); [reflexivity|contradiction].
Qed.

Lemma check_too_deep obj ctx :
  MAX_NESTING_DEPTH < depth ctx ->
  check_circular_reference heap obj ctx
  = Some (Raise (GenerateError (NestingTooDeep (depth ctx)))).
Proof.
  intros Hd. unfold check_circular_reference.
  destruct (Z.ltb_spec MAX_NESTING_DEPTH (depth ctx)); [reflexivity|lia].
Qed.

(** Entering a container, running [body] and leaving give back the
    context when [body] does: the identity the check added is the one
    [unmark_visited] deletes, and the depth goes up and down by one. *)
Lemma bracket_restores {A B} (obj : VALUE) (body : dumper A) (f : A -> B)
  ctx v ctx' :
  (forall c a c', body c = Some (Ok (a, c')) -> c' = c) ->
  (do _ <- check_circular_reference heap obj;
   do _ <- depth_add 1;
   do a <- body;
   do _ <- depth_add (-1);
   do _ <- unmark_visited heap obj;
   dret (f a)) ctx = Some (Ok (v, ctx')) ->
  ctx' = ctx.
Proof.
  intros Hbody.
  unfold dbind, dret, depth_add, check_circular_reference,
    unmark_visited.
  destruct (MAX_NESTING_DEPTH <? depth ctx); [discriminate|].
  destruct ctx as [d vis]; simpl.
  destruct obj as [| | | | | | | |id];
    try (destruct (body _) as [[[a c']|]|] eqn:Hb; try discriminate;
         apply Hbody in Hb; subst c'; simpl; intros [= Hv <-];
         f_equal; lia).
  destruct (is_collection heap (Ref id)); simpl.
  - destruct (decide (id ∈ vis)); [discriminate|].
    destruct (body _) as [[[a c']|]|] eqn:Hb; try discriminate.
    apply Hbody in Hb; subst c'; simpl. intros [= Hv <-].
    f_equal; [lia|set_solver].
  - destruct (body _) as [[[a c']|]|] eqn:Hb; try discriminate.
    apply Hbody in Hb; subst c'; simpl. intros [= Hv <-]. f_equal; lia.
Qed.

Section RecursionFacts.

Variable dump_rec : VALUE -> dumper yyjson_mut_val.
Hypothesis dump_rec_restores :
  forall x ctx v ctx', dump_rec x ctx = Some (Ok (v, ctx')) -> ctx' = ctx.

Lemma dump_items_restores items ctx vs ctx' :
  dump_items dump_rec items ctx = Some (Ok (vs, ctx')) -> ctx' = ctx.
Proof.
  revert ctx vs ctx'. induction items as [|x items IH]; intros ctx vs ctx'; simpl.
  - unfold dret. congruence.
  - unfold dbind, dret.
    destruct (dump_rec x ctx) as [[[v c1]|]|] eqn:Hx; try discriminate.
    destruct (dump_items dump_rec items c1) as [[[vs' c2]|]|] eqn:Hr; try discriminate.
    apply dump_rec_restores in Hx. apply IH in Hr. congruence.
Qed.

Lemma dump_pairs_restores pairs ctx kvs ctx' :
  dump_pairs heap builtin_to_s dump_rec pairs ctx = Some (Ok (kvs, ctx')) -> ctx' = ctx.
Proof.
  revert ctx kvs ctx'. induction pairs as [|[k x] pairs IH]; intros ctx kvs ctx'; simpl.
  - unfold dret. congruence.
  - unfold dump_hash_iter, dbind, dret.
    destruct (dump_rec x ctx) as [[[v c1]|]|] eqn:Hx; try discriminate.
    destruct (dump_pairs heap builtin_to_s dump_rec pairs c1) as [[[vs' c2]|]|] eqn:Hr; try discriminate.
    apply dump_rec_restores in Hx. apply IH in Hr. congruence.
Qed.

Lemma dump_array_restores ary ctx v ctx' :
  dump_array heap dump_rec ary ctx = Some (Ok (v, ctx')) -> ctx' = ctx.
Proof.
  apply (bracket_restores ary (dump_items dump_rec _) mut_arr).
  intros c a c'. apply dump_items_restores.
Qed.

Lemma dump_hash_restores hash ctx v ctx' :
  dump_hash heap builtin_to_s dump_rec hash ctx = Some (Ok (v, ctx')) -> ctx' = ctx.
Proof.
  apply (bracket_restores hash (dump_pairs heap builtin_to_s dump_rec _) mut_obj).
  intros c a c'. apply dump_pairs_restores.
Qed.

End RecursionFacts.

(** A dump that returns leaves the context as it found it. *)
Lemma dump_ruby_object_restores fuel obj ctx v ctx' :
  dump_ruby_object heap builtin_to_s opts fuel obj ctx = Some (Ok (v, ctx')) -> ctx' = ctx.
Proof.
  revert obj ctx v ctx'. induction fuel as [|fuel IH]; intros obj ctx v ctx'; simpl.
  - discriminate.
  - destruct (TYPE heap obj) eqn:Ht;
      try (unfold dret; congruence);
      try (destruct obj; try discriminate; unfold dump_integer, dump_float,
           dump_string, dump_symbol, dret, rb_raise;
           repeat match goal with |- context [if ?b then _ else _] => destruct b end;
           congruence).
    + apply dump_array_restores, IH.
    + apply dump_hash_restores, IH.
    + destruct (is_time_like heap obj).
      { unfold dump_time, dump_string, dret. congruence. }
      destruct (negb _); [apply IH|].
      unfold dump_string, dret. congruence.
Qed.

Section LoopFacts.

Variable dump_rec : VALUE -> dumper yyjson_mut_val.

Lemma dump_items_ok items ctx :
  Forall (exports_ok dump_rec ctx) items ->
  exists vs, dump_items dump_rec items ctx = Some (Ok (vs, ctx)).
Proof.
  induction 1 as [|x items [v Hx] _ [vs IH]]; simpl.
  - eexists; reflexivity.
  - unfold dbind. rewrite Hx, IH. eexists; reflexivity.
Qed.

Lemma dump_items_raise pre x post ctx e :
  Forall (exports_ok dump_rec ctx) pre ->
  dump_rec x ctx = Some (Raise e) ->
  dump_items dump_rec (pre ++ x :: post) ctx = Some (Raise e).
Proof.
  induction 1 as [|y pre [v Hy] _ IH]; intros Hx; simpl.
  - unfold dbind. rewrite Hx. reflexivity.
  - unfold dbind. rewrite Hy. fold (dump_items dump_rec).
    specialize (IH Hx). unfold dbind in IH |- *. rewrite IH. reflexivity.
Qed.

Lemma dump_pairs_ok pairs ctx :
  Forall (exports_ok dump_rec ctx) (map snd pairs) ->
  exists kvs, dump_pairs heap builtin_to_s dump_rec pairs ctx = Some (Ok (kvs, ctx)).
Proof.
  induction pairs as [|[k x] pairs IH]; simpl; intros H.
  - eexists; reflexivity.
  - inversion H as [|? ? [v Hx] Hrest]; subst.
    destruct (IH Hrest) as [kvs Hk].
    unfold dump_hash_iter, dbind, dret. rewrite Hx.
    unfold dbind, dret in Hk. rewrite Hk. eexists; reflexivity.
Qed.

Lemma dump_pairs_raise pairs pre x post ctx e :
  map snd pairs = (pre ++ x :: post)%list ->
  Forall (exports_ok dump_rec ctx) pre ->
  dump_rec x ctx = Some (Raise e) ->
  dump_pairs heap builtin_to_s dump_rec pairs ctx = Some (Raise e).
Proof.
  revert pre. induction pairs as [|[k y] pairs IH]; intros pre Hm Hpre Hx.
  - destruct pre; discriminate.
  - destruct pre as [|p pre]; simpl in Hm; injection Hm as -> Hm; simpl.
    + unfold dump_hash_iter, dbind. rewrite Hx. reflexivity.
    + inversion Hpre as [|? ? [v Hp] Hrest]; subst.
      unfold dump_hash_iter, dbind, dret. rewrite Hp.
      specialize (IH pre Hm Hrest Hx). rewrite IH. reflexivity.
Qed.

End LoopFacts.

Lemma is_collection_cases id :
  is_collection heap (Ref id) = true ->
  (exists items, heap id = RArray items) \/ (exists pairs, heap id = RHash pairs).
Proof.
  unfold is_collection, TYPE.
  destruct (heap id); intros; try discriminate; eauto.
Qed.

(** A container none of whose entries fails is exported. *)
Lemma dump_container_ok fuel id ctx :
  is_collection heap (Ref id) = true -> depth ctx <= MAX_NESTING_DEPTH ->
  id ∉ visited ctx ->
  Forall (exports_ok (dump_ruby_object heap builtin_to_s opts fuel) (entered id ctx)) (elements heap (Ref id)) ->
  exists v,
    dump_ruby_object heap builtin_to_s opts (S fuel) (Ref id) ctx = Some (Ok (v, ctx))
    /\ ((exists vs, v = mut_arr vs) \/ (exists kvs, v = mut_obj kvs)).
Proof.
  intros Hc Hd Hv Hall.
  assert (Hback : {| depth := depth ctx + 1 + -1;
                     visited := ({[id]} ∪ visited ctx) ∖ {[id]} |} = ctx).
  { destruct ctx as [d vis]; simpl in *. f_equal; [lia|set_solver]. }
  destruct (is_collection_cases id Hc) as [[items Hh]|[pairs Hh]];
    unfold elements, RARRAY_items, RHASH_pairs in Hall; rewrite Hh in Hall;
    simpl in Hall; rewrite ?app_nil_r in Hall;
    simpl; unfold TYPE; rewrite Hh.
  - apply dump_items_ok in Hall as [vs Hvs].
    unfold dump_array, dbind. rewrite (check_enters id ctx Hc Hd Hv).
    unfold depth_add at 1. simpl. unfold RARRAY_items. rewrite Hh.
    unfold entered in Hvs. simpl in Hvs. rewrite Hvs.
    unfold depth_add, unmark_visited. simpl. rewrite Hc. simpl.
    rewrite Hback. unfold dret. eauto.
  - apply dump_pairs_ok in Hall as [kvs Hk].
    unfold dump_hash, dbind. rewrite (check_enters id ctx Hc Hd Hv).
    unfold depth_add at 1. simpl. unfold RHASH_pairs. rewrite Hh.
    unfold entered in Hk. simpl in Hk. rewrite Hk.
    unfold depth_add, unmark_visited. simpl. rewrite Hc. simpl.
    rewrite Hback. unfold dret. eauto.
Qed.

(** The error of the first entry that fails is the error of the container. *)
Lemma dump_container_raise fuel id ctx pre x post e :
  is_collection heap (Ref id) = true -> depth ctx <= MAX_NESTING_DEPTH ->
  id ∉ visited ctx ->
  elements heap (Ref id) = (pre ++ x :: post)%list ->
  Forall (exports_ok (dump_ruby_object heap builtin_to_s opts fuel) (entered id ctx)) pre ->
  dump_ruby_object heap builtin_to_s opts fuel x (entered id ctx) = Some (Raise e) ->
  dump_ruby_object heap builtin_to_s opts (S fuel) (Ref id) ctx = Some (Raise e).
Proof.
  intros Hc Hd Hv Hel Hpre Hx.
  destruct (is_collection_cases id Hc) as [[items Hh]|[pairs Hh]];
    unfold elements, RARRAY_items, RHASH_pairs in Hel; rewrite Hh in Hel;
    simpl in Hel; rewrite ?app_nil_r in Hel;
    simpl; unfold TYPE; rewrite Hh.
  - unfold dump_array, dbind. rewrite (check_enters id ctx Hc Hd Hv).
    unfold depth_add at 1. simpl. unfold RARRAY_items. rewrite Hh, Hel.
    unfold entered in Hpre, Hx. simpl in Hpre, Hx.
    rewrite (dump_items_raise _ pre x post _ e Hpre Hx). reflexivity.
  - unfold dump_hash, dbind. rewrite (check_enters id ctx Hc Hd Hv).
    unfold depth_add at 1. simpl. unfold RHASH_pairs. rewrite Hh.
    unfold entered in Hpre, Hx. simpl in Hpre, Hx.
    rewrite (dump_pairs_raise _ pairs pre x post _ e Hel Hpre Hx). reflexivity.
Qed.

(** A reference to a container on the active path is refused. *)
Lemma dump_ancestor_raises fuel id ctx :
  is_collection heap (Ref id) = true -> depth ctx <= MAX_NESTING_DEPTH ->
  id ∈ visited ctx ->
  dump_ruby_object heap builtin_to_s opts (S fuel) (Ref id) ctx
  = Some (Raise (GenerateError CircularReference)).
Proof.
  intros Hc Hd Hv.
  destruct (is_collection_cases id Hc) as [[items Hh]|[pairs Hh]];
    simpl; unfold TYPE; rewrite Hh.
  - unfold dump_array, dbind.
    rewrite (check_rejects_ancestor id ctx Hc Hd Hv). reflexivity.
  - unfold dump_hash, dbind.
    rewrite (check_rejects_ancestor id ctx Hc Hd Hv). reflexivity.
Qed.

End DumperFacts.

Lemma check_nesting_error_iff heap obj ctx :
  check_circular_reference heap obj ctx
  = Some (Raise (GenerateError (NestingTooDeep (depth ctx))))
  <-> MAX_NESTING_DEPTH < depth ctx.
Proof.
  unfold check_circular_reference.
  destruct (Z.ltb_spec MAX_NESTING_DEPTH (depth ctx)); [tauto|].
  split; [|lia]. destruct obj; try discriminate.
  destruct (negb _); [discriminate|]. destruct (decide _); discriminate.
Qed.

Section NestingFacts.

Variable builtin_to_s : VALUE -> string.
Variable opts : yyjson_dump_options.

(** A container met at a depth above the maximum is refused, whatever it
    holds. *)
Lemma dump_container_too_deep heap fuel id ctx :
  is_collection heap (Ref id) = true -> MAX_NESTING_DEPTH < depth ctx ->
  dump_ruby_object heap builtin_to_s opts (S fuel) (Ref id) ctx
  = Some (Raise (GenerateError (NestingTooDeep (depth ctx)))).
Proof.
  intros Hc Hd.
  destruct (is_collection_cases heap id Hc) as [[items Hh]|[pairs Hh]];
    simpl; unfold TYPE; rewrite Hh.
  - unfold dump_array, dbind. rewrite check_too_deep by exact Hd. reflexivity.
  - unfold dump_hash, dbind. rewrite check_too_deep by exact Hd. reflexivity.
Qed.

(** The dump of an array that passes the check, by the dump of its items. *)
Lemma dump_array_unfold heap fuel id items ctx :
  heap id = RArray items -> depth ctx <= MAX_NESTING_DEPTH -> id ∉ visited ctx ->
  dump_ruby_object heap builtin_to_s opts (S fuel) (Ref id) ctx
  = match dump_items (dump_ruby_object heap builtin_to_s opts fuel) items
            (entered id ctx) with
    | Some (Ok (vs, ctx')) =>
        Some (Ok (mut_arr vs, {| depth := depth ctx' + -1;
                                 visited := visited ctx' ∖ {[id]} |}))
    | Some (Raise e) => Some (Raise e)
    | None => None
    end.
Proof.
  intros Hh Hd Hv.
  assert (Hc : is_collection heap (Ref id) = true).
  { unfold is_collection, TYPE. rewrite Hh. reflexivity. }
  cbn [dump_ruby_object]. unfold TYPE. rewrite Hh.
  unfold dump_array, dbind. rewrite check_enters by assumption.
  unfold depth_add at 1. cbn [depth visited]. unfold RARRAY_items. rewrite Hh.
  fold (entered id ctx).
  destruct (dump_items _ items (entered id ctx)) as [[[vs c1]|e]|]; try reflexivity.
  unfold depth_add, unmark_visited. rewrite Hc. reflexivity.
Qed.

Lemma dump_nested_arrays (N m : nat) :
  forall id ctx,
    (Pos.to_nat id + m = N)%nat ->
    (forall j, (Pos.to_nat id <= Pos.to_nat j)%nat -> j ∉ visited ctx) ->
    depth ctx <= MAX_NESTING_DEPTH + 1 ->
    dump_ruby_object (nested_arrays N) builtin_to_s opts (S m) (Ref id) ctx
    = if depth ctx + Z.of_nat m <=? MAX_NESTING_DEPTH
      then Some (Ok (nest m, ctx))
      else Some (Raise (GenerateError (NestingTooDeep (MAX_NESTING_DEPTH + 1)))).
Proof.
  induction m as [|m IH]; intros id ctx Hid Hvis Hd.
  - assert (Hh : nested_arrays N id = RArray []).
    { unfold nested_arrays. destruct (Nat.ltb_spec (Pos.to_nat id) N); [lia|reflexivity]. }
    rewrite Z.add_0_r.
    destruct (Z.leb_spec (depth ctx) MAX_NESTING_DEPTH) as [Hle|Hgt].
    + assert (Hin : id ∉ visited ctx) by (apply Hvis; lia).
      rewrite (dump_array_unfold _ 0 id [] ctx Hh Hle Hin). cbn.
      do 3 f_equal. destruct ctx as [d vis]; simpl in *. f_equal; [lia|set_solver].
    + rewrite dump_container_too_deep; [|unfold is_collection, TYPE; rewrite Hh; reflexivity|exact Hgt].
      replace (depth ctx) with (MAX_NESTING_DEPTH + 1) by lia. reflexivity.
  - assert (Hh : nested_arrays N id = RArray [Ref (Pos.succ id)]).
    { unfold nested_arrays. destruct (Nat.ltb_spec (Pos.to_nat id) N); [reflexivity|lia]. }
    destruct (Z.leb_spec (depth ctx) MAX_NESTING_DEPTH) as [Hle|Hgt].
    + assert (Hin : id ∉ visited ctx) by (apply Hvis; lia).
      rewrite (dump_array_unfold _ (S m) id _ ctx Hh Hle Hin).
      cbn [dump_items]. unfold dbind.
      rewrite (IH (Pos.succ id) (entered id ctx)).
      * cbn [entered depth].
        replace (depth ctx + 1 + Z.of_nat m) with (depth ctx + Z.of_nat (S m)) by lia.
        destruct (Z.leb_spec (depth ctx + Z.of_nat (S m)) MAX_NESTING_DEPTH);
          [|reflexivity].
        cbn. do 3 f_equal. destruct ctx as [d vis]; simpl in *.
        f_equal; [lia|set_solver].
      * rewrite Pos2Nat.inj_succ. lia.
      * intros j Hj. rewrite Pos2Nat.inj_succ in Hj. simpl. intros Hjv.
        apply elem_of_union in Hjv as [Hjv|Hjv].
        { apply elem_of_singleton in Hjv. subst j. lia. }
        { revert Hjv. apply Hvis. lia. }
      * simpl. lia.
    + rewrite dump_container_too_deep; [|unfold is_collection, TYPE; rewrite Hh; reflexivity|exact Hgt].
      replace (depth ctx) with (MAX_NESTING_DEPTH + 1) by lia.
      destruct (Z.leb_spec (MAX_NESTING_DEPTH + 1 + Z.of_nat (S m)) MAX_NESTING_DEPTH);
        [lia|reflexivity].
Qed.

End NestingFacts.

(** C2: the depth check of [check_circular_reference] reads the depth
    before the container is entered: a container is refused exactly when
    more than MAX_NESTING_DEPTH = 100 containers enclose it.  So [S n]
    nested arrays are exported for [n <= 100], that is up to 101 levels,
    and the nesting error is first raised for 102 levels, as "nesting of
    101 is too deep"; the same holds for hashes. *)
Theorem nesting_limit_is_off_by_one (builtin_to_s : VALUE -> string)
  (opts : yyjson_dump_options) :
  let export heap n :=
    yyjson_dump_ruby_object heap builtin_to_s opts n (Ref 1%positive) in
  (forall n,
      export (nested_arrays (S n)) (S n)
      = if (n <=? 100)%nat then Some (Ok (nest n))
        else Some (Raise (GenerateError (NestingTooDeep 101))))
  /\ export_outcome (export (nested_arrays 100) 100%nat) = Some None
  /\ export_outcome (export (nested_arrays 101) 101%nat) = Some None
  /\ export_outcome (export (nested_arrays 102) 102%nat)
     = Some (Some (GenerateError (NestingTooDeep 101)))
  /\ export_outcome (export (nested_hashes 100) 100%nat) = Some None
  /\ export_outcome (export (nested_hashes 101) 101%nat) = Some None
  /\ export_outcome (export (nested_hashes 102) 102%nat)
     = Some (Some (GenerateError (NestingTooDeep 101)))
  /\ (forall heap obj ctx,
        check_circular_reference heap obj ctx
        = Some (Raise (GenerateError (NestingTooDeep (depth ctx))))
        <-> MAX_NESTING_DEPTH < depth ctx)
  /\ (forall heap fuel id ctx,
        is_collection heap (Ref id) = true -> MAX_NESTING_DEPTH < depth ctx ->
        dump_ruby_object heap builtin_to_s opts (S fuel) (Ref id) ctx
        = Some (Raise (GenerateError (NestingTooDeep (depth ctx))))).
Proof.
  intros export.
  assert (Harr : forall n,
      export (nested_arrays (S n)) (S n)
      = if (n <=? 100)%nat then Some (Ok (nest n))
        else Some (Raise (GenerateError (NestingTooDeep 101)))).
  { intros n. unfold export, yyjson_dump_ruby_object.
    rewrite (dump_nested_arrays builtin_to_s opts (S n) n 1%positive initial_context).
    - simpl depth. unfold MAX_NESTING_DEPTH.
      destruct (Z.leb_spec (0 + Z.of_nat n) 100), (Nat.leb_spec n 100);
        try lia; reflexivity.
    - rewrite Pos2Nat.inj_1. lia.
    - intros j _. simpl. set_solver.
    - simpl. unfold MAX_NESTING_DEPTH. lia. }
  split; [exact Harr|].
  split; [rewrite (Harr 99%nat); reflexivity|].
  split; [rewrite (Harr 100%nat); reflexivity|].
  split; [rewrite (Harr 101%nat); reflexivity|].
  split; [unfold export; destruct opts; vm_compute; reflexivity|].
  split; [unfold export; destruct opts; vm_compute; reflexivity|].
  split; [unfold export; destruct opts; vm_compute; reflexivity|].
  split; [apply check_nesting_error_iff|].
  intros heap fuel id ctx. apply dump_container_too_deep.
Qed.

(** C3: a container that holds a reference to itself, directly or through
    one intermediate container, is refused with the circular-reference
    error as soon as the entries before that reference are exported; a
    container whose entries are exported is exported, so two sibling
    references to one container that is exported are both exported; the
    check adds the identity of a container to the active-path set, leaving
    removes it, and a dump that returns leaves the context as it was. *)
Theorem cycles_rejected_siblings_accepted (heap : obj_id -> heap_object)
  (builtin_to_s : VALUE -> string) (opts : yyjson_dump_options) :
  let dump := dump_ruby_object heap builtin_to_s opts in
  let export := yyjson_dump_ruby_object heap builtin_to_s opts in
  let inside r := entered r initial_context in
  (forall fuel r pre post,
      is_collection heap (Ref r) = true ->
      elements heap (Ref r) = (pre ++ Ref r :: post)%list ->
      Forall (exports_ok (dump (S fuel)) (inside r)) pre ->
      export (S (S fuel)) (Ref r) = Some (Raise (GenerateError CircularReference)))
  /\ (forall fuel r c pre post pre' post',
      is_collection heap (Ref r) = true ->
      is_collection heap (Ref c) = true ->
      c <> r ->
      elements heap (Ref r) = (pre ++ Ref c :: post)%list ->
      elements heap (Ref c) = (pre' ++ Ref r :: post')%list ->
      Forall (exports_ok (dump (S (S fuel))) (inside r)) pre ->
      Forall (exports_ok (dump (S fuel)) (entered c (inside r))) pre' ->
      export (S (S (S fuel))) (Ref r)
      = Some (Raise (GenerateError CircularReference)))
  /\ (forall fuel r c,
      is_collection heap (Ref r) = true ->
      elements heap (Ref r) = [Ref c; Ref c] ->
      exports_ok (dump fuel) (inside r) (Ref c) ->
      exists v, export (S fuel) (Ref r) = Some (Ok v))
  /\ (forall fuel id ctx,
      is_collection heap (Ref id) = true -> depth ctx <= MAX_NESTING_DEPTH ->
      id ∈ visited ctx ->
      dump (S fuel) (Ref id) ctx = Some (Raise (GenerateError CircularReference)))
  /\ (forall id ctx,
      is_collection heap (Ref id) = true -> depth ctx <= MAX_NESTING_DEPTH ->
      id ∉ visited ctx ->
      check_circular_reference heap (Ref id) ctx
      = Some (Ok (tt, {| depth := depth ctx; visited := {[id]} ∪ visited ctx |})))
  /\ (forall id ctx,
      is_collection heap (Ref id) = true ->
      unmark_visited heap (Ref id) ctx
      = Some (Ok (tt, {| depth := depth ctx; visited := visited ctx ∖ {[id]} |})))
  /\ (forall fuel obj ctx v ctx',
      dump fuel obj ctx = Some (Ok (v, ctx')) -> ctx' = ctx).
Proof.
  intros dump export inside.
  assert (Hinit : forall r : obj_id, r ∉ visited initial_context)
    by (intros r; simpl; set_solver).
  assert (Hin : forall r : obj_id, r ∈ visited (inside r))
    by (intros r; simpl; set_solver).
  repeat split.
  - intros fuel r pre post Hc Hel Hpre.
    unfold export, yyjson_dump_ruby_object.
    rewrite (dump_container_raise heap builtin_to_s opts (S fuel) r
               initial_context pre (Ref r) post
               (GenerateError CircularReference)); auto.
    + simpl. unfold MAX_NESTING_DEPTH. lia.
    + apply dump_ancestor_raises; auto. simpl. unfold MAX_NESTING_DEPTH. lia.
  - intros fuel r c pre post pre' post' Hr Hc Hne Hel Hel' Hpre Hpre'.
    unfold export, yyjson_dump_ruby_object.
    rewrite (dump_container_raise heap builtin_to_s opts (S (S fuel)) r
               initial_context pre (Ref c) post
               (GenerateError CircularReference)); auto.
    + simpl. unfold MAX_NESTING_DEPTH. lia.
    + apply (dump_container_raise heap builtin_to_s opts (S fuel) c
               (inside r) pre' (Ref r) post'); auto.
      * simpl. unfold MAX_NESTING_DEPTH. lia.
      * simpl. set_solver.
      * apply dump_ancestor_raises; auto.
        { simpl. unfold MAX_NESTING_DEPTH. lia. }
        { simpl. set_solver. }
  - intros fuel r c Hr Hel Hok.
    destruct (dump_container_ok heap builtin_to_s opts fuel r initial_context)
      as (v & Hv & _); auto.
    + simpl. unfold MAX_NESTING_DEPTH. lia.
    + rewrite Hel. repeat constructor; exact Hok.
    + exists v. unfold export, yyjson_dump_ruby_object. rewrite Hv. reflexivity.
  - intros. apply dump_ancestor_raises; auto.
  - intros. apply check_enters; auto.
  - intros id ctx Hc. unfold unmark_visited. rewrite Hc. reflexivity.
  - intros fuel obj ctx v ctx'. apply dump_ruby_object_restores.
Qed.

Example cycle_examples :
  let export heap :=
    yyjson_dump_ruby_object heap (fun _ => EmptyString) dump_defaults
      5 (Ref 1%positive) in
  export self_array = Some (Raise (GenerateError CircularReference))
  /\ export self_hash_via_array = Some (Raise (GenerateError CircularReference))
  /\ export shared_siblings
     = Some (Ok (mut_arr [mut_arr [mut_sint 1; mut_sint 2];
                          mut_arr [mut_sint 1; mut_sint 2]])).
Proof.
  repeat split; vm_compute; reflexivity.
Qed.

Lemma cycles_rejected_siblings_accepted_witness :
  yyjson_dump_ruby_object self_array (fun _ => EmptyString) dump_defaults
    3 (Ref 1%positive) = Some (Raise (GenerateError CircularReference))
  /\ exists v,
      yyjson_dump_ruby_object shared_siblings (fun _ => EmptyString)
        dump_defaults 3 (Ref 1%positive) = Some (Ok v).
Proof.
  split.
  - apply (proj1 (cycles_rejected_siblings_accepted self_array
                    (fun _ => EmptyString) dump_defaults)
             1%nat 1%positive [Fixnum 1] []).
    + reflexivity.
    + reflexivity.
    + repeat constructor. eexists. reflexivity.
  - apply (proj1 (proj2 (proj2 (cycles_rejected_siblings_accepted shared_siblings
                    (fun _ => EmptyString) dump_defaults)))
             2%nat 1%positive 2%positive).
    + reflexivity.
    + reflexivity.
    + eexists. vm_compute. reflexivity.
Defined.

(** ** Floats, custom objects *)

Lemma dump_float_raises_iff (opts : yyjson_dump_options) (d : spec_float)
  (ctx : dump_context) :
  (exists e, dump_float opts d ctx = Some (Raise (GenerateError e)))
  <-> (isinf d || isnan d) && negb (allow_nan opts) = true.
Proof.
  unfold dump_float.
  destruct ((isinf d || isnan d) && negb (allow_nan opts)); simpl.
  - split; [reflexivity|]. intros _. eexists. reflexivity.
  - split; [|discriminate]. intros [e He]. discriminate.
Qed.

(** ** HTML escaping *)

Lemma append_cons (c : ascii) (a b : string) :
  String c a ++ b = String c (a ++ b).
Proof. reflexivity. Qed.

Lemma append_empty_r (s : string) : s ++ EmptyString = s.
Proof.
  induction s as [|c s IH]; [reflexivity|]. rewrite append_cons, IH. reflexivity.
Qed.

Lemma concat_empty_cons (s : string) (l : list string) :
  String.concat EmptyString (s :: l) = s ++ String.concat EmptyString l.
Proof.
  destruct l as [|t l]; simpl.
  - symmetry. apply append_empty_r.
  - reflexivity.
Qed.

Lemma copy_and_escape_spec (json : string) :
  copy_and_escape json = html_escaped json.
Proof.
  unfold html_escaped. induction json as [|c rest IH].
  - reflexivity.
  - cbn [list_ascii_of_string map]. rewrite concat_empty_cons, <- IH.
    cbn [copy_and_escape]. unfold escape_sequence.
    repeat match goal with |- context [Ascii.eqb ?a ?b] => destruct (Ascii.eqb a b) end;
      reflexivity.
Qed.

Lemma strlen_append (a b : string) : strlen (a ++ b) = strlen a + strlen b.
Proof.
  unfold strlen. induction a as [|c a IH].
  - change (EmptyString ++ b) with b. simpl. lia.
  - rewrite append_cons. cbn [String.length]. lia.
Qed.

Lemma count_escapes_nonneg (json : string) : 0 <= count_escapes json.
Proof.
  induction json as [|c rest IH]; simpl; [lia|].
  destruct (needs_escape c); lia.
Qed.

(** The second pass fills the buffer the first pass sized, exactly. *)
Lemma copy_and_escape_length (json : string) :
  strlen (copy_and_escape json) = strlen json + count_escapes json * 5.
Proof.
  induction json as [|c rest IH]; [reflexivity|].
  cbn [copy_and_escape count_escapes]. unfold needs_escape.
  destruct (Ascii.eqb c "<"); [|destruct (Ascii.eqb c ">");
    [|destruct (Ascii.eqb c "&"); [|destruct (Ascii.eqb c "'")]]];
    cbn [orb]; rewrite ?strlen_append; unfold strlen in *;
    cbn [String.length] in *; lia.
Qed.

Lemma copy_and_escape_nothing (json : string) :
  count_escapes json = 0 -> copy_and_escape json = json.
Proof.
  induction json as [|c rest IH]; [reflexivity|].
  cbn [copy_and_escape count_escapes]. unfold needs_escape.
  pose proof (count_escapes_nonneg rest).
  destruct (Ascii.eqb c "<"); [cbn [orb]; lia|].
  destruct (Ascii.eqb c ">"); [cbn [orb]; lia|].
  destruct (Ascii.eqb c "&"); [cbn [orb]; lia|].
  destruct (Ascii.eqb c "'"); [cbn [orb]; lia|].
  cbn [orb]. intros H0. f_equal. apply IH. lia.
Qed.

Lemma escape_html_entities_spec (json : string) :
  escape_html_entities json
  = Some (html_escaped json, strlen json + count_escapes json * 5).
Proof.
  unfold escape_html_entities. rewrite <- copy_and_escape_spec.
  destruct (Z.eqb_spec (count_escapes json) 0) as [H0|H0].
  - rewrite copy_and_escape_nothing, H0 by exact H0. do 2 f_equal. lia.
  - rewrite copy_and_escape_length.
    destruct (Z.leb_spec (strlen json + count_escapes json * 5)
                (strlen json + count_escapes json * 5)); [reflexivity|lia].
Qed.

Lemma rb_str_new_all (s : string) : rb_str_new s (strlen s) = s.
Proof.
  unfold rb_str_new, strlen. rewrite Nat2Z.id.
  induction s as [|c s IH]; [reflexivity|]. simpl. f_equal. exact IH.
Qed.

Lemma html_escaped_all_escaped (json : string) :
  all_escaped (html_escaped json) = true.
Proof.
  rewrite <- copy_and_escape_spec.
  induction json as [|c rest IH]; [reflexivity|].
  cbn [copy_and_escape].
  destruct (Ascii.eqb c "<") eqn:E1; [exact IH|].
  destruct (Ascii.eqb c ">") eqn:E2; [exact IH|].
  destruct (Ascii.eqb c "&") eqn:E3; [exact IH|].
  destruct (Ascii.eqb c "'") eqn:E4; [exact IH|].
  cbn [all_escaped]. unfold needs_escape. rewrite E1, E2, E3, E4. exact IH.
Qed.

(** A dump with [escape_html] set returns the rewriting of what the
    engine serialized. *)
Lemma write_string_escapes_html (heap : obj_id -> heap_object)
  (builtin_to_s : VALUE -> string)
  (write : yyjson_mut_val -> Z -> option string)
  (PRETTY TWO_SPACES SLASHES INF_NAN : Z) fuel obj opts root json :
  escape_html opts = true ->
  yyjson_dump_ruby_object heap builtin_to_s opts fuel obj = Some (Ok root) ->
  write root (write_flags PRETTY TWO_SPACES SLASHES INF_NAN opts) = Some json ->
  yyjson_ruby_write_string heap builtin_to_s write PRETTY TWO_SPACES
    SLASHES INF_NAN fuel obj opts = Some (Ok (html_escaped json)).
Proof.
  intros He Hd Hw.
  unfold yyjson_ruby_write_string. rewrite Hd, Hw, He, escape_html_entities_spec.
  rewrite <- copy_and_escape_spec, <- copy_and_escape_length.
  rewrite rb_str_new_all. reflexivity.
Qed.

(** C5: [escape_html_entities] returns the text in which each of the bytes
    [<], [>], [&] and ['] is replaced by its six-byte escape and every
    other byte is kept, in order, with the length the first pass computed;
    none of the four bytes is left; a dump with [escape_html] set returns
    that rewriting of what the engine serialized; so when the engine
    writes the string [<a>&'] between quotes, the dump of that string is
    [\u003ca\u003e\u0026\u0027] between the same quotes. *)
Theorem html_escaping_rewrites_output (heap : obj_id -> heap_object)
  (builtin_to_s : VALUE -> string)
  (write : yyjson_mut_val -> Z -> option string)
  (PRETTY TWO_SPACES SLASHES INF_NAN : Z) :
  let write_string :=
    yyjson_ruby_write_string heap builtin_to_s write PRETTY TWO_SPACES
      SLASHES INF_NAN in
  let flags := write_flags PRETTY TWO_SPACES SLASHES INF_NAN in
  let quote := String (ascii_of_nat 34) EmptyString in
  (forall json,
      escape_html_entities json
      = Some (html_escaped json, strlen json + count_escapes json * 5)
      /\ strlen (html_escaped json) = strlen json + count_escapes json * 5
      /\ all_escaped (html_escaped json) = true)
  /\ (forall fuel obj opts root json,
      escape_html opts = true ->
      yyjson_dump_ruby_object heap builtin_to_s opts fuel obj = Some (Ok root) ->
      write root (flags opts) = Some json ->
      write_string fuel obj opts = Some (Ok (html_escaped json)))
  /\ (forall fuel opts,
      escape_html opts = true ->
      write (mut_str "<a>&'") (flags opts) = Some (quote ++ "<a>&'" ++ quote) ->
      write_string (S fuel) (Str "<a>&'") opts
      = Some (Ok (quote ++ "\u003ca\u003e\u0026\u0027" ++ quote))).
Proof.
  intros write_string flags quote.
  pose proof (write_string_escapes_html heap builtin_to_s write
                PRETTY TWO_SPACES SLASHES INF_NAN) as Hgen.
  split; [|split].
  - intros json. split; [apply escape_html_entities_spec|]. split.
    + rewrite <- copy_and_escape_spec. apply copy_and_escape_length.
    + apply html_escaped_all_escaped.
  - exact Hgen.
  - intros fuel opts He Hw.
    unfold write_string.
    rewrite (Hgen (S fuel) (Str "<a>&'") opts (mut_str "<a>&'")
               (quote ++ "<a>&'" ++ quote) He eq_refl Hw).
    reflexivity.
Qed.

Lemma html_escaping_rewrites_output_witness :
  yyjson_ruby_write_string (fun _ => RArray []) (fun _ => EmptyString)
    quoting_writer 1 64 4 8 1 (Str "<a>&'")
    {| pretty := false; escape_slash := false; allow_nan := true;
       escape_html := true; indent := 2; mode := MODE_COMPAT |}
  = Some (Ok (String (ascii_of_nat 34)
                ("\u003ca\u003e\u0026\u0027" ++ String (ascii_of_nat 34) EmptyString))).
Proof.
  apply (proj2 (proj2 (html_escaping_rewrites_output (fun _ => RArray [])
                         (fun _ => EmptyString) quoting_writer 1 64 4 8)) 0%nat);
    reflexivity.
Defined.

(** C4: a dump of a non-finite float under [:strict] without an explicit
    [allow_nan] raises the GenerateError of [dump_float]; a dump under
    [:rails] without an explicit [escape_html] returns the HTML-escaped
    text of what the engine serialized; and [dump_float] raises a
    GenerateError exactly when the value is infinite or NaN and the
    resolved [allow_nan] is false, it returns the number otherwise. *)
Theorem strict_rejects_nan_rails_escapes_html (heap : obj_id -> heap_object)
  (builtin_to_s : VALUE -> string)
  (write : yyjson_mut_val -> Z -> option string)
  (PRETTY TWO_SPACES SLASHES INF_NAN : Z) (NUM2INT : VALUE -> result Z) :
  let dump :=
    yyjson_dump heap builtin_to_s write PRETTY TWO_SPACES SLASHES INF_NAN
      NUM2INT in
  let flags := write_flags PRETTY TWO_SPACES SLASHES INF_NAN in
  (forall fuel h d,
      rb_hash_aref h "mode" = Sym "strict" ->
      rb_hash_aref h "allow_nan" = Qnil ->
      rb_hash_aref h "indent" = Qnil ->
      isinf d || isnan d = true ->
      dump (S fuel) (Float d) (Some h)
      = Some (Raise (GenerateError NanNotAllowed)))
  /\ (forall fuel h obj o root json,
      rb_hash_aref h "mode" = Sym "rails" ->
      rb_hash_aref h "escape_html" = Qnil ->
      yyjson_extract_dump_options NUM2INT (Some h) = Ok o ->
      yyjson_dump_ruby_object heap builtin_to_s o fuel obj = Some (Ok root) ->
      write root (flags o) = Some json ->
      escape_html o = true
      /\ dump fuel obj (Some h) = Some (Ok (html_escaped json)))
  /\ (forall opts d ctx,
      ((exists e, dump_float opts d ctx = Some (Raise (GenerateError e)))
       <-> (isinf d || isnan d) && negb (allow_nan opts) = true)
      /\ ((isinf d || isnan d) && negb (allow_nan opts) = false ->
          dump_float opts d ctx = Some (Ok (mut_real d, ctx)))
      /\ forall fuel,
          dump_ruby_object heap builtin_to_s opts (S fuel) (Float d) ctx
          = dump_float opts d ctx).
Proof.
  intros dump flags. split; [|split].
  - intros fuel h d Hm Hn Hi Hd.
    destruct (extract_dump_options_total NUM2INT h Hi) as [o Ho].
    destruct (extract_dump_options_strict NUM2INT h o Hm Ho) as (_ & Hnan & _).
    unfold dump, yyjson_dump. rewrite Ho.
    unfold yyjson_ruby_write_string, yyjson_dump_ruby_object. simpl.
    unfold dump_float. rewrite Hd, Hnan. reflexivity.
  - intros fuel h obj o root json Hm He Ho Hd Hw.
    destruct (extract_dump_options_rails NUM2INT h o Hm Ho) as (_ & Hesc).
    unfold overridden in Hesc. rewrite He in Hesc. simpl in Hesc.
    split; [exact Hesc|].
    unfold dump, yyjson_dump. rewrite Ho.
    apply (write_string_escapes_html heap builtin_to_s write
             PRETTY TWO_SPACES SLASHES INF_NAN fuel obj o root json);
      assumption.
  - intros opts d ctx. split; [apply dump_float_raises_iff|]. split.
    + unfold dump_float. intros ->. reflexivity.
    + reflexivity.
Qed.




(** ** The key cache *)

Lemma lex_cmp_range a b : lex_cmp a b = -1 \/ lex_cmp a b = 0 \/ lex_cmp a b = 1.
Proof.
  revert b. induction a as [|x a IH]; intros [|y b]; simpl; auto.
  destruct (x <? y); auto. destruct (y <? x); auto.
Qed.

Lemma lex_cmp_eq a b : lex_cmp a b = 0 <-> a = b.
Proof.
  revert b. induction a as [|x a IH]; intros [|y b]; simpl;
    try (split; [discriminate|discriminate]); [tauto|].
  destruct (Z.ltb_spec x y); [split; [discriminate|intros [= -> ->]; lia]|].
  destruct (Z.ltb_spec y x); [split; [discriminate|intros [= -> ->]; lia]|].
  rewrite IH. assert (x = y) as -> by lia. split; [intros ->; reflexivity|].
  intros [= ->]. reflexivity.
Qed.

Lemma lex_cmp_refl a : lex_cmp a a = 0.
Proof. apply lex_cmp_eq. reflexivity. Qed.

Lemma lex_cmp_antisym a b : lex_cmp b a = - lex_cmp a b.
Proof.
  revert b. induction a as [|x a IH]; intros [|y b]; simpl; try reflexivity.
  destruct (Z.ltb_spec x y), (Z.ltb_spec y x); try lia; try reflexivity.
  apply IH.
Qed.

Lemma lex_lt_irrefl a : ~ lex_lt a a.
Proof. unfold lex_lt. rewrite lex_cmp_refl. discriminate. Qed.

Lemma lex_lt_trans a b c : lex_lt a b -> lex_lt b c -> lex_lt a c.
Proof.
  unfold lex_lt. revert b c.
  induction a as [|x a IH]; intros [|y b] [|z c]; simpl; try discriminate; auto.
  destruct (Z.ltb_spec x y), (Z.ltb_spec y x), (Z.ltb_spec y z),
    (Z.ltb_spec z y), (Z.ltb_spec x z), (Z.ltb_spec z x);
    try lia; try discriminate; auto.
  apply IH.
Qed.

Lemma lex_lt_gt a b : lex_cmp a b = 1 <-> lex_lt b a.
Proof. unfold lex_lt. rewrite (lex_cmp_antisym a b). lia. Qed.

Lemma lex_cmp_app a a' b b' :
  length a = length a' ->
  lex_cmp (a ++ b) (a' ++ b')
  = if lex_cmp a a' =? 0 then lex_cmp b b' else lex_cmp a a'.
Proof.
  revert a'. induction a as [|x a IH]; intros [|y a']; simpl; try discriminate.
  - reflexivity.
  - intros [= Hl]. destruct (x <? y); [reflexivity|].
    destruct (y <? x); [reflexivity|]. apply IH, Hl.
Qed.

Lemma u8_range c : 0 <= u8 c < 256.
Proof.
  unfold u8. pose proof (N_ascii_bounded c). lia.
Qed.

Lemma u8_inj a b : u8 a = u8 b -> a = b.
Proof.
  unfold u8. intros H. apply N2Z.inj in H.
  rewrite <- (ascii_N_embedding a), <- (ascii_N_embedding b), H. reflexivity.
Qed.

Lemma load_le_range x : 0 <= load_le x < 256 ^ Z.of_nat (length x).
Proof.
  induction x as [|c x IH]; simpl load_le; [simpl; lia|].
  cbn [length]. rewrite Nat2Z.inj_succ, Z.pow_succ_r by lia.
  pose proof (u8_range c). lia.
Qed.

Lemma le_bytes_load x :
  le_bytes (length x) (load_le x) = map u8 x.
Proof.
  induction x as [|c x IH]; [reflexivity|].
  cbn [length le_bytes load_le map]. pose proof (u8_range c).
  replace (u8 c + 256 * load_le x) with (u8 c + load_le x * 256) by lia.
  rewrite Z.mod_add, Z.div_add, Z.mod_small, Z.div_small by lia.
  rewrite Z.add_0_l, IH. reflexivity.
Qed.

Lemma bswap64_load x : length x = 8%nat -> bswap64 (load_le x) = be_val (map u8 x).
Proof.
  intros H. unfold bswap64, be_val. rewrite <- H, le_bytes_load. reflexivity.
Qed.

Lemma load_le_inj x y : length x = length y -> load_le x = load_le y -> x = y.
Proof.
  revert y. induction x as [|a x IH]; intros [|b y]; simpl; try discriminate; auto.
  intros [= Hl] H. pose proof (u8_range a). pose proof (u8_range b).
  assert (u8 a = u8 b /\ load_le x = load_le y) as [Hab Hxy] by lia.
  apply u8_inj in Hab. subst. f_equal. apply IH; assumption.
Qed.

Lemma be_val_acc (l : list Z) (acc : Z) :
  fold_left (fun a b => a * 256 + b) l acc
  = acc * 256 ^ Z.of_nat (length l) + be_val l.
Proof.
  unfold be_val. revert acc. induction l as [|b l IH]; intros acc.
  - simpl. lia.
  - cbn [fold_left length]. rewrite IH, (IH (0 * 256 + b)).
    rewrite Nat2Z.inj_succ, Z.pow_succ_r by lia. lia.
Qed.

Lemma be_val_range l : Forall is_byte l -> 0 <= be_val l < 256 ^ Z.of_nat (length l).
Proof.
  induction l as [|b l IH] using rev_ind; intros Hl.
  - unfold be_val. simpl. lia.
  - apply Forall_app in Hl as [Hl Hb]. inversion Hb as [|? ? Hb' _]; subst.
    specialize (IH Hl). unfold be_val in *. rewrite fold_left_app. simpl.
    rewrite length_app. simpl. rewrite Nat2Z.inj_add. simpl Z.of_nat.
    rewrite Z.pow_add_r, Z.pow_1_r by lia. unfold is_byte in Hb'. lia.
Qed.

Lemma be_val_cons b l :
  be_val (b :: l) = b * 256 ^ Z.of_nat (length l) + be_val l.
Proof.
  unfold be_val at 1. cbn [fold_left]. rewrite be_val_acc. lia.
Qed.

(** Comparing big-endian values is comparing the bytes in order. *)
Lemma be_val_lex x y :
  length x = length y -> Forall is_byte x -> Forall is_byte y ->
  (be_val x < be_val y <-> lex_lt x y) /\ (be_val x = be_val y <-> lex_cmp x y = 0).
Proof.
  unfold lex_lt. revert y.
  induction x as [|a x IH]; intros [|b y]; simpl; try discriminate.
  - intros _ _ _. unfold be_val. simpl. lia.
  - intros [= Hl] Hx Hy. inversion Hx as [|? ? Ha Hx']; inversion Hy as [|? ? Hb Hy']; subst.
    rewrite !be_val_cons. rewrite <- Hl.
    pose proof (be_val_range x Hx'). pose proof (be_val_range y Hy').
    rewrite <- Hl in *.
    set (P := 256 ^ Z.of_nat (length x)) in *.
    assert (0 < P) by (subst P; apply Z.pow_pos_nonneg; lia).
    destruct (IH y Hl Hx' Hy') as [IH1 IH2].
    destruct (Z.ltb_spec a b); [split; [split; [reflexivity|nia]|split; [nia|discriminate]]|].
    destruct (Z.ltb_spec b a); [split; [split; [nia|discriminate]|split; [nia|discriminate]]|].
    assert (a = b) as -> by lia.
    split; [rewrite <- IH1|rewrite <- IH2]; lia.
Qed.

Lemma length_list_ascii_of_string (s : string) :
  length (list_ascii_of_string s) = String.length s.
Proof. induction s as [|c s IH]; simpl; [reflexivity|]. rewrite IH. reflexivity. Qed.

Lemma list_ascii_of_string_inj (a b : string) :
  list_ascii_of_string a = list_ascii_of_string b -> a = b.
Proof.
  intros H. rewrite <- (string_of_list_ascii_of_string a),
    <- (string_of_list_ascii_of_string b), H. reflexivity.
Qed.

Lemma map_inj_eq {A B} (f : A -> B) (l k : list A) :
  (forall x y, f x = f y -> x = y) -> map f l = map f k -> l = k.
Proof.
  intros Hf. revert k. induction l as [|x l IH]; intros [|y k]; simpl;
    try discriminate; auto.
  intros [= Hxy Hlk]. f_equal; auto.
Qed.

Section CacheOrder.

Variable char_signed : bool.

Lemma char_val_inj a b : char_val char_signed a = char_val char_signed b -> a = b.
Proof.
  unfold char_val. pose proof (u8_range a) as Ha. pose proof (u8_range b) as Hb.
  intros H. apply u8_inj.
  destruct char_signed; simpl in H; [|exact H].
  destruct (Z.leb_spec 128 (u8 a)), (Z.leb_spec 128 (u8 b)); lia.
Qed.

Lemma cmp_words_spec w a b :
  length a = length b -> (8 * w <= length a)%nat ->
  cmp_words w a b
  = let r := lex_cmp (map u8 (take (8 * w) a)) (map u8 (take (8 * w) b)) in
    if r =? 0 then None else Some r.
Proof.
  revert a b. induction w as [|w IH]; intros a b Hl Hw.
  - reflexivity.
  - cbn [cmp_words].
    replace (8 * S w)%nat with (8 + 8 * w)%nat by lia.
    rewrite <- !take_take_drop, !map_app.
    assert (Ha : length (take 8 a) = 8%nat) by (rewrite length_take; lia).
    assert (Hb : length (take 8 b) = 8%nat) by (rewrite length_take; lia).
    rewrite lex_cmp_app by (rewrite !length_map; congruence).
    assert (Hba : Forall is_byte (map u8 (take 8 a)))
      by (apply Forall_map, Forall_forall; intros; apply u8_range).
    assert (Hbb : Forall is_byte (map u8 (take 8 b)))
      by (apply Forall_map, Forall_forall; intros; apply u8_range).
    destruct (be_val_lex (map u8 (take 8 a)) (map u8 (take 8 b))) as [Hlt Heq];
      [rewrite !length_map; congruence|assumption|assumption|].
    destruct (Z.eqb_spec (load_le (take 8 a)) (load_le (take 8 b))) as [He|Hne];
      cbn [negb].
    + apply load_le_inj in He; [|congruence]. rewrite He, lex_cmp_refl.
      cbn [Z.eqb]. rewrite IH; [reflexivity| |].
      * rewrite !length_drop. lia.
      * rewrite length_drop. lia.
    + assert (Hne' : lex_cmp (map u8 (take 8 a)) (map u8 (take 8 b)) <> 0).
      { rewrite lex_cmp_eq. intros Hm. apply Hne. f_equal.
        apply (map_inj_eq u8); [apply u8_inj|exact Hm]. }
      rewrite !bswap64_load by assumption.
      cbn zeta.
      destruct (Z.eqb_spec (lex_cmp (map u8 (take 8 a)) (map u8 (take 8 b))) 0);
        [contradiction|].
      destruct (Z.eqb_spec (lex_cmp (map u8 (take 8 a)) (map u8 (take 8 b))) 0);
        [contradiction|].
      f_equal.
      destruct (Z.ltb_spec (be_val (map u8 (take 8 a))) (be_val (map u8 (take 8 b))))
        as [H1|H1].
      * apply Hlt in H1. symmetry. exact H1.
      * destruct (lex_cmp_range (map u8 (take 8 a)) (map u8 (take 8 b)))
          as [H2|[H2|H2]]; [|contradiction|congruence].
        apply Hlt in H2. lia.
Qed.

Lemma cmp_bytes_spec a b :
  length a = length b ->
  cmp_bytes char_signed a b = lex_cmp (map (char_val char_signed) a) (map (char_val char_signed) b).
Proof.
  revert b. induction a as [|x a IH]; intros [|y b]; simpl; try discriminate;
    [reflexivity|].
  intros [= Hl]. destruct (Ascii.eqb_spec x y) as [->|Hne]; cbn [negb].
  - rewrite Z.ltb_irrefl. apply IH, Hl.
  - assert (char_val char_signed x <> char_val char_signed y)
      by (intros Hxy; apply Hne, char_val_inj, Hxy).
    destruct (Z.ltb_spec (char_val char_signed x) (char_val char_signed y));
      [reflexivity|].
    destruct (Z.ltb_spec (char_val char_signed y) (char_val char_signed x));
      [reflexivity|lia].
Qed.

Lemma bcode_length s : length (bcode char_signed s) = String.length s.
Proof.
  unfold bcode. cbn zeta. rewrite length_app, !length_map, <- length_app,
    take_drop. apply length_list_ascii_of_string.
Qed.

Lemma bcode_inj a b :
  String.length a = String.length b -> bcode char_signed a = bcode char_signed b -> a = b.
Proof.
  unfold bcode. cbn zeta. intros Hl H.
  rewrite <- !length_list_ascii_of_string in Hl.
  set (la := list_ascii_of_string a) in *. set (lb := list_ascii_of_string b) in *.
  rewrite <- Hl in H.
  apply app_inj_1 in H as [H1 H2];
    [|rewrite !length_map, !length_take; lia].
  apply (map_inj_eq u8) in H1; [|apply u8_inj].
  apply (map_inj_eq (char_val char_signed)) in H2; [|apply char_val_inj].
  apply list_ascii_of_string_inj. fold la lb.
  rewrite <- (take_drop (8 * (length la / 8)) la),
    <- (take_drop (8 * (length la / 8)) lb). congruence.
Qed.

(** [fast_cmp] on two keys of one length compares their codes. *)
Lemma fast_cmp_spec a b :
  String.length a = String.length b ->
  fast_cmp char_signed a b (strlen a) = lex_cmp (bcode char_signed a) (bcode char_signed b).
Proof.
  intros Hl. unfold fast_cmp, strlen, bcode. cbn zeta.
  rewrite Nat2Z.id.
  rewrite <- !length_list_ascii_of_string in Hl.
  rewrite <- (length_list_ascii_of_string a).
  set (la := list_ascii_of_string a) in *. set (lb := list_ascii_of_string b) in *.
  rewrite (take_ge la) by lia. rewrite (take_ge lb) by lia.
  assert (Hw : (8 * (length la / 8) <= length la)%nat).
  { pose proof (Nat.div_mod_eq (length la) 8). lia. }
  rewrite cmp_words_spec by assumption. cbn zeta.
  rewrite <- Hl.
  rewrite lex_cmp_app by (rewrite !length_map, !length_take; lia).
  destruct (Z.eqb_spec (lex_cmp (map u8 (take (8 * (length la / 8)) la))
                          (map u8 (take (8 * (length la / 8)) lb))) 0).
  - apply cmp_bytes_spec. rewrite !length_drop. lia.
  - reflexivity.
Qed.

End CacheOrder.

Section CacheSearch.

Variable char_signed : bool.

Lemma entry_lt_code e1 e2 :
  entry_lt char_signed e1 e2 <-> lex_lt (entry_code char_signed e1) (entry_code char_signed e2).
Proof.
  unfold entry_lt, lex_lt, entry_code. cbn [lex_cmp].
  destruct (Z.ltb_spec (hash e1) (hash e2)); [intuition lia|].
  destruct (Z.ltb_spec (hash e2) (hash e1)); [intuition (lia || discriminate)|].
  destruct (Z.ltb_spec (len e1) (len e2)); [intuition lia|].
  destruct (Z.ltb_spec (len e2) (len e1)); [intuition (lia || discriminate)|].
  intuition lia.
Qed.

Lemma entry_lt_trans e1 e2 e3 : entry_lt char_signed e1 e2 -> entry_lt char_signed e2 e3 -> entry_lt char_signed e1 e3.
Proof. rewrite !entry_lt_code. apply lex_lt_trans. Qed.

Lemma entry_code_key e : entry_wf e -> entry_code char_signed e = key_code char_signed (ptr e).
Proof. intros (Hl & Hh & _). unfold entry_code, key_code. congruence. Qed.

Lemma key_code_inj a b : key_code char_signed a = key_code char_signed b -> a = b.
Proof.
  unfold key_code, strlen. intros [= _ Hl Hb].
  apply (bcode_inj char_signed); [lia|exact Hb].
Qed.

Lemma sorted_lookup_lt (c : string_cache_t) i j ei ej :
  StronglySorted (entry_lt char_signed) c -> c !! i = Some ei -> c !! j = Some ej ->
  (i < j)%nat -> entry_lt char_signed ei ej.
Proof.
  intros Hs Hi Hj Hij. rewrite <- (take_drop j c) in Hs.
  apply (StronglySorted_app_1_elem_of _ _ _ ei ej Hs).
  - apply list_elem_of_lookup. exists i. rewrite lookup_take_lt by exact Hij. exact Hi.
  - apply list_elem_of_lookup. exists 0%nat. rewrite lookup_drop, Nat.add_0_r. exact Hj.
Qed.

(** One turn of the loop of [cache_search], by the codes it compares. *)
Lemma cache_search_loop_step c s h lo hi :
  Forall entry_wf c ->
  cache_search_loop char_signed c s (strlen s) h lo hi
  = if Z_le_gt_dec lo hi then
      let mid := (lo + hi) / 2 in
      match c !! Z.to_nat mid with
      | None => - (lo + 1)
      | Some e =>
          let r := lex_cmp (h :: strlen s :: bcode char_signed s) (entry_code char_signed e) in
          if r =? 0 then mid
          else if 0 <? r then cache_search_loop char_signed c s (strlen s) h (mid + 1) hi
          else cache_search_loop char_signed c s (strlen s) h lo (mid - 1)
      end
    else - (lo + 1).
Proof.
  intros Hwf. rewrite cache_search_loop_equation_1.
  unfold cache_search_loop_unfold_clause_1.
  destruct (Z_le_gt_dec lo hi); [|reflexivity]. cbn zeta.
  rewrite Z.shiftr_div_pow2 by lia. change (2 ^ 1) with 2.
  unfold string_cache_t in *.
  destruct (c !! Z.to_nat ((lo + hi) / 2)) as [e|] eqn:He; [|reflexivity].
  assert (Hl : len e = strlen (ptr e)).
  { eapply Forall_lookup in Hwf; [|exact He]. apply Hwf. }
  unfold entry_code. cbn [lex_cmp].
  destruct (Z.ltb_spec (hash e) h), (Z.ltb_spec h (hash e)); try lia;
    try reflexivity.
  destruct (Z.ltb_spec (len e) (strlen s)), (Z.ltb_spec (strlen s) (len e));
    try lia; try reflexivity.
  rewrite fast_cmp_spec by (unfold strlen in *; lia). reflexivity.
Qed.

Lemma cache_search_loop_spec c s h :
  StronglySorted (entry_lt char_signed) c -> Forall entry_wf c ->
  let k := h :: strlen s :: bcode char_signed s in
  forall (n : nat) lo hi,
    n = Z.to_nat (hi - lo + 1) ->
    0 <= lo -> hi < cache_len c -> lo <= hi + 1 ->
    (forall i e, c !! i = Some e -> Z.of_nat i < lo -> lex_lt (entry_code char_signed e) k) ->
    (forall i e, c !! i = Some e -> hi < Z.of_nat i -> lex_lt k (entry_code char_signed e)) ->
    let r := cache_search_loop char_signed c s (strlen s) h lo hi in
    found_at char_signed c k r \/ insertion_point char_signed c k r.
Proof.
  intros Hs Hwf k n. induction n as [n IH] using lt_wf_ind.
  intros lo hi Hn Hlo Hhi Hle Hbelow Habove r. subst r.
  rewrite cache_search_loop_step by exact Hwf.
  destruct (Z_le_gt_dec lo hi) as [Hlh|Hlh].
  - cbn zeta.
    assert (Hmid : lo <= (lo + hi) / 2 <= hi).
    { pose proof (Z.div_mod (lo + hi) 2 ltac:(lia)).
      pose proof (Z.mod_pos_bound (lo + hi) 2 ltac:(lia)). lia. }
    set (mid := (lo + hi) / 2) in *. clearbody mid.
    unfold cache_len in Hhi.
    destruct (c !! Z.to_nat mid) as [e|] eqn:He;
      [|apply lookup_ge_None in He; lia].
    fold k.
    destruct (lex_cmp_range k (entry_code char_signed e)) as [Hr|[Hr|Hr]]; rewrite Hr.
    + (* the key is before the entry *)
      cbn [Z.eqb Z.ltb Z.compare].
      apply (IH (Z.to_nat (mid - 1 - lo + 1))); try (unfold cache_len; lia);
        [exact Hbelow|].
      intros i ei Hi Hgt.
      destruct (Z.eq_dec (Z.of_nat i) mid) as [Heq|Hne].
      * replace i with (Z.to_nat mid) in Hi by lia. congruence.
      * eapply lex_lt_trans; [exact Hr|]. apply entry_lt_code.
        apply (sorted_lookup_lt c (Z.to_nat mid) i); auto. lia.
    + (* found *)
      cbn [Z.eqb]. left. split; [lia|]. exists e. split; [exact He|].
      symmetry. apply lex_cmp_eq, Hr.
    + (* the key is after the entry *)
      cbn [Z.eqb Z.ltb Z.compare].
      apply lex_lt_gt in Hr.
      apply (IH (Z.to_nat (hi - (mid + 1) + 1))); try (unfold cache_len; lia);
        [|exact Habove].
      intros i ei Hi Hlt.
      destruct (Z.eq_dec (Z.of_nat i) mid) as [Heq|Hne].
      * replace i with (Z.to_nat mid) in Hi by lia. congruence.
      * eapply lex_lt_trans; [|exact Hr]. apply entry_lt_code.
        apply (sorted_lookup_lt c i (Z.to_nat mid)); auto. lia.
  - right. exists (Z.to_nat lo). unfold cache_len in Hhi.
    split; [lia|]. split; [lia|]. split.
    + apply Forall_lookup. intros i e Hi.
      apply lookup_take_Some in Hi as [Hi Hlt]. apply (Hbelow i e Hi). lia.
    + apply Forall_lookup. intros i e Hi. rewrite lookup_drop in Hi.
      apply (Habove _ e Hi). lia.
Qed.

(** [cache_search] on a sorted cache: the index of the entry of the key,
    or the place where the key belongs. *)
Lemma cache_search_spec c s :
  StronglySorted (entry_lt char_signed) c -> Forall entry_wf c ->
  let r := cache_search char_signed c s (strlen s) (fnv1a s) in
  found_at char_signed c (key_code char_signed s) r \/ insertion_point char_signed c (key_code char_signed s) r.
Proof.
  intros Hs Hwf. unfold cache_search.
  apply (cache_search_loop_spec c s (fnv1a s) Hs Hwf
           (Z.to_nat (cache_len c - 1 - 0 + 1))); try reflexivity;
    try (unfold cache_len; lia).
  intros i e Hi Hgt. exfalso. apply lookup_lt_Some in Hi.
  unfold cache_len in Hgt. lia.
Qed.

End CacheSearch.

Section CacheLookup.

Variable char_signed : bool.

Lemma get_str_key_with interned c s os :
  get_str_key char_signed interned c s os
  = get_key_with char_signed (make_fstr interned) c s os.
Proof. reflexivity. Qed.

Lemma get_sym_key_with c s os :
  get_sym_key char_signed c s os = get_key_with char_signed make_sym c s os.
Proof. reflexivity. Qed.

Lemma cacheable_length s : uncacheable s = false -> 0 < strlen s <= CACHE_MAX_LEN.
Proof.
  unfold uncacheable. intros H.
  apply orb_false_iff in H as [H _]. apply orb_false_iff in H as [H1 H2].
  apply Z.ltb_ge in H1. apply Z.eqb_neq in H2. unfold strlen in *. lia.
Qed.

Lemma new_entry_wf s v : uncacheable s = false -> entry_wf (new_entry s v).
Proof. intros H. repeat split. exact H. Qed.

Lemma insert_sorted (c : string_cache_t) (p : nat) (e : cache_entry_t) :
  StronglySorted (entry_lt char_signed) c ->
  Forall (fun x => lex_lt (entry_code char_signed x) (entry_code char_signed e)) (take p c) ->
  Forall (fun x => lex_lt (entry_code char_signed e) (entry_code char_signed x)) (drop p c) ->
  StronglySorted (entry_lt char_signed) (take p c ++ e :: drop p c)%list.
Proof.
  intros Hs Hb Ha. rewrite <- (take_drop p c) in Hs.
  apply StronglySorted_app in Hs as (Hx & Hs1 & Hs2).
  apply StronglySorted_app. split; [|split].
  - intros x1 x2 H1 H2. apply elem_of_cons in H2 as [->|H2].
    + apply entry_lt_code. eapply Forall_forall in Hb; eauto.
    + apply Hx; assumption.
  - exact Hs1.
  - apply StronglySorted_cons. split; [|exact Hs2].
    apply Forall_forall. intros x Hx2. apply entry_lt_code.
    eapply Forall_forall in Ha; eauto.
Qed.

Lemma get_key_outcome mk c s os :
  cache_inv char_signed c ->
  forall v c' os', get_key_with char_signed mk c s os = (v, c', os') ->
  key_outcome char_signed mk c s os v c' os'.
Proof.
  intros (Hs & Hwf & Hlen) v c' os'. unfold get_key_with.
  destruct (uncacheable s) eqn:Hu.
  { destruct (mk s os) as [v0 os0] eqn:Hmk. intros [= <- <- <-].
    pose proof (key_bypass char_signed mk c s os Hu) as H. rewrite Hmk in H. exact H. }
  destruct (cache_search_spec char_signed c s Hs Hwf) as [Hf|Hi].
  - destruct Hf as (Hge & e & He & Hcode).
    destruct (Z.leb_spec 0 (cache_search char_signed c s (strlen s) (fnv1a s)));
      [|lia].
    unfold string_cache_t in *. rewrite He. cbn. intros [= <- <- <-].
    assert (Hin : e ∈ c) by (apply list_elem_of_lookup; eauto).
    apply key_hit; [exact Hu|exact Hin|].
    apply (key_code_inj char_signed).
    rewrite <- entry_code_key; [exact Hcode|].
    eapply Forall_forall in Hwf; eauto.
  - destruct Hi as (p & Hr & Hp & Hb & Ha). rewrite Hr.
    destruct (Z.leb_spec 0 (- (Z.of_nat p + 1))); [lia|].
    replace (- (- (Z.of_nat p + 1) + 1)) with (Z.of_nat p) by lia.
    assert (Hnone : forall e, e ∈ c -> ptr e <> s).
    { intros e He Hptr.
      assert (Hc : entry_code char_signed e = key_code char_signed s).
      { rewrite entry_code_key, Hptr; [reflexivity|].
        eapply Forall_forall in Hwf; eauto. }
      rewrite <- (take_drop p c) in He. apply elem_of_app in He as [He|He].
      - eapply Forall_forall in Hb; eauto. rewrite Hc in Hb.
        exact (lex_lt_irrefl _ Hb).
      - eapply Forall_forall in Ha; eauto. rewrite Hc in Ha.
        exact (lex_lt_irrefl _ Ha). }
    destruct (mk s os) as [v0 os0] eqn:Hmk. unfold cache_insert.
    destruct (Z.leb_spec CACHE_SIZE (cache_len c)).
    + intros [= <- <- <-].
      pose proof (key_full char_signed mk c s os Hu Hnone ltac:(lia)) as H'.
      rewrite Hmk in H'. exact H'.
    + rewrite Nat2Z.id. pose proof (cacheable_length s Hu) as Hl.
      rewrite Z.mod_small by (unfold CACHE_MAX_LEN in Hl; lia).
      fold (new_entry s v0). intros [= <- <- <-].
      assert (Hinv : cache_inv char_signed
                       (take p c ++ new_entry s v0 :: drop p c)%list).
      { split; [|split].
        - apply insert_sorted; [exact Hs| |].
          + rewrite (entry_code_key char_signed (new_entry s v0))
              by (apply new_entry_wf, Hu). exact Hb.
          + rewrite (entry_code_key char_signed (new_entry s v0))
              by (apply new_entry_wf, Hu). exact Ha.
        - rewrite <- (take_drop p c) in Hwf. apply Forall_app in Hwf as [H1 H2].
          apply Forall_app. split; [exact H1|]. constructor; [|exact H2].
          apply new_entry_wf, Hu.
        - unfold cache_len in *. rewrite length_app. cbn [length].
          rewrite length_take, length_drop. lia. }
      pose proof (key_insert char_signed mk c s os p Hu Hnone ltac:(lia)) as H'.
      rewrite Hmk in H'. apply H'. exact Hinv.
Qed.

Lemma key_outcome_cache mk c s os v c' os' :
  cache_inv char_signed c ->
  key_outcome char_signed mk c s os v c' os' ->
  cache_inv char_signed c' /\ c `sublist_of` c'
  /\ (cache_len c = CACHE_SIZE -> c' = c)
  /\ (c' = c \/ cache_len c' = cache_len c + 1).
Proof.
  intros Hinv [Hu|e Hu He Hp|p Hu Hn Hl Hi|Hu Hn Hl];
    try (split; [exact Hinv|]; split; [reflexivity|]; split; auto).
  split; [exact Hi|]. split; [|split].
  - rewrite <- (take_drop p c) at 1. apply sublist_app; [reflexivity|].
    apply sublist_cons. reflexivity.
  - lia.
  - right. unfold cache_len. rewrite length_app. cbn [length].
    rewrite length_take, length_drop.
    destruct Hi as (_ & _ & Hi). unfold cache_len in Hi.
    rewrite length_app in Hi. cbn [length] in Hi.
    rewrite length_take, length_drop in Hi. lia.
Qed.

Lemma cache_step_inv c c' :
  cache_inv char_signed c -> cache_step char_signed c c' ->
  cache_inv char_signed c' /\ c `sublist_of` c'
  /\ (cache_len c = CACHE_SIZE -> c' = c)
  /\ (c' = c \/ cache_len c' = cache_len c + 1).
Proof.
  intros Hinv Hstep. revert Hinv.
  destruct Hstep as [interned c0 s os|c0 s os]; intros Hinv.
  - rewrite get_str_key_with.
    destruct (get_key_with char_signed (make_fstr interned) c0 s os) as [[v c1] os1] eqn:Hg.
    apply (key_outcome_cache (make_fstr interned) c0 s os v c1 os1 Hinv).
    apply get_key_outcome; assumption.
  - rewrite get_sym_key_with.
    destruct (get_key_with char_signed make_sym c0 s os) as [[v c1] os1] eqn:Hg.
    apply (key_outcome_cache make_sym c0 s os v c1 os1 Hinv).
    apply get_key_outcome; assumption.
Qed.

Lemma cache_inv_empty : cache_inv char_signed [].
Proof.
  split; [constructor|]. split; [constructor|]. unfold cache_len, CACHE_SIZE. simpl. lia.
Qed.

Lemma cache_steps_inv c c' :
  cache_inv char_signed c -> rtc (cache_step char_signed) c c' ->
  cache_inv char_signed c' /\ c `sublist_of` c'
  /\ (cache_len c = CACHE_SIZE -> c' = c).
Proof.
  intros Hinv Hsteps. induction Hsteps as [c|c c1 c2 Hstep _ IH].
  - split; [exact Hinv|]. split; [reflexivity|]. auto.
  - destruct (cache_step_inv c c1 Hinv Hstep) as (Hi1 & Hs1 & Hf1 & _).
    destruct (IH Hi1) as (Hi2 & Hs2 & Hf2).
    split; [exact Hi2|]. split; [etrans; eassumption|].
    intros Hfull. specialize (Hf1 Hfull). subst c1. auto.
Qed.

End CacheLookup.

Section KeyTrace.

Variable char_signed : bool.

Lemma trace_inv_empty : trace_inv char_signed [] [] [].
Proof.
  split; try (intros; set_solver).
  apply cache_inv_empty.
Qed.

Lemma cache_ptr_unique (c : string_cache_t) e1 e2 :
  cache_inv char_signed c -> e1 ∈ c -> e2 ∈ c -> ptr e1 = ptr e2 -> e1 = e2.
Proof.
  intros (Hs & Hwf & _) H1 H2 Hp.
  assert (Hc : entry_code char_signed e1 = entry_code char_signed e2).
  { rewrite !entry_code_key, Hp; [reflexivity| |];
      eapply Forall_forall in Hwf; eauto. }
  apply list_elem_of_lookup in H1 as [i1 H1]. apply list_elem_of_lookup in H2 as [i2 H2].
  destruct (lt_eq_lt_dec i1 i2) as [[Hlt|Heq]|Hgt].
  - exfalso. pose proof (sorted_lookup_lt char_signed c i1 i2 e1 e2 Hs H1 H2 Hlt) as H.
    apply entry_lt_code in H. rewrite Hc in H. exact (lex_lt_irrefl _ H).
  - subst. congruence.
  - exfalso. pose proof (sorted_lookup_lt char_signed c i2 i1 e2 e1 Hs H2 H1 Hgt) as H.
    apply entry_lt_code in H. rewrite Hc in H. exact (lex_lt_irrefl _ H).
Qed.

Lemma cacheable_set_snoc ks k :
  cacheable_set (ks ++ [k])
  = cacheable_set ks ∪ (if uncacheable k then ∅ else {[k]}).
Proof.
  unfold cacheable_set. rewrite filter_app, list_to_set_app_L. f_equal.
  rewrite filter_cons, filter_nil.
  case_decide as Hd.
  - rewrite Hd. simpl. set_solver.
  - destruct (uncacheable k); [reflexivity|congruence].
Qed.

Lemma elem_of_cacheable_set ks k :
  k ∈ cacheable_set ks <-> k ∈ ks /\ uncacheable k = false.
Proof.
  unfold cacheable_set. rewrite elem_of_list_to_set, list_elem_of_filter. tauto.
Qed.

Lemma distinct_before_snoc ks k i :
  (i <= length ks)%nat -> distinct_before (ks ++ [k]) i = distinct_before ks i.
Proof.
  intros Hi. unfold distinct_before. rewrite take_app_le by exact Hi. reflexivity.
Qed.

Lemma distinct_before_all ks : distinct_before ks (length ks) = size (cacheable_set ks).
Proof. unfold distinct_before. rewrite firstn_all. reflexivity. Qed.

Section Step.

Variable mk : string -> object_space -> rvalue * object_space.
Hypothesis mk_bytes : forall s os, atom_bytes (mk s os).1 = Some s.

(** One lookup extends the trace and keeps the relation. *)
Lemma key_outcome_trace c ks atoms s os v c' os' :
  trace_inv char_signed c ks atoms ->
  key_outcome char_signed mk c s os v c' os' ->
  trace_inv char_signed c' (ks ++ [s]) (atoms ++ [v]).
Proof.
  intros Hinv Hout.
  pose proof (ti_cache _ _ _ _ Hinv) as Hc.
  destruct (key_outcome_cache char_signed mk c s os v c' os' Hc Hout)
    as (Hc' & Hsub & Hfull & Hgrow).
  pose proof (ti_length _ _ _ _ Hinv) as Hlen.
  assert (Hold : forall e, e ∈ c -> e ∈ c').
  { intros e He. eapply elem_of_sublist; eauto. }
  assert (Hwf : forall e, e ∈ c -> uncacheable (ptr e) = false).
  { intros e He. destruct Hc as (_ & Hw & _).
    eapply Forall_forall in Hw; eauto. apply Hw. }
  (* the value of the lookup spells the key *)
  assert (Hv : atom_bytes v = Some s).
  { destruct Hout as [Hu|e Hu He Hp|p Hu Hn Hl Hi|Hu Hn Hl]; try apply mk_bytes.
    rewrite <- Hp. apply (ti_val _ _ _ _ Hinv), He. }
  (* the key is in the cache unless the cache was full or the key bypasses it *)
  assert (Hnew : uncacheable s = false -> cache_len c < CACHE_SIZE ->
                 exists e, e ∈ c' /\ ptr e = s /\ val e = v).
  { intros Hu Hl.
    destruct Hout as [Hu'|e _ He Hp|p _ Hn _ Hi|_ Hn Hl']; try congruence; try lia.
    - exists e. auto.
    - exists (new_entry s (mk s os).1). split; [|split; reflexivity].
      apply elem_of_app. right. apply elem_of_cons. left. reflexivity. }
  (* a key that enters the cache was not looked up before *)
  assert (Hsplit : forall e, e ∈ c' -> e ∈ c \/ (e = new_entry s v /\ s ∉ ks)).
  { intros e He'.
    destruct Hout as [Hu|e0 Hu He0 Hp|p Hu Hn Hl Hi|Hu Hn Hl]; auto.
    apply elem_of_app in He' as [He'|He'];
      [left; eapply elem_of_sublist; [exact He'|apply sublist_take]|].
    apply elem_of_cons in He' as [->|He'];
      [|left; eapply elem_of_sublist; [exact He'|apply sublist_drop]].
    right. split; [reflexivity|]. intros Hin.
    destruct (ti_all _ _ _ _ Hinv Hl s Hin Hu) as (e1 & He1 & Hp1).
    exact (Hn e1 He1 Hp1). }
  split.
  - exact Hc'.
  - rewrite !length_app. simpl. lia.
  - intros i k a Hk Ha.
    destruct (decide (i < length ks)%nat) as [Hi|Hi].
    + rewrite lookup_app_l in Hk by exact Hi.
      rewrite lookup_app_l in Ha by lia.
      exact (ti_bytes _ _ _ _ Hinv i k a Hk Ha).
    + pose proof (lookup_lt_Some _ _ _ Hk) as Hb. rewrite length_app in Hb.
      simpl in Hb. assert (i = length ks) as -> by lia.
      rewrite list_lookup_middle in Hk by reflexivity.
      rewrite list_lookup_middle in Ha by lia. congruence.
  - intros e He'. destruct (Hsplit e He') as [He|[-> _]].
    + exact (ti_val _ _ _ _ Hinv e He).
    + exact Hv.
  - intros e i He' Hk.
    destruct (decide (i < length ks)%nat) as [Hi|Hi].
    + rewrite lookup_app_l in Hk by exact Hi. rewrite lookup_app_l by lia.
      destruct (Hsplit e He') as [He|[-> Hs]].
      * exact (ti_hit _ _ _ _ Hinv e i He Hk).
      * exfalso. apply Hs. apply list_elem_of_lookup. eauto.
    + pose proof (lookup_lt_Some _ _ _ Hk) as Hb. rewrite length_app in Hb.
      simpl in Hb. assert (i = length ks) as -> by lia.
      rewrite list_lookup_middle in Hk by reflexivity. injection Hk as Hk.
      rewrite list_lookup_middle by lia. f_equal.
      destruct (Hsplit e He') as [He|[-> _]]; [|reflexivity].
      destruct Hout as [Hu|e0 Hu He0 Hp|p Hu Hn Hl Hi'|Hu Hn Hl].
      * rewrite Hk, (Hwf e He) in Hu. discriminate.
      * f_equal. apply (cache_ptr_unique c); auto. congruence.
      * exfalso. exact (Hn e He (eq_sym Hk)).
      * exfalso. exact (Hn e He (eq_sym Hk)).
  - intros Hl' k Hk Hu.
    assert (Hl : cache_len c < CACHE_SIZE).
    { destruct Hgrow as [->|Hg]; lia. }
    apply elem_of_app in Hk as [Hk|Hk].
    + destruct (ti_all _ _ _ _ Hinv Hl k Hk Hu) as (e & He & Hp). eauto.
    + apply list_elem_of_singleton in Hk as ->.
      destruct (Hnew Hu Hl) as (e & He & Hp & _). eauto.
  - rewrite cacheable_set_snoc.
    pose proof (ti_count _ _ _ _ Hinv) as Hcount.
    destruct Hgrow as [->|Hg].
    + etrans; [exact Hcount|]. apply subseteq_size. set_solver.
    + assert (Hne : c' <> c) by (intros ->; lia).
      destruct Hout as [Hu|e0 Hu He0 Hp|p Hu Hn Hl Hi'|Hu Hn Hl]; try contradiction.
      rewrite Hu. rewrite size_union.
      * rewrite size_singleton. unfold cache_len in Hg. lia.
      * apply disjoint_singleton_r. rewrite elem_of_cacheable_set. intros [Hin _].
        destruct (ti_all _ _ _ _ Hinv Hl s Hin Hu) as (e1 & He1 & Hp1).
        exact (Hn e1 He1 Hp1).
  - intros i k Hk Hu Hd.
    destruct (decide (i < length ks)%nat) as [Hi|Hi].
    + rewrite lookup_app_l in Hk by exact Hi.
      rewrite distinct_before_snoc in Hd by lia.
      destruct (ti_early _ _ _ _ Hinv i k Hk Hu Hd) as (e & He & Hp). eauto.
    + pose proof (lookup_lt_Some _ _ _ Hk) as Hb. rewrite length_app in Hb.
      simpl in Hb. assert (i = length ks) as -> by lia.
      rewrite list_lookup_middle in Hk by reflexivity. injection Hk as <-.
      rewrite distinct_before_snoc, distinct_before_all in Hd by lia.
      pose proof (ti_count _ _ _ _ Hinv) as Hcount.
      destruct Hnew as (e & He & Hp & _); eauto.
      unfold cache_len, CACHE_SIZE in *. lia.
Qed.

End Step.

End KeyTrace.

(** Two keys that a hash takes for one key have the same bytes. *)
Lemma key_eql_bytes (a b : rvalue) :
  key_eql a b = true -> atom_bytes a = atom_bytes b.
Proof.
  destruct a, b; try discriminate; simpl; intros H;
    apply String.eqb_eq in H; congruence.
Qed.

(** A key that no entry holds is put after the entries. *)
Lemma hash_aset_fresh (h : list (rvalue * rvalue)) (k v : rvalue) :
  Forall (fun kv => key_eql kv.1 k = false) h ->
  rb_hash_aset h k v = (h ++ [(k, v)])%list.
Proof.
  induction 1 as [|[k' v'] h Hk _ IH]; [reflexivity|].
  simpl in *. rewrite Hk, IH. reflexivity.
Qed.

(** A buffer without two keys of the same bytes is stored pair by pair. *)
Lemma hash_bulk_insert_distinct (kvs h : list (rvalue * rvalue)) :
  NoDup (map (fun kv => atom_bytes kv.1) (h ++ kvs)) ->
  rb_hash_bulk_insert kvs h = (h ++ kvs)%list.
Proof.
  revert h. induction kvs as [|[k v] kvs IH]; intros h Hnd.
  - rewrite app_nil_r. reflexivity.
  - unfold rb_hash_bulk_insert in *. cbn [fold_left fst snd].
    rewrite hash_aset_fresh.
    + rewrite IH; rewrite <- app_assoc; [reflexivity|exact Hnd].
    + rewrite map_app in Hnd. apply NoDup_app in Hnd as (_ & Hd & _).
      apply Forall_forall. intros [k' v'] Hin. simpl.
      destruct (key_eql k' k) eqn:He; [|reflexivity].
      exfalso. apply (Hd (atom_bytes k')).
      * apply list_elem_of_fmap. exists (k', v'). auto.
      * apply key_eql_bytes in He. rewrite He. simpl. apply elem_of_cons. auto.
Qed.

(** What holds of the keys and of the values of a hash and of a pair
    holds of the keys and of the values of the hash with the pair
    stored. *)
Lemma hash_aset_Forall (Pk Pv : rvalue -> Prop) (h : list (rvalue * rvalue))
  (k v : rvalue) :
  Forall (fun kv => Pk kv.1 /\ Pv kv.2) h -> Pk k -> Pv v ->
  Forall (fun kv => Pk kv.1 /\ Pv kv.2) (rb_hash_aset h k v).
Proof.
  intros Hh Hk Hv. induction Hh as [|[k' v'] h [Hk' Hv'] Hh IH]; simpl.
  - constructor; [split; assumption|constructor].
  - destruct (key_eql k' k).
    + constructor; [split; assumption|exact Hh].
    + constructor; [split; assumption|exact IH].
Qed.

Lemma hash_bulk_insert_Forall (Pk Pv : rvalue -> Prop)
  (kvs h : list (rvalue * rvalue)) :
  Forall (fun kv => Pk kv.1 /\ Pv kv.2) h ->
  Forall (fun kv => Pk kv.1 /\ Pv kv.2) kvs ->
  Forall (fun kv => Pk kv.1 /\ Pv kv.2) (rb_hash_bulk_insert kvs h).
Proof.
  intros Hh Hk. revert h Hh. induction Hk as [|[k v] kvs [Hk Hv] _ IH]; intros h Hh.
  - exact Hh.
  - unfold rb_hash_bulk_insert in *. cbn [fold_left]. apply IH.
    apply hash_aset_Forall; assumption.
Qed.

(** What holds of the keys of the hashes in a buffer, and of its own
    keys, holds of the keys of the hash made from it. *)
Lemma Forall_hash_keys (P : rvalue -> Prop) (l : list (rvalue * rvalue)) :
  Forall P (flat_map (fun kv => kv.1 :: value_keys kv.2) l)
  <-> Forall (fun kv => P kv.1 /\ Forall P (value_keys kv.2)) l.
Proof.
  induction l as [|[k v] l IH]; cbn [flat_map fst snd].
  - split; constructor.
  - change (Forall P (k :: (value_keys v ++ flat_map (fun kv => kv.1 :: value_keys kv.2) l))
            <-> Forall (fun kv => P kv.1 /\ Forall P (value_keys kv.2)) ((k, v) :: l)).
    rewrite !Forall_cons, Forall_app, IH. cbn [fst snd]. tauto.
Qed.

Lemma hash_bulk_insert_keys (P : rvalue -> Prop) (kvs : list (rvalue * rvalue)) :
  Forall P (flat_map (fun kv => kv.1 :: value_keys kv.2) kvs) ->
  Forall P (flat_map (fun kv => kv.1 :: value_keys kv.2) (rb_hash_bulk_insert kvs [])).
Proof.
  rewrite !Forall_hash_keys.
  apply (hash_bulk_insert_Forall P (fun v => Forall P (value_keys v)) kvs []).
  constructor.
Qed.

Section BuilderFacts.

Variable char_signed : bool.
Variable interned : bool.
Variable opts : yyjson_parse_options.

Lemma make_fstr_bytes s os : atom_bytes (make_fstr interned s os).1 = Some s.
Proof.
  unfold make_fstr. destruct interned; [destruct (fstrings os !! s)|]; reflexivity.
Qed.

Lemma make_sym_bytes s os : atom_bytes (make_sym s os).1 = Some s.
Proof. reflexivity. Qed.

Lemma build_key_trace ks atoms k ctx a ctx' :
  trace_inv char_signed (cache_in_use opts ctx) ks atoms ->
  build_key char_signed interned opts k ctx = (a, ctx') ->
  trace_inv char_signed (cache_in_use opts ctx') (ks ++ [k]) (atoms ++ [a]).
Proof.
  unfold build_key, cache_in_use. intros Hinv.
  destruct (p_symbolize_names opts).
  - rewrite get_sym_key_with.
    destruct (get_key_with char_signed make_sym (sym_cache ctx) k (objects ctx))
      as [[a0 c0] os0] eqn:Hg.
    intros [= <- <-]. simpl.
    eapply (key_outcome_trace char_signed make_sym make_sym_bytes); [exact Hinv|].
    apply get_key_outcome; [apply (ti_cache _ _ _ _ Hinv)|exact Hg].
  - rewrite get_str_key_with.
    destruct (get_key_with char_signed (make_fstr interned) (str_cache ctx) k
                (objects ctx)) as [[a0 c0] os0] eqn:Hg.
    intros [= <- <-]. simpl.
    eapply (key_outcome_trace char_signed (make_fstr interned) make_fstr_bytes);
      [exact Hinv|].
    apply get_key_outcome; [apply (ti_cache _ _ _ _ Hinv)|exact Hg].
Qed.

Lemma value_keys_small_int n : value_keys (small_int n) = [].
Proof.
  unfold small_int.
  destruct (small_ints !! Z.to_nat (n - SMALL_INT_MIN)) as [x|] eqn:E; [|reflexivity].
  apply list_elem_of_lookup_2, list_elem_of_In, in_map_iff in E as (i & <- & _).
  reflexivity.
Qed.

Lemma value_keys_build_num v : value_keys (build_num v) = [].
Proof.
  destruct v; try reflexivity; simpl;
    repeat match goal with |- context [if ?b then _ else _] => destruct b end;
    try reflexivity; apply value_keys_small_int.
Qed.

Lemma build_items_trace items :
  Forall (extends_trace char_signed interned opts) items ->
  forall ctx ks atoms vals ctx',
    trace_inv char_signed (cache_in_use opts ctx) ks atoms ->
    build_items (build_val char_signed interned opts) items ctx = (vals, ctx') ->
    trace_inv char_signed (cache_in_use opts ctx')
      (ks ++ flat_map doc_keys items)
      (atoms ++ atoms_items char_signed interned opts
                  (key_atoms char_signed interned opts) items ctx).
Proof.
  induction 1 as [|x items Hx _ IH]; intros ctx ks atoms vals ctx' Hinv;
    cbn [build_items atoms_items flat_map].
  - intros [= <- <-]. rewrite !app_nil_r. exact Hinv.
  - destruct (build_val char_signed interned opts x ctx) as [r c1] eqn:Hr.
    destruct (build_items _ items c1) as [rs c2] eqn:Hrs.
    intros [= <- <-]. cbn [snd]. rewrite !app_assoc.
    eapply IH; [|exact Hrs]. eapply Hx; eauto.
Qed.

Lemma build_pairs_trace pairs :
  Forall (fun kv => extends_trace char_signed interned opts kv.2) pairs ->
  forall ctx ks atoms kvs ctx',
    trace_inv char_signed (cache_in_use opts ctx) ks atoms ->
    build_pairs char_signed interned opts (build_val char_signed interned opts)
      pairs ctx = (kvs, ctx') ->
    trace_inv char_signed (cache_in_use opts ctx')
      (ks ++ flat_map (fun kv => kv.1 :: doc_keys kv.2) pairs)
      (atoms ++ atoms_pairs char_signed interned opts
                  (key_atoms char_signed interned opts) pairs ctx).
Proof.
  induction 1 as [|[k x] pairs Hx _ IH]; intros ctx ks atoms kvs ctx' Hinv;
    cbn [build_pairs atoms_pairs flat_map fst snd].
  - intros [= <- <-]. rewrite !app_nil_r. exact Hinv.
  - destruct (build_key char_signed interned opts k ctx) as [a c0] eqn:Ha.
    destruct (build_val char_signed interned opts x c0) as [r c1] eqn:Hr.
    destruct (build_pairs _ _ _ _ pairs c1) as [rs c2] eqn:Hrs.
    intros [= <- <-]. cbn [snd].
    change (trace_inv char_signed (cache_in_use opts c2)
              (ks ++ ([k] ++ doc_keys x)
                 ++ flat_map (fun kv => kv.1 :: doc_keys kv.2) pairs)
              (atoms ++ ([a] ++ key_atoms char_signed interned opts x c0)
                 ++ atoms_pairs char_signed interned opts
                      (key_atoms char_signed interned opts) pairs c1))%list.
    rewrite !app_assoc.
    eapply IH; [|exact Hrs]. eapply Hx; [|exact Hr].
    eapply build_key_trace; eauto.
Qed.

Lemma build_val_trace v : extends_trace char_signed interned opts v.
Proof.
  induction v using yyjson_val_ind'; intros ctx ks atoms r ctx' Hinv;
    cbn [build_val doc_keys key_atoms];
    try (intros Hb; apply pair_equal_spec in Hb as [<- <-];
         rewrite !app_nil_r; exact Hinv).
  - unfold build_str, make_fstr, make_str.
    destruct (p_freeze opts);
      [destruct interned; [destruct (fstrings _ !! s)|]|];
      intros [= <- <-]; rewrite !app_nil_r; exact Hinv.
  - unfold build_arr. destruct items as [|x items].
    + intros [= <- <-]. simpl. rewrite !app_nil_r. exact Hinv.
    + destruct (build_items _ (x :: items) ctx) as [vals c1] eqn:Hb.
      intros [= <- <-].
      eapply build_items_trace; eauto.
  - unfold build_obj. destruct pairs as [|kv pairs].
    + intros [= <- <-]. simpl. rewrite !app_nil_r. exact Hinv.
    + destruct (build_pairs _ _ _ _ (kv :: pairs) ctx) as [kvs c1] eqn:Hb.
      intros [= <- <-].
      eapply build_pairs_trace; eauto.
Qed.

(** The key of a pair has the bytes of the key of the document. *)
Lemma build_key_bytes ks atoms k ctx a ctx' :
  trace_inv char_signed (cache_in_use opts ctx) ks atoms ->
  build_key char_signed interned opts k ctx = (a, ctx') ->
  atom_bytes a = Some k.
Proof.
  intros Hinv Hk.
  pose proof (build_key_trace ks atoms k ctx a ctx' Hinv Hk) as Hinv1.
  apply (ti_bytes _ _ _ _ Hinv1 (length ks) k a).
  - rewrite lookup_app_r, Nat.sub_diag by lia. reflexivity.
  - rewrite lookup_app_r by (rewrite (ti_length _ _ _ _ Hinv); lia).
    rewrite (ti_length _ _ _ _ Hinv), Nat.sub_diag. reflexivity.
Qed.

(** The keys of a buffer have the bytes of the keys of the object. *)
Lemma build_pairs_bytes pairs :
  forall ctx ks atoms kvs ctx',
    trace_inv char_signed (cache_in_use opts ctx) ks atoms ->
    build_pairs char_signed interned opts (build_val char_signed interned opts)
      pairs ctx = (kvs, ctx') ->
    map (fun kv => atom_bytes kv.1) kvs = map (fun kv => Some kv.1) pairs.
Proof.
  induction pairs as [|[k x] pairs IH]; intros ctx ks atoms kvs ctx' Hinv;
    cbn [build_pairs].
  - intros [= <- <-]. reflexivity.
  - destruct (build_key char_signed interned opts k ctx) as [a c0] eqn:Ha.
    destruct (build_val char_signed interned opts x c0) as [r c1] eqn:Hr.
    destruct (build_pairs _ _ _ _ pairs c1) as [rs c2] eqn:Hrs.
    intros [= <- <-]. cbn [map fst]. f_equal.
    + eapply build_key_bytes; eauto.
    + eapply IH; [|exact Hrs].
      eapply build_val_trace; [|exact Hr]. eapply build_key_trace; eauto.
Qed.

Lemma build_items_keys items :
  Forall (keeps_keys char_signed interned opts) items ->
  forall ctx ks atoms vals ctx',
    trace_inv char_signed (cache_in_use opts ctx) ks atoms ->
    build_items (build_val char_signed interned opts) items ctx = (vals, ctx') ->
    forallb keys_distinct items = true ->
    flat_map value_keys vals
    = atoms_items char_signed interned opts (key_atoms char_signed interned opts)
        items ctx.
Proof.
  induction 1 as [|x items Hx _ IH]; intros ctx ks atoms vals ctx' Hinv;
    cbn [build_items atoms_items forallb].
  - intros [= <- <-] _. reflexivity.
  - destruct (build_val char_signed interned opts x ctx) as [r c1] eqn:Hr.
    destruct (build_items _ items c1) as [rs c2] eqn:Hrs.
    intros [= <- <-] Hd. apply andb_true_iff in Hd as [Hd1 Hd2].
    cbn [flat_map snd]. f_equal.
    + eapply Hx; eauto.
    + eapply IH; [|exact Hrs|exact Hd2]. eapply build_val_trace; eauto.
Qed.

Lemma build_pairs_keys pairs :
  Forall (fun kv => keeps_keys char_signed interned opts kv.2) pairs ->
  forall ctx ks atoms kvs ctx',
    trace_inv char_signed (cache_in_use opts ctx) ks atoms ->
    build_pairs char_signed interned opts (build_val char_signed interned opts)
      pairs ctx = (kvs, ctx') ->
    forallb (fun kv => keys_distinct kv.2) pairs = true ->
    flat_map (fun kv => kv.1 :: value_keys kv.2) kvs
    = atoms_pairs char_signed interned opts (key_atoms char_signed interned opts)
        pairs ctx.
Proof.
  induction 1 as [|[k x] pairs Hx _ IH]; intros ctx ks atoms kvs ctx' Hinv;
    cbn [build_pairs atoms_pairs forallb].
  - intros [= <- <-] _. reflexivity.
  - destruct (build_key char_signed interned opts k ctx) as [a c0] eqn:Ha.
    destruct (build_val char_signed interned opts x c0) as [r c1] eqn:Hr.
    destruct (build_pairs _ _ _ _ pairs c1) as [rs c2] eqn:Hrs.
    intros [= <- <-] Hd. apply andb_true_iff in Hd as [Hd1 Hd2].
    cbn [flat_map fst snd].
    pose proof (build_key_trace ks atoms k ctx a c0 Hinv Ha) as Hinv0.
    change (a :: value_keys r ++ flat_map (fun kv => kv.1 :: value_keys kv.2) rs
            = a :: key_atoms char_signed interned opts x c0
                ++ atoms_pairs char_signed interned opts
                     (key_atoms char_signed interned opts) pairs c1)%list.
    f_equal. f_equal.
    + eapply Hx; eauto.
    + eapply IH; [|exact Hrs|exact Hd2]. eapply build_val_trace; eauto.
Qed.

Lemma build_val_keys v : keeps_keys char_signed interned opts v.
Proof.
  induction v using yyjson_val_ind'; intros ctx ks atoms r ctx' Hinv;
    cbn [build_val keys_distinct key_atoms];
    try (intros Hb _; apply pair_equal_spec in Hb as [<- <-];
         rewrite ?value_keys_build_num; reflexivity).
  - intros Hb _. apply pair_equal_spec in Hb as [<- <-]. destruct b; reflexivity.
  - unfold build_str, make_fstr, make_str.
    destruct (p_freeze opts);
      [destruct interned; [destruct (fstrings _ !! s)|]|];
      intros [= <- <-] _; reflexivity.
  - unfold build_arr. destruct items as [|x items].
    + intros [= <- <-] _. reflexivity.
    + destruct (build_items _ (x :: items) ctx) as [vals c1] eqn:Hb.
      intros [= <- <-] Hd. cbn [value_keys].
      eapply build_items_keys; eauto.
  - unfold build_obj. destruct pairs as [|kv pairs].
    + intros [= <- <-] _. reflexivity.
    + destruct (build_pairs _ _ _ _ (kv :: pairs) ctx) as [kvs c1] eqn:Hb.
      intros [= <- <-] Hd. apply andb_true_iff in Hd as [Hnd Hd].
      apply bool_decide_eq_true in Hnd.
      cbn [value_keys]. rewrite hash_bulk_insert_distinct.
      * eapply build_pairs_keys; eauto.
      * rewrite app_nil_l.
        rewrite (build_pairs_bytes _ ctx ks atoms kvs c1 Hinv Hb).
        rewrite <- (map_map fst Some).
        apply (NoDup_fmap_2 Some). exact Hnd.
Qed.

Lemma build_items_looked_up items :
  Forall (keys_looked_up char_signed interned opts) items ->
  forall ctx vals ctx',
    build_items (build_val char_signed interned opts) items ctx = (vals, ctx') ->
    Forall (fun a => a ∈ atoms_items char_signed interned opts
                           (key_atoms char_signed interned opts) items ctx)
      (flat_map value_keys vals).
Proof.
  induction 1 as [|x items Hx _ IH]; intros ctx vals ctx';
    cbn [build_items atoms_items].
  - intros [= <- <-]. constructor.
  - destruct (build_val char_signed interned opts x ctx) as [r c1] eqn:Hr.
    destruct (build_items _ items c1) as [rs c2] eqn:Hrs.
    intros [= <- <-]. cbn [flat_map snd]. apply Forall_app. split.
    + eapply Forall_impl; [exact (Hx ctx r c1 Hr)|].
      intros a Ha. apply elem_of_app. left. exact Ha.
    + eapply Forall_impl; [exact (IH c1 rs c2 Hrs)|].
      intros a Ha. apply elem_of_app. right. exact Ha.
Qed.

Lemma build_pairs_looked_up pairs :
  Forall (fun kv => keys_looked_up char_signed interned opts kv.2) pairs ->
  forall ctx kvs ctx',
    build_pairs char_signed interned opts (build_val char_signed interned opts)
      pairs ctx = (kvs, ctx') ->
    Forall (fun a => a ∈ atoms_pairs char_signed interned opts
                           (key_atoms char_signed interned opts) pairs ctx)
      (flat_map (fun kv => kv.1 :: value_keys kv.2) kvs).
Proof.
  induction 1 as [|[k x] pairs Hx _ IH]; intros ctx kvs ctx';
    cbn [build_pairs atoms_pairs].
  - intros [= <- <-]. constructor.
  - destruct (build_key char_signed interned opts k ctx) as [a c0] eqn:Ha.
    destruct (build_val char_signed interned opts x c0) as [r c1] eqn:Hr.
    destruct (build_pairs _ _ _ _ pairs c1) as [rs c2] eqn:Hrs.
    intros [= <- <-]. cbn [flat_map fst snd]. apply Forall_app. split.
    + constructor; [apply elem_of_cons; left; reflexivity|].
      eapply Forall_impl; [exact (Hx c0 r c1 Hr)|].
      intros b Hb. apply elem_of_cons. right. apply elem_of_app. left. exact Hb.
    + eapply Forall_impl; [exact (IH c1 rs c2 Hrs)|].
      intros b Hb. apply elem_of_cons. right. apply elem_of_app. right. exact Hb.
Qed.

Lemma build_val_looked_up v : keys_looked_up char_signed interned opts v.
Proof.
  induction v using yyjson_val_ind'; intros ctx r ctx';
    cbn [build_val key_atoms];
    try (intros Hb; apply pair_equal_spec in Hb as [<- <-];
         rewrite ?value_keys_build_num; constructor).
  - intros Hb. apply pair_equal_spec in Hb as [<- <-]. destruct b; constructor.
  - unfold build_str, make_fstr, make_str.
    destruct (p_freeze opts);
      [destruct interned; [destruct (fstrings _ !! s)|]|];
      intros [= <- <-]; constructor.
  - unfold build_arr. destruct items as [|x items].
    + intros [= <- <-]. constructor.
    + destruct (build_items _ (x :: items) ctx) as [vals c1] eqn:Hb.
      intros [= <- <-]. cbn [value_keys].
      eapply build_items_looked_up; eauto.
  - unfold build_obj. destruct pairs as [|kv pairs].
    + intros [= <- <-]. constructor.
    + destruct (build_pairs _ _ _ _ (kv :: pairs) ctx) as [kvs c1] eqn:Hb.
      intros [= <- <-]. cbn [value_keys]. apply hash_bulk_insert_keys.
      eapply build_pairs_looked_up; eauto.
Qed.

(** Every key of the result of [yyjson_build_ruby_object] is the value of
    a lookup. *)
Lemma build_ruby_object_looked_up root os :
  Forall (fun a => a ∈ key_atoms char_signed interned opts root (fresh_ctx os))
    (value_keys (yyjson_build_ruby_object char_signed interned opts root os).1).
Proof.
  unfold yyjson_build_ruby_object.
  destruct (is_container root) eqn:Hc; simpl.
  - fold (fresh_ctx os).
    destruct (build_val _ _ _ root (fresh_ctx os)) as [v ctx] eqn:Hb. simpl.
    exact (build_val_looked_up root (fresh_ctx os) v ctx Hb).
  - destruct root; try discriminate; cbn [build_val_simple fst];
      rewrite ?value_keys_build_num; try constructor.
    + destruct b; constructor.
    + destruct (p_freeze opts); [|constructor].
      unfold make_fstr. destruct interned; [destruct (fstrings os !! s)|];
        constructor.
Qed.

(** The keys of the result of [yyjson_build_ruby_object] are the values of
    the lookups, when no object of the document has a key twice. *)
Lemma build_ruby_object_keys root os :
  keys_distinct root = true ->
  value_keys (yyjson_build_ruby_object char_signed interned opts root os).1
  = key_atoms char_signed interned opts root (fresh_ctx os).
Proof.
  intros Hd. unfold yyjson_build_ruby_object.
  destruct (is_container root) eqn:Hc; simpl.
  - fold (fresh_ctx os).
    destruct (build_val _ _ _ root (fresh_ctx os)) as [v ctx] eqn:Hb. simpl.
    apply (build_val_keys root (fresh_ctx os) [] [] v ctx); [|exact Hb|exact Hd].
    unfold cache_in_use, fresh_ctx. simpl. destruct (p_symbolize_names opts);
      apply trace_inv_empty.
  - destruct root; try discriminate; cbn [build_val_simple key_atoms fst];
      rewrite ?value_keys_build_num; try reflexivity.
    + destruct b; reflexivity.
    + destruct (p_freeze opts); [|reflexivity].
      unfold make_fstr. destruct interned; [destruct (fstrings os !! s)|];
        reflexivity.
Qed.

(** The relation at the end of [yyjson_build_ruby_object]. *)
Lemma build_ruby_object_trace root os :
  exists c,
    trace_inv char_signed c (doc_keys root)
      (key_atoms char_signed interned opts root (fresh_ctx os)).
Proof.
  destruct (build_val char_signed interned opts root (fresh_ctx os)) as [v ctx] eqn:Hb.
  exists (cache_in_use opts ctx).
  apply (build_val_trace root (fresh_ctx os) [] [] v ctx); [|exact Hb].
  unfold cache_in_use, fresh_ctx. simpl. destruct (p_symbolize_names opts);
    apply trace_inv_empty.
Qed.

End BuilderFacts.

(** With an unsigned [char], and for keys of ASCII bytes with any [char],
    the bytes are compared as unsigned values at every position. *)
Lemma bcode_plain (char_signed : bool) (s : string) :
  Forall (fun b => char_signed = false \/ u8 b < 128) (list_ascii_of_string s) ->
  bcode char_signed s = map u8 (list_ascii_of_string s).
Proof.
  intros H. unfold bcode. cbn zeta.
  set (l := list_ascii_of_string s) in *.
  set (w := (8 * (length l / 8))%nat).
  rewrite <- (take_drop w l) at 3. rewrite map_app. f_equal.
  apply map_ext_Forall. rewrite <- (take_drop w l) in H.
  apply Forall_app in H as [_ H]. eapply Forall_impl; [exact H|].
  intros b Hb. unfold char_val. destruct Hb as [->|Hb]; [reflexivity|].
  destruct (Z.leb_spec 128 (u8 b)); [lia|]. rewrite andb_false_r. reflexivity.
Qed.

Lemma cacheable_iff (s : string) :
  uncacheable s = false
  <-> 1 <= strlen s <= 55 /\ isalpha (first_byte s) = true.
Proof.
  unfold uncacheable, CACHE_MAX_LEN.
  rewrite !orb_false_iff, Z.ltb_ge, Z.eqb_neq, negb_false_iff.
  unfold strlen. pose proof (Nat2Z.is_nonneg (String.length s)). intuition lia.
Qed.

(** With an unsigned [char], and between keys of ASCII bytes with any
    [char], the order of the entries is the order by unsigned bytes. *)
Lemma entry_lt_plain (char_signed : bool) (e1 e2 : cache_entry_t) :
  char_signed = false \/ (all_ascii (ptr e1) /\ all_ascii (ptr e2)) ->
  entry_lt char_signed e1 e2 -> entry_lt_bytes e1 e2.
Proof.
  intros Hp. unfold entry_lt, entry_lt_bytes, lex_lt, memcmp_sign.
  assert (Hb : forall e, (char_signed = false \/ all_ascii (ptr e)) ->
                         bcode char_signed (ptr e) = map u8 (list_ascii_of_string (ptr e))).
  { intros e He. apply bcode_plain. destruct He as [He|He].
    - apply Forall_forall. intros b _. left. exact He.
    - eapply Forall_impl; [exact He|]. intros b Hb. right. exact Hb. }
  rewrite (Hb e1), (Hb e2) by (destruct Hp as [Hp|[H1 H2]]; auto).
  auto.
Qed.

Lemma StronglySorted_on {A} (R R' : A -> A -> Prop) (P : A -> Prop) (l : list A) :
  (forall x y, P x -> P y -> R x y -> R' x y) ->
  Forall P l -> StronglySorted R l -> StronglySorted R' l.
Proof.
  intros HR HP Hs. induction Hs as [|x l Hs IH Hx]; [constructor|].
  apply Forall_cons in HP as [Px HP]. constructor; [apply IH, HP|].
  apply Forall_forall. intros y Hy.
  apply HR; [exact Px|exact (proj1 (Forall_forall _ _) HP y Hy)|].
  exact (proj1 (Forall_forall _ _) Hx y Hy).
Qed.

(** A cache with room holds a cacheable key after the lookup of the
    key. *)
Lemma get_key_with_held (char_signed : bool)
  (mk : string -> object_space -> rvalue * object_space)
  (c : string_cache_t) (s : string) (os : object_space) :
  cache_inv char_signed c -> uncacheable s = false -> cache_len c < CACHE_SIZE ->
  exists e, e ∈ (get_key_with char_signed mk c s os).1.2 /\ ptr e = s.
Proof.
  intros Hinv Hu Hl.
  destruct (get_key_with char_signed mk c s os) as [[v c'] os'] eqn:Hg.
  destruct (get_key_outcome char_signed mk c s os Hinv v c' os' Hg)
    as [Hb|e _ He Hp|p _ _ _ _|_ _ Hfull]; cbn [fst snd].
  - congruence.
  - exists e. auto.
  - exists (new_entry s (mk s os).1). split; [|reflexivity].
    apply elem_of_app. right. apply elem_of_cons. left. reflexivity.
  - lia.
Qed.

(** X29: every cache reached from the empty one by lookups is sorted by
    hash, then length, then the bytes of the key as [fast_cmp] compares
    them, position by position: as unsigned values in the whole eight-byte
    words and as [char]s after them, which is the order by unsigned bytes
    when [char] is unsigned or the keys are ASCII; it holds at most 63
    entries; further lookups keep every entry in place among the entries
    they add, one lookup adds at most one entry, a cache of 63 entries is
    left as it is, and a cache with room holds a cacheable key after the
    lookup of the key. *)
Theorem cache_invariant_preserved (char_signed : bool) (c c' : string_cache_t) :
  rtc (cache_step char_signed) [] c ->
  rtc (cache_step char_signed) c c' ->
  StronglySorted (entry_lt char_signed) c'
  /\ cache_len c' <= CACHE_SIZE
  /\ c `sublist_of` c'
  /\ (cache_len c = CACHE_SIZE -> c' = c)
  /\ (forall c2, cache_step char_signed c' c2 ->
        c2 = c' \/ (cache_len c' < CACHE_SIZE /\ cache_len c2 = cache_len c' + 1))
  /\ (forall s,
        Forall (fun b => char_signed = false \/ u8 b < 128) (list_ascii_of_string s) ->
        bcode char_signed s = map u8 (list_ascii_of_string s))
  /\ (char_signed = false \/ Forall (fun e => all_ascii (ptr e)) c' ->
      StronglySorted entry_lt_bytes c')
  /\ (forall interned s os,
        uncacheable s = false -> cache_len c' < CACHE_SIZE ->
        (exists e, e ∈ (get_str_key char_signed interned c' s os).1.2 /\ ptr e = s)
        /\ (exists e, e ∈ (get_sym_key char_signed c' s os).1.2 /\ ptr e = s)).
Proof.
  intros H0 H1.
  destruct (cache_steps_inv char_signed [] c (cache_inv_empty char_signed) H0)
    as (Hc & _ & _).
  destruct (cache_steps_inv char_signed c c' Hc H1) as (Hc' & Hsub & Hfull).
  split; [apply Hc'|]. split; [apply Hc'|]. split; [exact Hsub|].
  split; [exact Hfull|]. split; [|split; [|split]].
  - intros c2 Hstep.
    destruct (cache_step_inv char_signed c' c2 Hc' Hstep) as (_ & _ & Hf & Hg).
    destruct Hg as [Hg|Hg]; [left; exact Hg|].
    destruct Hc' as (_ & _ & Hl).
    destruct (Z.eq_dec (cache_len c') CACHE_SIZE) as [He|Hne].
    + left. apply Hf, He.
    + right. split; [lia|exact Hg].
  - apply bcode_plain.
  - intros Hp. destruct Hc' as (Hs & _ & _).
    apply (StronglySorted_on (entry_lt char_signed) entry_lt_bytes
             (fun e => char_signed = false \/ all_ascii (ptr e)) c'); [| |exact Hs].
    + intros x y Px Py. apply entry_lt_plain.
      destruct Px as [Px|Px]; [left; exact Px|].
      destruct Py as [Py|Py]; [left; exact Py|]. right. split; assumption.
    + destruct Hp as [Hp|Hp].
      * apply Forall_forall. intros e _. left. exact Hp.
      * eapply Forall_impl; [exact Hp|]. intros e He. right. exact He.
  - intros interned s os Hu Hl. rewrite get_str_key_with, get_sym_key_with.
    split; apply get_key_with_held; assumption.
Qed.

(** C8, where the code departs from it: with a signed [char] the lookups
    of two keys of one hash and one length leave the entries in the order
    of [fast_cmp], which compares the byte 0xC3 after the last whole word
    as a negative [char]: the key with that byte stands first, although
    [memcmp] puts it last, and the array is not sorted by the bytes of the
    keys.  With an unsigned [char] the same lookups leave the two entries
    in the order of their bytes. *)
Lemma signed_char_breaks_byte_order :
  let c1 := (get_str_key true false [] colliding_key_ascii empty_space).1.2 in
  let c2 := (get_str_key true false c1 colliding_key_utf8 empty_space).1.2 in
  let d1 := (get_str_key false false [] colliding_key_ascii empty_space).1.2 in
  let d2 := (get_str_key false false d1 colliding_key_utf8 empty_space).1.2 in
  rtc (cache_step true) [] c2
  /\ map ptr c2 = [colliding_key_utf8; colliding_key_ascii]
  /\ map hash c2 = [2681487859; 2681487859]
  /\ map len c2 = [7; 7]
  /\ memcmp_sign colliding_key_ascii colliding_key_utf8 = -1
  /\ fast_cmp true colliding_key_ascii colliding_key_utf8 7 = 1
  /\ fast_cmp false colliding_key_ascii colliding_key_utf8 7 = -1
  /\ ~ StronglySorted entry_lt_bytes c2
  /\ map ptr d2 = [colliding_key_ascii; colliding_key_utf8].
Proof.
  intros c1 c2 d1 d2. split.
  { apply (rtc_l _ _ c1); [apply (step_str true false [] colliding_key_ascii empty_space)|].
    apply rtc_once. apply (step_str true false c1 colliding_key_utf8 empty_space). }
  split; [vm_compute; reflexivity|]. split; [vm_compute; reflexivity|].
  split; [vm_compute; reflexivity|]. split; [vm_compute; reflexivity|].
  split; [vm_compute; reflexivity|]. split; [vm_compute; reflexivity|].
  split; [|vm_compute; reflexivity].
  intros Hs.
  assert (Hc : c2 = [new_entry colliding_key_utf8 (R_string 1%positive true colliding_key_utf8);
                     new_entry colliding_key_ascii (R_string 1%positive true colliding_key_ascii)])
    by (vm_compute; reflexivity).
  rewrite Hc in Hs. apply StronglySorted_inv in Hs as [_ Hf].
  apply Forall_cons in Hf as [Hlt _]. revert Hlt. unfold entry_lt_bytes.
  vm_compute. intros [H|[_ [H|[_ H]]]]; discriminate H.
Qed.

Lemma cache_invariant_preserved_witness :
  let c1 := (get_str_key true false [] "id" empty_space).1.2 in
  let c2 := (get_str_key true false c1 "name" empty_space).1.2 in
  let c3 := (get_str_key true false c2 "email" empty_space).1.2 in
  let c4 := (get_str_key true false c3 "id" empty_space).1.2 in
  rtc (cache_step true) [] c2 /\ rtc (cache_step true) c2 c4
  /\ map ptr c4 = ["id"; "email"; "name"]
  /\ StronglySorted (entry_lt true) c4 /\ cache_len c4 <= CACHE_SIZE
  /\ c2 `sublist_of` c4.
Proof.
  intros c1 c2 c3 c4.
  assert (H02 : rtc (cache_step true) [] c2).
  { apply (rtc_l _ _ c1); [apply (step_str true false [] "id" empty_space)|].
    apply rtc_once. apply (step_str true false c1 "name" empty_space). }
  assert (H24 : rtc (cache_step true) c2 c4).
  { apply (rtc_l _ _ c3); [apply (step_str true false c2 "email" empty_space)|].
    apply rtc_once. apply (step_str true false c3 "id" empty_space). }
  destruct (cache_invariant_preserved true c2 c4 H02 H24) as (H1 & H2 & H3 & _).
  split; [exact H02|]. split; [exact H24|].
  split; [vm_compute; reflexivity|]. auto.
Defined.

(** C7, as the code has it: the values the lookups of the builder return
    for the keys of a document, among which are the keys of the hashes it
    returns, and which are those keys, one by one, when no object has a key
    twice, spell the keys; all the occurrences of a cacheable key
    (1 to 55 bytes, the first one an ASCII letter) that occurs when fewer
    than 63 distinct cacheable keys have occurred are given one and the
    same value; a key that is not cacheable, and a cacheable key that a
    full cache does not hold, get a value made anew that leaves the cache
    as it is; two strings made anew are equal in content and, without
    interned strings, are two objects. *)
Theorem cached_keys_share_one_atom (char_signed interned : bool)
  (opts : yyjson_parse_options) (root : yyjson_val) (os : object_space) :
  let v := (yyjson_build_ruby_object char_signed interned opts root os).1 in
  let ks := doc_keys root in
  let atoms := key_atoms char_signed interned opts root (fresh_ctx os) in
  length atoms = length ks
  /\ (forall i k a, ks !! i = Some k -> atoms !! i = Some a -> atom_bytes a = Some k)
  /\ (forall i0 i j k,
        ks !! i0 = Some k -> uncacheable k = false ->
        (distinct_before ks i0 < 63)%nat ->
        ks !! i = Some k -> ks !! j = Some k ->
        atoms !! i = atoms !! j)
  /\ (forall s, uncacheable s = false
                <-> 1 <= strlen s <= 55 /\ isalpha (first_byte s) = true)
  /\ (forall c s os',
        uncacheable s = true ->
        get_str_key char_signed interned c s os'
        = ((make_fstr interned s os').1, c, (make_fstr interned s os').2)
        /\ get_sym_key char_signed c s os' = (R_symbol s, c, os'))
  /\ (forall c s os',
        cache_inv char_signed c -> cache_len c = CACHE_SIZE ->
        (forall e, e ∈ c -> ptr e <> s) ->
        get_str_key char_signed interned c s os'
        = ((make_fstr interned s os').1, c, (make_fstr interned s os').2)
        /\ get_sym_key char_signed c s os' = (R_symbol s, c, os'))
  /\ (forall s os',
        let r1 := make_fstr false s os' in
        let r2 := make_fstr false s r1.2 in
        r1.1 <> r2.1 /\ atom_bytes r1.1 = Some s /\ atom_bytes r2.1 = Some s)
  /\ (forall a, a ∈ value_keys v -> a ∈ atoms)
  /\ (keys_distinct root = true -> value_keys v = atoms).
Proof.
  intros v ks atoms.
  destruct (build_ruby_object_trace char_signed interned opts root os) as [c Hinv].
  fold ks atoms in Hinv.
  split; [apply (ti_length _ _ _ _ Hinv)|].
  split; [apply (ti_bytes _ _ _ _ Hinv)|].
  split.
  { intros i0 i j k H0 Hu Hd Hi Hj.
    destruct (ti_early _ _ _ _ Hinv i0 k H0 Hu Hd) as (e & He & <-).
    rewrite (ti_hit _ _ _ _ Hinv e i He Hi), (ti_hit _ _ _ _ Hinv e j He Hj).
    reflexivity. }
  split; [apply cacheable_iff|].
  split.
  { intros c0 s os' Hu. unfold get_str_key, get_sym_key. rewrite Hu. simpl.
    destruct (make_fstr interned s os'). auto. }
  split.
  { intros c0 s os' Hc Hl Hn.
    assert (Hfull : forall mk v1 c1 os1,
               get_key_with char_signed mk c0 s os' = (v1, c1, os1) ->
               (v1, c1, os1) = ((mk s os').1, c0, (mk s os').2)).
    { intros mk v1 c1 os1 Hg.
      destruct (get_key_outcome char_signed mk c0 s os' Hc v1 c1 os1 Hg)
        as [Hu|e Hu He Hp|p Hu Hn' Hl' Hi|Hu Hn' Hl']; try reflexivity.
      - exfalso. exact (Hn e He Hp).
      - lia. }
    rewrite get_str_key_with, get_sym_key_with. split.
    - destruct (get_key_with char_signed (make_fstr interned) c0 s os')
        as [[v1 c1] os1] eqn:Hg. apply (Hfull _ _ _ _ Hg).
    - destruct (get_key_with char_signed make_sym c0 s os')
        as [[v1 c1] os1] eqn:Hg. apply (Hfull _ _ _ _ Hg). }
  split.
  { intros s os' r1 r2. subst r1 r2. simpl. repeat split.
    intros [= H]. lia. }
  split; [|apply build_ruby_object_keys].
  apply Forall_forall, build_ruby_object_looked_up.
Qed.

(** The claim as C7 states it fails on [crowded_doc]: both occurrences of
    the cacheable key ["zz"] come when the cache is full, and without
    interned strings each one gets a string object of its own. *)
Lemma full_cache_breaks_identity :
  let v := (yyjson_build_ruby_object true false default_parse_opts
              crowded_doc empty_space).1 in
  doc_keys crowded_doc !! 63%nat = Some "zz"
  /\ doc_keys crowded_doc !! 64%nat = Some "zz"
  /\ uncacheable "zz" = false
  /\ value_keys v !! 63%nat = Some (R_string 64%positive true "zz")
  /\ value_keys v !! 64%nat = Some (R_string 65%positive true "zz")
  /\ value_keys v !! 63%nat <> value_keys v !! 64%nat.
Proof.
  vm_compute. repeat split. discriminate.
Qed.

(** Two objects with the key ["id"]: one string serves both. *)
Lemma cached_keys_share_one_atom_witness :
  let root := val_arr [val_obj [("id", val_sint 1)]; val_obj [("id", val_sint 2)]] in
  let v := (yyjson_build_ruby_object true false default_parse_opts root
              empty_space).1 in
  value_keys v !! 0%nat = value_keys v !! 1%nat.
Proof.
  intros root v.
  pose proof (cached_keys_share_one_atom true false default_parse_opts root
                empty_space) as (_ & _ & Hshare & _ & _ & _ & _ & _ & Hkeys).
  cbn zeta in Hshare, Hkeys. fold v in Hkeys. rewrite Hkeys by reflexivity.
  apply (Hshare 0%nat 0%nat 1%nat "id"); vm_compute; (reflexivity || lia).
Defined.

(** * Further properties *)

(** ** Option resolution, field by field *)

Section DumpFieldFacts.

Variable NUM2INT : VALUE -> result Z.

(** What dump resolution returns for [pretty], [indent] and [escape_html],
    and when it raises. *)
Lemma extract_dump_options_layout (h : rb_hash) :
  yyjson_extract_dump_options NUM2INT (Some h)
  = (n ← (if NIL_P (rb_hash_aref h "indent") then Ok 2
          else NUM2INT (rb_hash_aref h "indent"));
     let o := dump_mode_defaults (rb_hash_aref h "mode")
       {| pretty := if negb (NIL_P (rb_hash_aref h "indent")) && (0 <? n) then true
                    else overridden h "pretty" false;
          escape_slash := overridden h "escape_slash" false;
          allow_nan := overridden h "allow_nan" true;
          escape_html := false; indent := n; mode := MODE_COMPAT |} in
     Ok {| pretty := pretty o; escape_slash := escape_slash o;
           allow_nan := allow_nan o;
           escape_html := overridden h "escape_html" (escape_html o);
           indent := indent o; mode := mode o |}).
Proof.
  unfold yyjson_extract_dump_options, overridden.
  destruct (NIL_P (rb_hash_aref h "indent")); simpl.
  - destruct (NIL_P (rb_hash_aref h "pretty")), (NIL_P (rb_hash_aref h "escape_slash")),
      (NIL_P (rb_hash_aref h "allow_nan")), (NIL_P (rb_hash_aref h "escape_html"));
      simpl; unfold dump_mode_defaults;
      destruct (rb_hash_aref h "mode"); try reflexivity;
      repeat (destruct (String.eqb _ _); try reflexivity).
  - destruct (NUM2INT (rb_hash_aref h "indent")) as [n|e]; simpl; [|reflexivity].
    destruct (NIL_P (rb_hash_aref h "pretty")), (NIL_P (rb_hash_aref h "escape_slash")),
      (NIL_P (rb_hash_aref h "allow_nan")), (NIL_P (rb_hash_aref h "escape_html")),
      (0 <? n);
      simpl; unfold dump_mode_defaults;
      destruct (rb_hash_aref h "mode"); try reflexivity;
      repeat (destruct (String.eqb _ _); try reflexivity).
Qed.

End DumpFieldFacts.

(** X1: dump-option resolution raises exactly when [:indent] is given and
    its conversion to an int raises, with that exception; without [:indent]
    the resolved indent is 2 and [pretty] is the explicit [:pretty], or
    false; with an [:indent] that converts to [n] the resolved indent is [n]
    and a positive [n] sets [pretty] whatever [:pretty] says; [escape_html]
    is the explicit [:escape_html] when there is one, and otherwise true
    exactly under [:rails]. *)
Theorem dump_indent_forces_pretty (NUM2INT : VALUE -> result Z) (h : rb_hash) :
  let ind := rb_hash_aref h "indent" in
  (forall e, yyjson_extract_dump_options NUM2INT (Some h) = Raise e
             <-> ind <> Qnil /\ NUM2INT ind = Raise e)
  /\ (forall o, yyjson_extract_dump_options NUM2INT (Some h) = Ok o ->
        (ind = Qnil -> indent o = 2 /\ pretty o = overridden h "pretty" false)
        /\ (forall n, ind <> Qnil -> NUM2INT ind = Ok n ->
              indent o = n
              /\ pretty o = if 0 <? n then true else overridden h "pretty" false)
        /\ escape_html o
           = overridden h "escape_html"
               (escape_html (dump_mode_defaults (rb_hash_aref h "mode") dump_defaults))).
Proof.
  intros ind. rewrite extract_dump_options_layout. fold ind.
  assert (Hcase : (NIL_P ind = true /\ ind = Qnil)
                  \/ (NIL_P ind = false /\ ind <> Qnil)).
  { destruct ind; simpl; auto; right; split; congruence. }
  assert (Hmode : forall o0,
            let o := dump_mode_defaults (rb_hash_aref h "mode") o0 in
            pretty o = pretty o0 /\ indent o = indent o0
            /\ escape_html o
               = if escape_html o0 then true
                 else escape_html (dump_mode_defaults (rb_hash_aref h "mode") dump_defaults)).
  { intros o0. unfold dump_mode_defaults.
    destruct (rb_hash_aref h "mode"); simpl;
      repeat (destruct (String.eqb _ _); simpl);
      destruct (escape_html o0); auto. }
  destruct Hcase as [[Hn Hq]|[Hn Hq]]; rewrite Hn; simpl.
  - split.
    + intros e. split; [discriminate|]. intros [Hne _]. contradiction.
    + intros o [= <-]. simpl.
      match goal with |- context [dump_mode_defaults _ ?o0] =>
        destruct (Hmode o0) as (Hp & Hi & He) end.
      simpl in Hp, Hi, He. rewrite Hp, Hi, He.
      repeat split; try reflexivity; intros; contradiction.
  - destruct (NUM2INT ind) as [m|e'] eqn:Hi'; simpl.
    + split.
      * intros e. split; [discriminate|]. intros [_ H]. discriminate.
      * intros o [= <-]. simpl.
        match goal with |- context [dump_mode_defaults _ ?o0] =>
          destruct (Hmode o0) as (Hp & Hi & He) end.
        simpl in Hp, Hi, He. rewrite Hp, Hi, He.
        split; [intros Hq'; contradiction|]. split; [|reflexivity].
        intros k _ [= ->]. split; reflexivity.
    + split.
      * intros e. split.
        { intros [= <-]. split; [exact Hq|reflexivity]. }
        { intros [_ H]. congruence. }
      * intros o H. discriminate.
Qed.

Lemma same_but_aref (name k : string) (h h' : rb_hash) :
  same_but name h h' -> String.eqb k name = false ->
  rb_hash_aref h k = rb_hash_aref h' k.
Proof.
  intros H Hk. apply H. intros ->. rewrite String.eqb_refl in Hk. discriminate.
Qed.

Lemma dump_mode_defaults_inert (val : VALUE) (o : yyjson_dump_options) :
  dump_mode_acts val = false -> mode o = MODE_COMPAT ->
  dump_mode_defaults val o = o.
Proof.
  unfold dump_mode_acts, dump_mode_defaults. destruct val; try reflexivity.
  destruct (String.eqb name "strict"); [discriminate|].
  destruct (String.eqb name "rails") eqn:Hr; simpl; [rewrite ?orb_true_r; discriminate|].
  destruct (String.eqb name "object"); simpl; [discriminate|].
  intros _ Hm. destruct (String.eqb name "compat"); [|reflexivity].
  destruct o; simpl in *. subst. reflexivity.
Qed.

Lemma parse_mode_defaults_inert (val : VALUE) (o : yyjson_parse_options) :
  parse_mode_acts val = false -> p_mode o = MODE_COMPAT ->
  parse_mode_defaults val o = o.
Proof.
  unfold parse_mode_acts, parse_mode_defaults. destruct val; try reflexivity.
  destruct (String.eqb name "strict"); [discriminate|].
  destruct (String.eqb name "rails") eqn:Hr; simpl; [discriminate|].
  destruct (String.eqb name "object"); simpl; [discriminate|].
  destruct (String.eqb name "custom"); simpl; [discriminate|].
  intros _ Hm. destruct (String.eqb name "compat"); [|reflexivity].
  destruct o; simpl in *. subst. reflexivity.
Qed.

(** X2: a [:mode] the resolver does not act on is as good as none: for
    two hashes that differ in [:mode] alone, one without it, the dump
    resolver returns the same unless the mode is [:strict], [:rails] or
    [:object], and the parse resolver the same unless it is one of those or
    [:custom]; so [mode: :custom] resolves to Compat for a dump and to
    Custom for a parse, and a mode that is no Symbol (the String
    ["strict"], say) is ignored by both. *)
Theorem unrecognised_mode_is_ignored (NUM2INT : VALUE -> result Z)
  (h h' : rb_hash) :
  same_but "mode" h h' ->
  rb_hash_aref h' "mode" = Qnil ->
  (dump_mode_acts (rb_hash_aref h "mode") = false ->
   yyjson_extract_dump_options NUM2INT (Some h)
   = yyjson_extract_dump_options NUM2INT (Some h'))
  /\ (parse_mode_acts (rb_hash_aref h "mode") = false ->
      yyjson_extract_parse_options NUM2INT (Some h)
      = yyjson_extract_parse_options NUM2INT (Some h'))
  /\ (mode <$> yyjson_extract_dump_options NUM2INT (Some [(Sym "mode", Sym "custom")]))
     = Ok MODE_COMPAT
  /\ (p_mode <$> yyjson_extract_parse_options NUM2INT (Some [(Sym "mode", Sym "custom")]))
     = Ok MODE_CUSTOM
  /\ (forall v, SYMBOL_P v = false ->
        dump_mode_acts v = false /\ parse_mode_acts v = false).
Proof.
  intros Hsame Hnil.
  assert (Hk : forall k, String.eqb k "mode" = false ->
                         rb_hash_aref h k = rb_hash_aref h' k)
    by (intros k; apply same_but_aref; exact Hsame).
  split; [|split; [|split; [|split]]].
  - intros Hact. rewrite !extract_dump_options_layout. unfold overridden.
    rewrite Hnil, (Hk "indent"), (Hk "pretty"), (Hk "escape_slash"),
      (Hk "allow_nan"), (Hk "escape_html") by reflexivity.
    destruct (if NIL_P (rb_hash_aref h' "indent") then Ok 2
              else NUM2INT (rb_hash_aref h' "indent")) as [n|e]; [|reflexivity].
    simpl. rewrite dump_mode_defaults_inert by (exact Hact || reflexivity).
    reflexivity.
  - intros Hact. unfold yyjson_extract_parse_options.
    rewrite Hnil, (Hk "symbolize_names"), (Hk "freeze"), (Hk "allow_nan"),
      (Hk "allow_comments"), (Hk "max_nesting") by reflexivity.
    rewrite parse_mode_defaults_inert by (exact Hact || reflexivity).
    reflexivity.
  - reflexivity.
  - reflexivity.
  - intros v Hv. destruct v; try discriminate; split; reflexivity.
Qed.

Lemma unrecognised_mode_is_ignored_witness :
  yyjson_extract_dump_options (fun _ => Ok 0)
    (Some [(Sym "mode", Sym "custom"); (Sym "pretty", Qtrue)])
  = yyjson_extract_dump_options (fun _ => Ok 0) (Some [(Sym "pretty", Qtrue)]).
Proof.
  apply (unrecognised_mode_is_ignored (fun _ => Ok 0)
           [(Sym "mode", Sym "custom"); (Sym "pretty", Qtrue)]
           [(Sym "pretty", Qtrue)]).
  - intros k Hk. cbn [rb_hash_aref].
    destruct (String.eqb_spec "mode" k); [congruence|reflexivity].
  - reflexivity.
  - reflexivity.
Defined.

Section BuilderOptions.

Variable char_signed : bool.
Variable interned : bool.
Variables o1 o2 : yyjson_parse_options.
Hypothesis same_freeze : p_freeze o1 = p_freeze o2.
Hypothesis same_symbolize : p_symbolize_names o1 = p_symbolize_names o2.

Lemma build_items_options items :
  Forall (fun v => forall ctx, build_val char_signed interned o1 v ctx
                               = build_val char_signed interned o2 v ctx) items ->
  forall ctx,
    build_items (build_val char_signed interned o1) items ctx
    = build_items (build_val char_signed interned o2) items ctx.
Proof.
  induction 1 as [|v items Hv _ IH]; intros ctx; [reflexivity|].
  cbn [build_items]. rewrite Hv.
  destruct (build_val char_signed interned o2 v ctx) as [x ctx1].
  rewrite IH. reflexivity.
Qed.

Lemma build_pairs_options pairs :
  Forall (fun kv => forall ctx, build_val char_signed interned o1 kv.2 ctx
                                = build_val char_signed interned o2 kv.2 ctx) pairs ->
  forall ctx,
    build_pairs char_signed interned o1 (build_val char_signed interned o1) pairs ctx
    = build_pairs char_signed interned o2 (build_val char_signed interned o2) pairs ctx.
Proof.
  induction 1 as [|[k v] pairs Hv _ IH]; intros ctx; [reflexivity|].
  cbn [build_pairs]. unfold build_key. rewrite same_symbolize.
  match goal with |- (let '(_, _) := ?e in _) = _ => destruct e as [a ctx1] end.
  simpl in Hv. rewrite Hv.
  destruct (build_val char_signed interned o2 v ctx1) as [x ctx2].
  rewrite IH. reflexivity.
Qed.

(** The builder reads [freeze] and [symbolize_names], nothing else. *)
Lemma build_val_options v :
  forall ctx, build_val char_signed interned o1 v ctx
              = build_val char_signed interned o2 v ctx.
Proof.
  induction v as [| | | | | | |items IH|pairs IH] using yyjson_val_ind';
    intros ctx; try reflexivity.
  - cbn [build_val]. unfold build_str. rewrite same_freeze. reflexivity.
  - cbn [build_val]. unfold build_arr. rewrite same_freeze.
    rewrite (build_items_options items IH). reflexivity.
  - cbn [build_val]. unfold build_obj. rewrite same_freeze.
    rewrite (build_pairs_options pairs IH). reflexivity.
Qed.

Lemma build_ruby_object_options root os :
  yyjson_build_ruby_object char_signed interned o1 root os
  = yyjson_build_ruby_object char_signed interned o2 root os.
Proof.
  unfold yyjson_build_ruby_object. rewrite build_val_options, same_freeze.
  reflexivity.
Qed.

End BuilderOptions.

Lemma parse_string_options (char_signed interned : bool)
  (yyjson_read_opts : string -> Z -> yyjson_val + Z * string)
  (ALLOW_COMMENTS ALLOW_INF_AND_NAN : Z) (o1 o2 : yyjson_parse_options)
  (source : VALUE) (os : object_space) :
  p_symbolize_names o1 = p_symbolize_names o2 -> p_freeze o1 = p_freeze o2 ->
  p_allow_nan o1 = p_allow_nan o2 -> p_allow_comments o1 = p_allow_comments o2 ->
  yyjson_parse_string char_signed interned yyjson_read_opts ALLOW_COMMENTS
    ALLOW_INF_AND_NAN source o1 os
  = yyjson_parse_string char_signed interned yyjson_read_opts ALLOW_COMMENTS
      ALLOW_INF_AND_NAN source o2 os.
Proof.
  intros Hs Hf Hn Hc. unfold yyjson_parse_string. rewrite Hn, Hc.
  destruct source; try reflexivity.
  match goal with |- match ?d with _ => _ end = _ => destruct d as [root|[pos msg]] end;
    [|reflexivity].
  rewrite (build_ruby_object_options char_signed interned o1 o2 Hf Hs). reflexivity.
Qed.

(** Parse resolution for a hash whose [:max_nesting] converts. *)
Lemma extract_parse_options_ok (NUM2INT : VALUE -> result Z) (h : rb_hash) :
  (rb_hash_aref h "max_nesting" = Qnil
   \/ exists n, NUM2INT (rb_hash_aref h "max_nesting") = Ok n) ->
  exists o, yyjson_extract_parse_options NUM2INT (Some h) = Ok o.
Proof.
  intros [Hn|[n Hn]]; unfold yyjson_extract_parse_options; rewrite Hn.
  - simpl. eauto.
  - destruct (NIL_P _); simpl; eauto.
Qed.

(** X3: [yyjson_parse_string] reads [symbolize_names], [freeze],
    [allow_nan] and [allow_comments], and nothing else of the options: under
    two option records that agree on the four it returns the same; so
    [yyjson_load] returns the same for two hashes that differ in
    [:max_nesting] alone, whatever depth it names. *)
Theorem parse_ignores_max_nesting_and_mode (char_signed interned : bool)
  (yyjson_read_opts : string -> Z -> yyjson_val + Z * string)
  (ALLOW_COMMENTS ALLOW_INF_AND_NAN : Z) (NUM2INT : VALUE -> result Z)
  (source : VALUE) (os : object_space) :
  let parse := yyjson_parse_string char_signed interned yyjson_read_opts
                 ALLOW_COMMENTS ALLOW_INF_AND_NAN source in
  let load := yyjson_load char_signed interned yyjson_read_opts
                ALLOW_COMMENTS ALLOW_INF_AND_NAN NUM2INT source in
  let converts h :=
    rb_hash_aref h "max_nesting" = Qnil
    \/ exists n, NUM2INT (rb_hash_aref h "max_nesting") = Ok n in
  (forall o1 o2,
      p_symbolize_names o1 = p_symbolize_names o2 -> p_freeze o1 = p_freeze o2 ->
      p_allow_nan o1 = p_allow_nan o2 -> p_allow_comments o1 = p_allow_comments o2 ->
      parse o1 os = parse o2 os)
  /\ (forall h h',
      same_but "max_nesting" h h' -> converts h -> converts h' ->
      load (Some h) os = load (Some h') os).
Proof.
  intros parse load converts.
  assert (Hrec : forall o1 o2,
      p_symbolize_names o1 = p_symbolize_names o2 -> p_freeze o1 = p_freeze o2 ->
      p_allow_nan o1 = p_allow_nan o2 -> p_allow_comments o1 = p_allow_comments o2 ->
      parse o1 os = parse o2 os)
    by (intros; apply parse_string_options; assumption).
  split; [exact Hrec|].
  intros h h' Hsame Hc Hc'.
  assert (Hk : forall k, String.eqb k "max_nesting" = false ->
                         rb_hash_aref h k = rb_hash_aref h' k)
    by (intros k; apply same_but_aref; exact Hsame).
  destruct (extract_parse_options_ok NUM2INT h Hc) as [o Ho].
  destruct (extract_parse_options_ok NUM2INT h' Hc') as [o' Ho'].
  pose proof (extract_parse_options_fields NUM2INT h o Ho) as (_ & Hs & Hf & Hn & Hm).
  pose proof (extract_parse_options_fields NUM2INT h' o' Ho') as (_ & Hs' & Hf' & Hn' & Hm').
  unfold overridden in *.
  rewrite <- (Hk "mode"), <- (Hk "symbolize_names"), <- (Hk "freeze"),
    <- (Hk "allow_nan"), <- (Hk "allow_comments") in * by reflexivity.
  assert (Hgen : (parse_opts ← yyjson_extract_parse_options NUM2INT (Some h);
                  parse parse_opts os)
                 = (parse_opts ← yyjson_extract_parse_options NUM2INT (Some h');
                    parse parse_opts os)).
  { rewrite Ho, Ho'. simpl. apply Hrec; congruence. }
  assert (Hdef : forall g o0,
             RHASH_EMPTY_P g = true ->
             yyjson_extract_parse_options NUM2INT (Some g) = Ok o0 ->
             parse (default_parse_opts) os = parse o0 os).
  { intros g o0 Hg Hg0. destruct g; [|discriminate]. injection Hg0 as <-. reflexivity. }
  unfold load, yyjson_load.
  destruct (RHASH_EMPTY_P h) eqn:He, (RHASH_EMPTY_P h') eqn:He'.
  - reflexivity.
  - fold parse. rewrite (Hdef h o He Ho), Ho'. simpl. apply Hrec; congruence.
  - fold parse. rewrite (Hdef h' o' He' Ho'), Ho. simpl. apply Hrec; congruence.
  - exact Hgen.
Qed.

Section DumperOptions.

Variable heap : obj_id -> heap_object.
Variable builtin_to_s : VALUE -> string.

(** A loop of the dumper under two recursive calls, the second of which
    returns whatever the first one returns. *)
Section Loops.

Variables rec1 rec2 : VALUE -> dumper yyjson_mut_val.
Hypothesis rec_ok :
  forall x ctx r, rec1 x ctx = Some (Ok r) -> rec2 x ctx = Some (Ok r).

Lemma dump_items_follow items ctx r :
  dump_items rec1 items ctx = Some (Ok r) ->
  dump_items rec2 items ctx = Some (Ok r).
Proof.
  revert ctx r. induction items as [|x items IH]; intros ctx r; simpl; [auto|].
  unfold dbind.
  destruct (rec1 x ctx) as [[[v c1]|]|] eqn:Hx; try discriminate.
  rewrite (rec_ok _ _ _ Hx).
  destruct (dump_items rec1 items c1) as [[[vs c2]|]|] eqn:Hr; try discriminate.
  rewrite (IH _ _ Hr). auto.
Qed.

Lemma dump_pairs_follow pairs ctx r :
  dump_pairs heap builtin_to_s rec1 pairs ctx = Some (Ok r) ->
  dump_pairs heap builtin_to_s rec2 pairs ctx = Some (Ok r).
Proof.
  revert ctx r. induction pairs as [|[k x] pairs IH]; intros ctx r; simpl; [auto|].
  unfold dump_hash_iter, dbind, dret.
  destruct (rec1 x ctx) as [[[v c1]|]|] eqn:Hx; try discriminate.
  rewrite (rec_ok _ _ _ Hx).
  destruct (dump_pairs heap builtin_to_s rec1 pairs c1) as [[[vs c2]|]|] eqn:Hr;
    try discriminate.
  rewrite (IH _ _ Hr). auto.
Qed.

Lemma dump_array_follow ary ctx r :
  dump_array heap rec1 ary ctx = Some (Ok r) ->
  dump_array heap rec2 ary ctx = Some (Ok r).
Proof.
  unfold dump_array, dbind.
  destruct (check_circular_reference heap ary ctx) as [[[u c0]|]|]; try discriminate.
  destruct (depth_add 1 c0) as [[[u1 c1]|]|]; try discriminate.
  destruct (dump_items rec1 _ c1) as [[[vs c2]|]|] eqn:Hr; try discriminate.
  rewrite (dump_items_follow _ _ _ Hr). auto.
Qed.

Lemma dump_hash_follow hash ctx r :
  dump_hash heap builtin_to_s rec1 hash ctx = Some (Ok r) ->
  dump_hash heap builtin_to_s rec2 hash ctx = Some (Ok r).
Proof.
  unfold dump_hash, dbind.
  destruct (check_circular_reference heap hash ctx) as [[[u c0]|]|]; try discriminate.
  destruct (depth_add 1 c0) as [[[u1 c1]|]|]; try discriminate.
  destruct (dump_pairs heap builtin_to_s rec1 _ c1) as [[[vs c2]|]|] eqn:Hr;
    try discriminate.
  rewrite (dump_pairs_follow _ _ _ Hr). auto.
Qed.

End Loops.

(** The same loops under two recursive calls that agree everywhere. *)
Section LoopsExt.

Variables rec1 rec2 : VALUE -> dumper yyjson_mut_val.
Hypothesis rec_eq : forall x ctx, rec1 x ctx = rec2 x ctx.

Lemma dump_items_ext items ctx :
  dump_items rec1 items ctx = dump_items rec2 items ctx.
Proof.
  revert ctx. induction items as [|x items IH]; intros ctx; simpl; [reflexivity|].
  unfold dbind. rewrite rec_eq.
  destruct (rec2 x ctx) as [[[v c1]|]|]; try reflexivity.
  rewrite IH. reflexivity.
Qed.

Lemma dump_pairs_ext pairs ctx :
  dump_pairs heap builtin_to_s rec1 pairs ctx
  = dump_pairs heap builtin_to_s rec2 pairs ctx.
Proof.
  revert ctx. induction pairs as [|[k x] pairs IH]; intros ctx; simpl; [reflexivity|].
  unfold dump_hash_iter, dbind, dret. rewrite rec_eq.
  destruct (rec2 x ctx) as [[[v c1]|]|]; try reflexivity.
  rewrite IH. reflexivity.
Qed.

Lemma dump_array_ext ary ctx :
  dump_array heap rec1 ary ctx = dump_array heap rec2 ary ctx.
Proof.
  unfold dump_array, dbind.
  destruct (check_circular_reference heap ary ctx) as [[[u c0]|]|]; try reflexivity.
  destruct (depth_add 1 c0) as [[[u1 c1]|]|]; try reflexivity.
  rewrite dump_items_ext. reflexivity.
Qed.

Lemma dump_hash_ext hash ctx :
  dump_hash heap builtin_to_s rec1 hash ctx = dump_hash heap builtin_to_s rec2 hash ctx.
Proof.
  unfold dump_hash, dbind.
  destruct (check_circular_reference heap hash ctx) as [[[u c0]|]|]; try reflexivity.
  destruct (depth_add 1 c0) as [[[u1 c1]|]|]; try reflexivity.
  rewrite dump_pairs_ext. reflexivity.
Qed.

End LoopsExt.

(** [try_as_json] is reached for objects of none of the basic types only,
    where its tests on the mode decide nothing. *)
Lemma try_as_json_other (o : yyjson_dump_options) obj :
  TYPE heap obj = T_OTHER ->
  try_as_json heap o obj
  = match custom_of heap obj with
    | Some c => default Qnil (as_json c)
    | None => Qnil
    end.
Proof.
  intros Ht. unfold try_as_json, is_basic_json_type. rewrite Ht, !andb_false_r.
  destruct (custom_of heap obj) as [c|]; [|reflexivity].
  destruct (as_json c); reflexivity.
Qed.

(** The dumper reads [allow_nan] and no other option. *)
Lemma dump_ruby_object_options (o1 o2 : yyjson_dump_options) :
  allow_nan o1 = allow_nan o2 ->
  forall fuel obj ctx,
    dump_ruby_object heap builtin_to_s o1 fuel obj ctx
    = dump_ruby_object heap builtin_to_s o2 fuel obj ctx.
Proof.
  intros Hn. induction fuel as [|fuel IH]; intros obj ctx; [reflexivity|].
  cbn [dump_ruby_object].
  destruct (TYPE heap obj) eqn:Ht; try reflexivity.
  - destruct obj; try reflexivity. unfold dump_float. rewrite Hn. reflexivity.
  - apply dump_array_ext, IH.
  - apply dump_hash_ext, IH.
  - rewrite !try_as_json_other by exact Ht.
    destruct (is_time_like heap obj); [reflexivity|].
    destruct (negb _); [apply IH|reflexivity].
Qed.

(** Allowing NaN and Infinity takes no export away. *)
Lemma dump_ruby_object_allow_nan (o1 o2 : yyjson_dump_options) :
  allow_nan o2 = true ->
  forall fuel obj ctx r,
    dump_ruby_object heap builtin_to_s o1 fuel obj ctx = Some (Ok r) ->
    dump_ruby_object heap builtin_to_s o2 fuel obj ctx = Some (Ok r).
Proof.
  intros Hn. induction fuel as [|fuel IH]; intros obj ctx r; [discriminate|].
  cbn [dump_ruby_object].
  destruct (TYPE heap obj) eqn:Ht; try (intros H; exact H).
  - destruct obj; try (intros H; exact H). unfold dump_float. rewrite Hn.
    rewrite andb_false_r.
    destruct (_ && _); [discriminate|]. auto.
  - apply dump_array_follow, IH.
  - apply dump_hash_follow, IH.
  - rewrite !try_as_json_other by exact Ht.
    destruct (is_time_like heap obj); [auto|].
    destruct (negb _); [apply IH|auto].
Qed.

End DumperOptions.

(** X4: the exporter reads [allow_nan] and no other option: under two
    option records with the same [allow_nan] the dump of every value from
    every context is the same; setting [allow_nan] takes no export away;
    and [try_as_json], which is reached for objects of none of the basic
    types only, returns the same under every mode. *)
Theorem export_reads_allow_nan_only (heap : obj_id -> heap_object)
  (builtin_to_s : VALUE -> string) (o1 o2 : yyjson_dump_options)
  (fuel : nat) (obj : VALUE) (ctx : dump_context) :
  let dump := dump_ruby_object heap builtin_to_s in
  (allow_nan o1 = allow_nan o2 -> dump o1 fuel obj ctx = dump o2 fuel obj ctx)
  /\ (allow_nan o2 = true ->
      forall r, dump o1 fuel obj ctx = Some (Ok r) -> dump o2 fuel obj ctx = Some (Ok r))
  /\ (TYPE heap obj = T_OTHER ->
      try_as_json heap o1 obj = try_as_json heap o2 obj).
Proof.
  intros dump. split; [|split].
  - intros Hn. apply dump_ruby_object_options. exact Hn.
  - intros Hn r. apply dump_ruby_object_allow_nan. exact Hn.
  - intros Ht. rewrite !try_as_json_other by exact Ht. reflexivity.
Qed.

Section WriterOptions.

Variable heap : obj_id -> heap_object.
Variable builtin_to_s : VALUE -> string.
Variable write : yyjson_mut_val -> Z -> option string.
Variables PRETTY TWO_SPACES SLASHES INF_NAN : Z.

Lemma write_string_options (o1 o2 : yyjson_dump_options) fuel obj :
  pretty o1 = pretty o2 -> escape_slash o1 = escape_slash o2 ->
  allow_nan o1 = allow_nan o2 -> escape_html o1 = escape_html o2 ->
  yyjson_ruby_write_string heap builtin_to_s write PRETTY TWO_SPACES SLASHES
    INF_NAN fuel obj o1
  = yyjson_ruby_write_string heap builtin_to_s write PRETTY TWO_SPACES SLASHES
      INF_NAN fuel obj o2.
Proof.
  intros Hp Hs Hn He.
  unfold yyjson_ruby_write_string, yyjson_dump_ruby_object, write_flags.
  rewrite (dump_ruby_object_options heap builtin_to_s o1 o2 Hn), Hp, Hs, Hn, He.
  reflexivity.
Qed.

End WriterOptions.

(** X5: what [yyjson_ruby_write_string] returns is decided by [pretty],
    [escape_slash], [allow_nan] and [escape_html]: the width of the indent
    and the mode never reach the engine; so two dumps whose hashes differ in
    a positive [:indent] alone return the same. *)
Theorem written_text_ignores_indent_and_mode (heap : obj_id -> heap_object)
  (builtin_to_s : VALUE -> string)
  (write : yyjson_mut_val -> Z -> option string)
  (PRETTY TWO_SPACES SLASHES INF_NAN : Z) (NUM2INT : VALUE -> result Z)
  (fuel : nat) (obj : VALUE) :
  let write_string :=
    yyjson_ruby_write_string heap builtin_to_s write PRETTY TWO_SPACES
      SLASHES INF_NAN fuel obj in
  let dump :=
    yyjson_dump heap builtin_to_s write PRETTY TWO_SPACES SLASHES INF_NAN
      NUM2INT fuel obj in
  (forall o1 o2,
      pretty o1 = pretty o2 -> escape_slash o1 = escape_slash o2 ->
      allow_nan o1 = allow_nan o2 -> escape_html o1 = escape_html o2 ->
      write_string o1 = write_string o2)
  /\ (forall h h' n n',
      same_but "indent" h h' ->
      rb_hash_aref h "indent" <> Qnil -> rb_hash_aref h' "indent" <> Qnil ->
      NUM2INT (rb_hash_aref h "indent") = Ok n ->
      NUM2INT (rb_hash_aref h' "indent") = Ok n' ->
      0 < n -> 0 < n' ->
      dump (Some h) = dump (Some h')).
Proof.
  intros write_string dump. split.
  - intros o1 o2. apply write_string_options.
  - intros h h' n n' Hsame Hne Hne' Hi Hi' Hpos Hpos'.
    assert (Hk : forall k, String.eqb k "indent" = false ->
                           rb_hash_aref h k = rb_hash_aref h' k)
      by (intros k; apply same_but_aref; exact Hsame).
    unfold dump, yyjson_dump. rewrite !extract_dump_options_layout.
    unfold overridden.
    rewrite (Hk "pretty"), (Hk "escape_slash"), (Hk "allow_nan"),
      (Hk "escape_html"), (Hk "mode") by reflexivity.
    assert (Hnil : forall v, v <> Qnil -> NIL_P v = false)
      by (intros v Hv; destruct v; simpl; congruence).
    rewrite (Hnil _ Hne), (Hnil _ Hne'), Hi, Hi'. simpl.
    destruct (Z.ltb_spec 0 n); [|lia]. destruct (Z.ltb_spec 0 n'); [|lia].
    apply write_string_options; simpl; try reflexivity;
      unfold dump_mode_defaults; destruct (rb_hash_aref h' "mode"); try reflexivity;
      repeat (destruct (String.eqb _ _); try reflexivity).
Qed.

(** X27: in the resolution of parse options every field named in the hash
    with a value other than [nil] has that value (its truth, or the integer
    of [:max_nesting]), whatever the mode; [freeze] is [false] and
    [max_nesting] is 100 when they are not named; and the resolution raises
    exactly when the conversion of a named [:max_nesting] raises. *)
Theorem parse_explicit_fields_always_win (NUM2INT : VALUE -> result Z)
  (h : rb_hash) :
  let given := rb_hash_aref h in
  (forall e, yyjson_extract_parse_options NUM2INT (Some h) = Raise e
             <-> given "max_nesting" <> Qnil /\ NUM2INT (given "max_nesting") = Raise e)
  /\ (forall o, yyjson_extract_parse_options NUM2INT (Some h) = Ok o ->
        (given "symbolize_names" <> Qnil ->
         p_symbolize_names o = RTEST (given "symbolize_names"))
        /\ (given "freeze" <> Qnil -> p_freeze o = RTEST (given "freeze"))
        /\ (given "allow_nan" <> Qnil -> p_allow_nan o = RTEST (given "allow_nan"))
        /\ (given "allow_comments" <> Qnil ->
            p_allow_comments o = RTEST (given "allow_comments"))
        /\ (given "freeze" = Qnil -> p_freeze o = false)
        /\ (given "max_nesting" = Qnil -> p_max_nesting o = 100)
        /\ (forall n, given "max_nesting" <> Qnil ->
              NUM2INT (given "max_nesting") = Ok n -> p_max_nesting o = n)).
Proof.
  intros given.
  assert (Hnil : forall v, (NIL_P v = true /\ v = Qnil) \/ (NIL_P v = false /\ v <> Qnil)).
  { intros v. destruct v; simpl; auto; right; split; congruence. }
  assert (Hover : forall name d, given name <> Qnil ->
                                 overridden h name d = RTEST (given name)).
  { intros name d Hne. unfold overridden. fold given.
    destruct (Hnil (given name)) as [[_ Hq]|[-> _]]; [contradiction|reflexivity]. }
  split.
  - intros e. unfold yyjson_extract_parse_options. fold given.
    destruct (Hnil (given "max_nesting")) as [[-> Hq]|[-> Hq]].
    + split; [discriminate|]. intros [Hne _]. contradiction.
    + destruct (NUM2INT (given "max_nesting")) as [n|e'] eqn:Hn; simpl.
      * split; [discriminate|]. intros [_ H]. discriminate.
      * split; [intros [= <-]; auto|]. intros [_ [= <-]]. reflexivity.
  - intros o Ho.
    pose proof (extract_parse_options_fields NUM2INT h o Ho) as (_ & Hs & Hf & Hn & Hc).
    cbn zeta in *.
    split; [intros Hne; rewrite Hs; apply Hover, Hne|].
    split; [intros Hne; rewrite Hf; apply Hover, Hne|].
    split; [intros Hne; rewrite Hn; apply Hover, Hne|].
    split; [intros Hne; rewrite Hc; apply Hover, Hne|].
    split.
    { intros Hq. rewrite Hf. unfold overridden. fold given. rewrite Hq. simpl.
      unfold parse_mode_defaults. destruct (given "mode"); try reflexivity.
      repeat (destruct (String.eqb _ _); try reflexivity). }
    revert Ho. unfold yyjson_extract_parse_options. fold given.
    destruct (Hnil (given "max_nesting")) as [[-> Hq]|[-> Hq]].
    + intros [= <-]. split; [|intros n Hne; contradiction].
      intros _. simpl.
      repeat match goal with |- context [if ?b then _ else _] => destruct b end;
        simpl; unfold parse_mode_defaults; destruct (given "mode"); try reflexivity;
        repeat (destruct (String.eqb _ _); try reflexivity).
    + destruct (NUM2INT (given "max_nesting")) as [n|e'] eqn:Hm; simpl; [|discriminate].
      intros [= <-]. split; [intros; contradiction|].
      intros k _ [= ->]. reflexivity.
Qed.

(** ** The shape and the termination of an export *)

Section ExportShape.

Variable heap : obj_id -> heap_object.
Variable builtin_to_s : VALUE -> string.
Variable opts : yyjson_dump_options.

Section LoopShape.

Variable dump_rec : VALUE -> dumper yyjson_mut_val.
Hypothesis dump_rec_restores :
  forall x ctx v ctx', dump_rec x ctx = Some (Ok (v, ctx')) -> ctx' = ctx.

Lemma dump_items_inv items ctx vs ctx' :
  dump_items dump_rec items ctx = Some (Ok (vs, ctx')) ->
  Forall2 (fun x y => dump_rec x ctx = Some (Ok (y, ctx))) items vs.
Proof.
  revert vs. induction items as [|x items IH]; intros vs; simpl.
  - unfold dret. intros [= <- <-]. constructor.
  - unfold dbind, dret.
    destruct (dump_rec x ctx) as [[[v c1]|]|] eqn:Hx; try discriminate.
    pose proof (dump_rec_restores _ _ _ _ Hx) as ->.
    destruct (dump_items dump_rec items ctx) as [[[vs' c2]|]|] eqn:Hr; try discriminate.
    intros [= <- <-]. constructor; [exact Hx|]. apply IH. reflexivity.
Qed.

Lemma dump_pairs_inv pairs ctx kvs ctx' :
  dump_pairs heap builtin_to_s dump_rec pairs ctx = Some (Ok (kvs, ctx')) ->
  Forall2 (fun p kv => kv.1 = key_name heap builtin_to_s p.1
                       /\ dump_rec p.2 ctx = Some (Ok (kv.2, ctx))) pairs kvs.
Proof.
  revert kvs. induction pairs as [|[k x] pairs IH]; intros kvs; simpl.
  - unfold dret. intros [= <- <-]. constructor.
  - unfold dump_hash_iter, dbind, dret.
    destruct (dump_rec x ctx) as [[[v c1]|]|] eqn:Hx; try discriminate.
    pose proof (dump_rec_restores _ _ _ _ Hx) as ->.
    destruct (dump_pairs heap builtin_to_s dump_rec pairs ctx) as [[[kvs' c2]|]|] eqn:Hr;
      try discriminate.
    intros [= <- <-]. constructor; [|apply IH; reflexivity].
    split; [|exact Hx]. simpl. unfold key_name, TYPE.
    destruct k; try reflexivity. destruct (heap id); reflexivity.
Qed.

End LoopShape.

Lemma dump_items_intro (dump_rec : VALUE -> dumper yyjson_mut_val) items ctx vs :
  Forall2 (fun x y => dump_rec x ctx = Some (Ok (y, ctx))) items vs ->
  dump_items dump_rec items ctx = Some (Ok (vs, ctx)).
Proof.
  induction 1 as [|x y items vs Hx _ IH]; simpl; [reflexivity|].
  unfold dbind. rewrite Hx, IH. reflexivity.
Qed.

Lemma dump_pairs_intro (dump_rec : VALUE -> dumper yyjson_mut_val) pairs ctx kvs :
  Forall2 (fun p kv => kv.1 = key_name heap builtin_to_s p.1
                       /\ dump_rec p.2 ctx = Some (Ok (kv.2, ctx))) pairs kvs ->
  dump_pairs heap builtin_to_s dump_rec pairs ctx = Some (Ok (kvs, ctx)).
Proof.
  induction 1 as [|[k x] [n y] pairs kvs [Hn Hx] _ IH]; simpl; [reflexivity|].
  simpl in Hn, Hx. unfold dump_hash_iter, dbind, dret. rewrite Hx.
  unfold dbind, dret in IH. rewrite IH. subst n.
  do 5 f_equal. unfold key_name, TYPE.
  destruct k; try reflexivity. destruct (heap id); reflexivity.
Qed.

(** A container that is exported passed the check. *)
Lemma dump_container_passed fuel id ctx r :
  is_collection heap (Ref id) = true ->
  dump_ruby_object heap builtin_to_s opts (S fuel) (Ref id) ctx = Some (Ok r) ->
  depth ctx <= MAX_NESTING_DEPTH /\ id ∉ visited ctx.
Proof.
  intros Hc.
  destruct (Z.lt_ge_cases MAX_NESTING_DEPTH (depth ctx)) as [Hd|Hd].
  { rewrite dump_container_too_deep by assumption. discriminate. }
  destruct (decide (id ∈ visited ctx)) as [Hv|Hv].
  { rewrite dump_ancestor_raises by (assumption || lia). discriminate. }
  intros _. split; [lia|exact Hv].
Qed.

(** The dump of a hash that passes the check, by the dump of its pairs. *)
Lemma dump_hash_unfold fuel id pairs ctx :
  heap id = RHash pairs -> depth ctx <= MAX_NESTING_DEPTH -> id ∉ visited ctx ->
  dump_ruby_object heap builtin_to_s opts (S fuel) (Ref id) ctx
  = match dump_pairs heap builtin_to_s (dump_ruby_object heap builtin_to_s opts fuel)
            pairs (entered id ctx) with
    | Some (Ok (kvs, ctx')) =>
        Some (Ok (mut_obj kvs, {| depth := depth ctx' + -1;
                                  visited := visited ctx' ∖ {[id]} |}))
    | Some (Raise e) => Some (Raise e)
    | None => None
    end.
Proof.
  intros Hh Hd Hv.
  assert (Hc : is_collection heap (Ref id) = true).
  { unfold is_collection, TYPE. rewrite Hh. reflexivity. }
  cbn [dump_ruby_object]. unfold TYPE. rewrite Hh.
  unfold dump_hash, dbind. rewrite check_enters by assumption.
  unfold depth_add at 1. cbn [depth visited]. unfold RHASH_pairs. rewrite Hh.
  fold (entered id ctx).
  destruct (dump_pairs _ _ _ pairs (entered id ctx)) as [[[vs c1]|e]|]; try reflexivity.
  unfold depth_add, unmark_visited. rewrite Hc. reflexivity.
Qed.

Lemma left_entered id ctx :
  id ∉ visited ctx ->
  {| depth := depth (entered id ctx) + -1;
     visited := visited (entered id ctx) ∖ {[id]} |} = ctx.
Proof.
  intros Hv. destruct ctx as [d vis]; simpl in *. f_equal; [lia|set_solver].
Qed.

(** What an exported array is made of. *)
Lemma dump_array_shape fuel id items ctx v ctx' :
  heap id = RArray items ->
  dump_ruby_object heap builtin_to_s opts (S fuel) (Ref id) ctx = Some (Ok (v, ctx')) ->
  exists vs, v = mut_arr vs
    /\ Forall2 (fun x y => dump_ruby_object heap builtin_to_s opts fuel x (entered id ctx)
                           = Some (Ok (y, entered id ctx))) items vs.
Proof.
  intros Hh Hd.
  assert (Hc : is_collection heap (Ref id) = true).
  { unfold is_collection, TYPE. rewrite Hh. reflexivity. }
  destruct (dump_container_passed fuel id ctx _ Hc Hd) as [Hle Hv].
  rewrite (dump_array_unfold builtin_to_s opts heap fuel id items ctx Hh Hle Hv) in Hd.
  destruct (dump_items _ items (entered id ctx)) as [[[vs c1]|e]|] eqn:Hi;
    try discriminate.
  injection Hd as <- _. exists vs. split; [reflexivity|].
  eapply dump_items_inv; [|exact Hi].
  intros x c y c'. apply dump_ruby_object_restores.
Qed.

(** What an exported hash is made of. *)
Lemma dump_hash_shape fuel id pairs ctx v ctx' :
  heap id = RHash pairs ->
  dump_ruby_object heap builtin_to_s opts (S fuel) (Ref id) ctx = Some (Ok (v, ctx')) ->
  exists kvs, v = mut_obj kvs
    /\ Forall2 (fun p kv =>
                  kv.1 = key_name heap builtin_to_s p.1
                  /\ dump_ruby_object heap builtin_to_s opts fuel p.2 (entered id ctx)
                     = Some (Ok (kv.2, entered id ctx))) pairs kvs.
Proof.
  intros Hh Hd.
  assert (Hc : is_collection heap (Ref id) = true).
  { unfold is_collection, TYPE. rewrite Hh. reflexivity. }
  destruct (dump_container_passed fuel id ctx _ Hc Hd) as [Hle Hv].
  rewrite (dump_hash_unfold fuel id pairs ctx Hh Hle Hv) in Hd.
  destruct (dump_pairs _ _ _ pairs (entered id ctx)) as [[[kvs c1]|e]|] eqn:Hi;
    try discriminate.
  injection Hd as <- _. exists kvs. split; [reflexivity|].
  eapply dump_pairs_inv; [|exact Hi].
  intros x c y c'. apply dump_ruby_object_restores.
Qed.

(** An export that returns from a context returns the same tree from
    every context that is no deeper and holds no more ancestors. *)
Lemma dump_ruby_object_shallower fuel :
  forall obj ctx v ctx' ctx2,
    dump_ruby_object heap builtin_to_s opts fuel obj ctx = Some (Ok (v, ctx')) ->
    depth ctx2 <= depth ctx -> visited ctx2 ⊆ visited ctx ->
    dump_ruby_object heap builtin_to_s opts fuel obj ctx2 = Some (Ok (v, ctx2)).
Proof.
  induction fuel as [|fuel IH]; intros obj ctx v ctx' ctx2 Hd Hdepth Hvis;
    [discriminate|].
  destruct (TYPE heap obj) eqn:Ht.
  1-8: revert Hd; cbn [dump_ruby_object]; rewrite Ht;
    try (unfold dret; intros [= <- _]; reflexivity);
    destruct obj; try discriminate;
    unfold dump_integer, dump_float, dump_string, dump_symbol, dret, rb_raise;
    repeat match goal with |- context [if ?b then _ else _] => destruct b end;
    try discriminate; intros [= <- _]; reflexivity.
  - destruct obj as [| | | | | | | |id]; try discriminate.
    unfold TYPE in Ht. destruct (heap id) as [items| |] eqn:Hh; try discriminate.
    assert (Hc : is_collection heap (Ref id) = true).
    { unfold is_collection, TYPE. rewrite Hh. reflexivity. }
    destruct (dump_container_passed fuel id ctx _ Hc Hd) as [Hle Hv].
    destruct (dump_array_shape fuel id items ctx v ctx' Hh Hd) as (vs & -> & Hall).
    assert (Hv2 : id ∉ visited ctx2) by set_solver.
    rewrite (dump_array_unfold builtin_to_s opts heap fuel id items ctx2 Hh
               ltac:(lia) Hv2).
    rewrite (dump_items_intro _ items (entered id ctx2) vs).
    + rewrite left_entered by exact Hv2. reflexivity.
    + eapply Forall2_impl; [exact Hall|]. intros x y Hx.
      eapply IH; [exact Hx| |]; simpl; [lia|set_solver].
  - destruct obj as [| | | | | | | |id]; try discriminate.
    unfold TYPE in Ht. destruct (heap id) as [|pairs|] eqn:Hh; try discriminate.
    assert (Hc : is_collection heap (Ref id) = true).
    { unfold is_collection, TYPE. rewrite Hh. reflexivity. }
    destruct (dump_container_passed fuel id ctx _ Hc Hd) as [Hle Hv].
    destruct (dump_hash_shape fuel id pairs ctx v ctx' Hh Hd) as (kvs & -> & Hall).
    assert (Hv2 : id ∉ visited ctx2) by set_solver.
    rewrite (dump_hash_unfold fuel id pairs ctx2 Hh ltac:(lia) Hv2).
    rewrite (dump_pairs_intro _ pairs (entered id ctx2) kvs).
    + rewrite left_entered by exact Hv2. reflexivity.
    + eapply Forall2_impl; [exact Hall|]. intros p kv [Hn Hx]. split; [exact Hn|].
      eapply IH; [exact Hx| |]; simpl; [lia|set_solver].
  - revert Hd. cbn [dump_ruby_object]. rewrite Ht.
    destruct (is_time_like heap obj).
    { unfold dump_time, dump_string, dret. intros [= <- _]. reflexivity. }
    destruct (negb _).
    + intros Hd. eapply IH; eassumption.
    + unfold dump_string, dret. intros [= <- _]. reflexivity.
Qed.

End ExportShape.

(** X9: an array or a hash that is exported is exported entry by entry:
    the JSON array holds the export of each item, the JSON object one pair
    for each pair of the hash, in order, under the bytes of a String key,
    the name of a Symbol key, [to_s] of any other key, so that keys that
    come out equal are both kept; each entry is exported with the
    container on the active path, one level deeper; and the context is
    left as it was found. *)
Theorem container_export_keeps_every_entry (heap : obj_id -> heap_object)
  (builtin_to_s : VALUE -> string) (opts : yyjson_dump_options)
  (fuel : nat) (id : obj_id) (ctx ctx' : dump_context) (v : yyjson_mut_val) :
  dump_ruby_object heap builtin_to_s opts (S fuel) (Ref id) ctx = Some (Ok (v, ctx')) ->
  let inner := entered id ctx in
  let dump := dump_ruby_object heap builtin_to_s opts fuel in
  ctx' = ctx
  /\ match heap id with
     | RArray items =>
         exists vs, v = mut_arr vs
           /\ Forall2 (fun x y => dump x inner = Some (Ok (y, inner))) items vs
     | RHash pairs =>
         exists kvs, v = mut_obj kvs
           /\ Forall2 (fun p kv => kv.1 = key_name heap builtin_to_s p.1
                                   /\ dump p.2 inner = Some (Ok (kv.2, inner)))
                pairs kvs
     | RObject _ => True
     end.
Proof.
  intros Hd inner dump. split.
  - eapply dump_ruby_object_restores. exact Hd.
  - destruct (heap id) as [items|pairs|o] eqn:Hh; [| |exact I].
    + eapply dump_array_shape; eassumption.
    + eapply dump_hash_shape; eassumption.
Qed.

Lemma container_export_keeps_every_entry_witness :
  exists kvs,
    mut_obj [("1", mut_sint 1); ("1", mut_sint 2)] = mut_obj kvs
    /\ Forall2 (fun p kv =>
                  kv.1 = key_name (fun _ => RHash [(Fixnum 1, Fixnum 1); (Str "1", Fixnum 2)])
                           (fun _ => "1") p.1
                  /\ dump_ruby_object (fun _ => RHash [(Fixnum 1, Fixnum 1); (Str "1", Fixnum 2)])
                       (fun _ => "1") dump_defaults 1 p.2
                       (entered 1%positive initial_context)
                     = Some (Ok (kv.2, entered 1%positive initial_context)))
         [(Fixnum 1, Fixnum 1); (Str "1", Fixnum 2)] kvs.
Proof.
  apply (container_export_keeps_every_entry
           (fun _ => RHash [(Fixnum 1, Fixnum 1); (Str "1", Fixnum 2)])
           (fun _ => "1") dump_defaults 1 1%positive initial_context initial_context
           (mut_obj [("1", mut_sint 1); ("1", mut_sint 2)])).
  vm_compute. reflexivity.
Defined.

(** X10: a value that is exported from some context is exported, to the
    same tree, from every context that is no deeper and has no more
    containers on its active path: what is exported inside a container is
    exported on its own. *)
Theorem export_succeeds_in_shallower_context (heap : obj_id -> heap_object)
  (builtin_to_s : VALUE -> string) (opts : yyjson_dump_options)
  (fuel : nat) (obj : VALUE) (ctx ctx' : dump_context) (v : yyjson_mut_val) :
  dump_ruby_object heap builtin_to_s opts fuel obj ctx = Some (Ok (v, ctx')) ->
  (forall ctx2,
      depth ctx2 <= depth ctx -> visited ctx2 ⊆ visited ctx ->
      dump_ruby_object heap builtin_to_s opts fuel obj ctx2 = Some (Ok (v, ctx2)))
  /\ (0 <= depth ctx ->
      yyjson_dump_ruby_object heap builtin_to_s opts fuel obj = Some (Ok v)).
Proof.
  intros Hd. split.
  - intros ctx2. eapply dump_ruby_object_shallower. exact Hd.
  - intros H0. unfold yyjson_dump_ruby_object.
    rewrite (dump_ruby_object_shallower heap builtin_to_s opts fuel obj ctx v ctx'
               initial_context Hd); [reflexivity|exact H0|].
    simpl. set_solver.
Qed.

Lemma export_succeeds_in_shallower_context_witness :
  yyjson_dump_ruby_object shared_siblings (fun _ => EmptyString) dump_defaults
    2 (Ref 2%positive)
  = Some (Ok (mut_arr [mut_sint 1; mut_sint 2])).
Proof.
  apply (export_succeeds_in_shallower_context shared_siblings (fun _ => EmptyString)
           dump_defaults 2 (Ref 2%positive) (entered 1%positive initial_context)
           (entered 1%positive initial_context) (mut_arr [mut_sint 1; mut_sint 2])).
  - vm_compute. reflexivity.
  - simpl. lia.
Defined.

Lemma c_str_prefix (s : string) : exists rest, s = c_str s ++ rest.
Proof.
  induction s as [|c s [rest IH]]; simpl.
  - exists EmptyString. reflexivity.
  - destruct (Ascii.eqb c zero).
    + exists (String c s). reflexivity.
    + exists rest. rewrite append_cons. f_equal. exact IH.
Qed.

Lemma c_str_no_nul (s : string) : has_nul (c_str s) = false.
Proof.
  induction s as [|c s IH]; simpl; [reflexivity|].
  destruct (Ascii.eqb c zero) eqn:Hc; simpl; [reflexivity|].
  rewrite Hc. exact IH.
Qed.

Lemma c_str_whole (s : string) : c_str s = s <-> has_nul s = false.
Proof.
  induction s as [|c s IH]; simpl; [tauto|].
  destruct (Ascii.eqb c zero) eqn:Hc; simpl.
  - split; discriminate.
  - rewrite <- IH. split; [intros [= H]; exact H|intros ->; reflexivity].
Qed.

(** X8: a Symbol is exported through [yyjson_mut_str], as the C string
    of its name: the bytes before the first NUL; a String is exported with
    its length, whole; the two agree exactly on names without a NUL; and as
    a hash key a Symbol goes through [rb_sym2str] and keeps its whole
    name. *)
Theorem symbol_export_stops_at_nul (heap : obj_id -> heap_object)
  (builtin_to_s : VALUE -> string) (opts : yyjson_dump_options)
  (fuel : nat) (ctx : dump_context) (s : string) :
  let dump := dump_ruby_object heap builtin_to_s opts in
  dump (S fuel) (Sym s) ctx = Some (Ok (mut_str (c_str s), ctx))
  /\ dump (S fuel) (Str s) ctx = Some (Ok (mut_str s, ctx))
  /\ (exists rest, s = c_str s ++ rest)
  /\ has_nul (c_str s) = false
  /\ (c_str s = s <-> has_nul s = false)
  /\ (forall val kv ctx',
        dump_hash_iter heap builtin_to_s (dump fuel) (Sym s) val ctx
        = Some (Ok (kv, ctx')) ->
        kv.1 = s).
Proof.
  intros dump. repeat split.
  - apply c_str_prefix.
  - apply c_str_no_nul.
  - apply c_str_whole.
  - apply c_str_whole.
  - intros val kv ctx'. unfold dump_hash_iter, dbind, dret. simpl.
    destruct (dump fuel val ctx) as [[[v c1]|]|]; try discriminate.
    intros [= <- _]. reflexivity.
Qed.

Section Termination.

Variable heap : obj_id -> heap_object.
Variable builtin_to_s : VALUE -> string.
Variable opts : yyjson_dump_options.

(** The loops return or raise when every call on an entry does. *)
Section LoopsReturn.

Variable dump_rec : VALUE -> dumper yyjson_mut_val.
Hypothesis dump_rec_restores :
  forall x ctx v ctx', dump_rec x ctx = Some (Ok (v, ctx')) -> ctx' = ctx.

Lemma dump_items_returns items ctx :
  (forall x, x ∈ items -> dump_rec x ctx <> None) ->
  dump_items dump_rec items ctx <> None.
Proof.
  induction items as [|x items IH]; intros Hall; simpl; [discriminate|].
  unfold dbind.
  destruct (dump_rec x ctx) as [[[v c1]|]|] eqn:Hx; try discriminate.
  - pose proof (dump_rec_restores _ _ _ _ Hx) as ->.
    destruct (dump_items dump_rec items ctx) as [[[vs c2]|]|] eqn:Hr; try discriminate.
    exfalso. apply IH; [|reflexivity]. intros y Hy. apply Hall. set_solver.
  - exfalso. apply (Hall x); [set_solver|exact Hx].
Qed.

Lemma dump_pairs_returns pairs ctx :
  (forall p, p ∈ pairs -> dump_rec p.2 ctx <> None) ->
  dump_pairs heap builtin_to_s dump_rec pairs ctx <> None.
Proof.
  induction pairs as [|[k x] pairs IH]; intros Hall; simpl; [discriminate|].
  unfold dump_hash_iter, dbind, dret.
  destruct (dump_rec x ctx) as [[[v c1]|]|] eqn:Hx; try discriminate.
  - pose proof (dump_rec_restores _ _ _ _ Hx) as ->.
    destruct (dump_pairs heap builtin_to_s dump_rec pairs ctx) as [[[vs c2]|]|] eqn:Hr;
      try discriminate.
    exfalso. apply IH; [|reflexivity]. intros y Hy. apply Hall. set_solver.
  - exfalso. apply (Hall (k, x)); [set_solver|exact Hx].
Qed.

End LoopsReturn.

(** The loops under more fuel. *)
Section LoopsStable.

Variables rec1 rec2 : VALUE -> dumper yyjson_mut_val.
Hypothesis rec_some : forall x ctx r, rec1 x ctx = Some r -> rec2 x ctx = Some r.

Lemma dump_items_stable items ctx r :
  dump_items rec1 items ctx = Some r -> dump_items rec2 items ctx = Some r.
Proof.
  revert ctx r. induction items as [|x items IH]; intros ctx r; simpl; [auto|].
  unfold dbind.
  destruct (rec1 x ctx) as [[[v c1]|e]|] eqn:Hx; try discriminate;
    rewrite (rec_some _ _ _ Hx); [|auto].
  destruct (dump_items rec1 items c1) as [[[vs c2]|e]|] eqn:Hr; try discriminate;
    rewrite (IH _ _ Hr); auto.
Qed.

Lemma dump_pairs_stable pairs ctx r :
  dump_pairs heap builtin_to_s rec1 pairs ctx = Some r ->
  dump_pairs heap builtin_to_s rec2 pairs ctx = Some r.
Proof.
  revert ctx r. induction pairs as [|[k x] pairs IH]; intros ctx r; simpl; [auto|].
  unfold dump_hash_iter, dbind, dret.
  destruct (rec1 x ctx) as [[[v c1]|e]|] eqn:Hx; try discriminate;
    rewrite (rec_some _ _ _ Hx); [|auto].
  destruct (dump_pairs heap builtin_to_s rec1 pairs c1) as [[[vs c2]|e]|] eqn:Hr;
    try discriminate; rewrite (IH _ _ Hr); auto.
Qed.

Lemma dump_array_stable ary ctx r :
  dump_array heap rec1 ary ctx = Some r -> dump_array heap rec2 ary ctx = Some r.
Proof.
  unfold dump_array, dbind.
  destruct (check_circular_reference heap ary ctx) as [[[u c0]|]|]; try discriminate; auto.
  destruct (depth_add 1 c0) as [[[u1 c1]|]|]; try discriminate; auto.
  destruct (dump_items rec1 _ c1) as [[[vs c2]|e]|] eqn:Hr; try discriminate;
    rewrite (dump_items_stable _ _ _ Hr); auto.
Qed.

Lemma dump_hash_stable hash ctx r :
  dump_hash heap builtin_to_s rec1 hash ctx = Some r ->
  dump_hash heap builtin_to_s rec2 hash ctx = Some r.
Proof.
  unfold dump_hash, dbind.
  destruct (check_circular_reference heap hash ctx) as [[[u c0]|]|]; try discriminate; auto.
  destruct (depth_add 1 c0) as [[[u1 c1]|]|]; try discriminate; auto.
  destruct (dump_pairs heap builtin_to_s rec1 _ c1) as [[[vs c2]|e]|] eqn:Hr;
    try discriminate; rewrite (dump_pairs_stable _ _ _ Hr); auto.
Qed.

End LoopsStable.

(** What a dump returns or raises, it returns or raises with more fuel. *)
Lemma dump_ruby_object_more_fuel fuel :
  forall obj ctx r,
    dump_ruby_object heap builtin_to_s opts fuel obj ctx = Some r ->
    dump_ruby_object heap builtin_to_s opts (S fuel) obj ctx = Some r.
Proof.
  induction fuel as [|fuel IH]; intros obj ctx r H; [discriminate|].
  remember (S fuel) as f1 eqn:Hf1. rewrite Hf1 in H.
  cbn [dump_ruby_object] in H |- *.
  destruct (TYPE heap obj) eqn:Ht; auto.
  - revert H. apply dump_array_stable, IH.
  - revert H. apply dump_hash_stable, IH.
  - destruct (is_time_like heap obj); auto.
    destruct (negb _); auto.
Qed.

Lemma dump_ruby_object_fuel_le fuel fuel' obj ctx r :
  (fuel <= fuel')%nat ->
  dump_ruby_object heap builtin_to_s opts fuel obj ctx = Some r ->
  dump_ruby_object heap builtin_to_s opts fuel' obj ctx = Some r.
Proof.
  induction 1 as [|fuel' _ IH]; [auto|].
  intros H. apply dump_ruby_object_more_fuel, IH, H.
Qed.

Hypothesis as_json_is_basic : as_json_basic heap.

(** With the depth check, the recursion is bounded: two calls for each of
    the 101 levels of containers a dump can enter, one for the value at
    the end. *)
Lemma dump_ruby_object_returns fuel :
  forall obj ctx,
    depth ctx <= MAX_NESTING_DEPTH + 1 ->
    203 + (match TYPE heap obj with T_OTHER => 1 | _ => 0 end)
    <= Z.of_nat fuel + 2 * depth ctx ->
    dump_ruby_object heap builtin_to_s opts fuel obj ctx <> None.
Proof.
  unfold MAX_NESTING_DEPTH.
  induction fuel as [|fuel IH]; intros obj ctx Hd Hf.
  { destruct (TYPE heap obj); simpl in Hf; lia. }
  cbn [dump_ruby_object].
  destruct (TYPE heap obj) eqn:Ht.
  1-8: try (unfold dret; discriminate);
    destruct obj; try discriminate;
    unfold dump_integer, dump_float, dump_string, dump_symbol, dret, rb_raise;
    repeat match goal with |- context [if ?b then _ else _] => destruct b end;
    discriminate.
  - destruct obj as [| | | | | | | |id]; try discriminate.
    unfold dump_array, dbind.
    destruct (check_circular_reference heap (Ref id) ctx) as [[[u c0]|]|] eqn:Hc;
      try discriminate.
    2:{ unfold check_circular_reference in Hc.
        repeat match type of Hc with context [if ?b then _ else _] => destruct b end;
          discriminate. }
    assert (Hc0 : depth c0 = depth ctx /\ depth ctx <= 100).
    { unfold check_circular_reference, MAX_NESTING_DEPTH in Hc.
      destruct (Z.ltb_spec 100 (depth ctx)); [discriminate|].
      repeat match type of Hc with context [if ?b then _ else _] => destruct b end;
        try discriminate; injection Hc as _ <-; simpl; lia. }
    unfold depth_add at 1.
    match goal with |- context [dump_items ?r ?l ?c] =>
      assert (Hret : dump_items r l c <> None) end.
    { apply dump_items_returns.
      - intros x0 k0 v0 k1. apply dump_ruby_object_restores.
      - intros x _. apply IH; simpl; [lia|]. destruct (TYPE heap x); lia. }
    match goal with |- context [dump_items ?r ?l ?c] =>
      destruct (dump_items r l c) as [[[vs c2]|e]|] end;
      [|discriminate|contradiction].
    unfold depth_add, unmark_visited, dret. simpl.
    destruct (negb _); discriminate.
  - destruct obj as [| | | | | | | |id]; try discriminate.
    unfold dump_hash, dbind.
    destruct (check_circular_reference heap (Ref id) ctx) as [[[u c0]|]|] eqn:Hc;
      try discriminate.
    2:{ unfold check_circular_reference in Hc.
        repeat match type of Hc with context [if ?b then _ else _] => destruct b end;
          discriminate. }
    assert (Hc0 : depth c0 = depth ctx /\ depth ctx <= 100).
    { unfold check_circular_reference, MAX_NESTING_DEPTH in Hc.
      destruct (Z.ltb_spec 100 (depth ctx)); [discriminate|].
      repeat match type of Hc with context [if ?b then _ else _] => destruct b end;
        try discriminate; injection Hc as _ <-; simpl; lia. }
    unfold depth_add at 1.
    match goal with |- context [dump_pairs _ _ ?r ?l ?c] =>
      assert (Hret : dump_pairs heap builtin_to_s r l c <> None) end.
    { apply dump_pairs_returns.
      - intros x0 k0 v0 k1. apply dump_ruby_object_restores.
      - intros p _. apply IH; simpl; [lia|]. destruct (TYPE heap p.2); lia. }
    match goal with |- context [dump_pairs _ _ ?r ?l ?c] =>
      destruct (dump_pairs heap builtin_to_s r l c) as [[[vs c2]|e]|] end;
      [|discriminate|contradiction].
    unfold depth_add, unmark_visited, dret. simpl.
    destruct (negb _); discriminate.
  - destruct (is_time_like heap obj).
    { unfold dump_time, dump_string, dret. discriminate. }
    rewrite try_as_json_other by exact Ht.
    destruct (custom_of heap obj) as [o|] eqn:Ho; simpl;
      [|unfold dump_string, dret; discriminate].
    destruct (as_json o) as [r|] eqn:Hj; simpl;
      [|unfold dump_string, dret; discriminate].
    destruct (NIL_P r); simpl; [unfold dump_string, dret; discriminate|].
    apply IH; [exact Hd|].
    assert (Hb : TYPE heap r <> T_OTHER).
    { unfold custom_of in Ho. destruct obj; try discriminate.
      destruct (heap id) eqn:Hh; try discriminate. injection Ho as ->.
      eapply as_json_is_basic; eassumption. }
    destruct (TYPE heap r); try lia. contradiction.
Qed.

End Termination.

(** X6: when every [as_json] of the object graph returns a value of a
    basic type, an export returns or raises whatever the graph, cyclic or
    not: 204 nested calls of [dump_ruby_object] are enough, and more change
    nothing. *)
Theorem export_returns_or_raises (heap : obj_id -> heap_object)
  (builtin_to_s : VALUE -> string) (opts : yyjson_dump_options) (obj : VALUE) :
  as_json_basic heap ->
  exists r, forall fuel,
    (204 <= fuel)%nat ->
    yyjson_dump_ruby_object heap builtin_to_s opts fuel obj = Some r.
Proof.
  intros Hbasic.
  destruct (dump_ruby_object heap builtin_to_s opts 204 obj initial_context)
    as [r0|] eqn:H0.
  - exists (match r0 with Ok (root, _) => Ok root | Raise e => Raise e end).
    intros fuel Hf. unfold yyjson_dump_ruby_object.
    rewrite (dump_ruby_object_fuel_le heap builtin_to_s opts 204 fuel obj
               initial_context r0 Hf H0).
    destruct r0 as [[root c]|e]; reflexivity.
  - exfalso. revert H0.
    apply dump_ruby_object_returns; [exact Hbasic| |].
    + simpl. unfold MAX_NESTING_DEPTH. lia.
    + simpl. destruct (TYPE heap obj); lia.
Qed.

Lemma export_returns_or_raises_witness :
  exists r, forall fuel,
    (204 <= fuel)%nat ->
    yyjson_dump_ruby_object self_hash_via_array (fun _ => EmptyString) dump_defaults
      fuel (Ref 1%positive) = Some r.
Proof.
  apply (export_returns_or_raises self_hash_via_array (fun _ => EmptyString)
           dump_defaults (Ref 1%positive)).
  intros id o r H. unfold self_hash_via_array in H.
  destruct id; discriminate.
Defined.

(** X7: the check for circular references covers arrays and hashes only:
    from an object that is not time-like and whose [as_json] returns an
    object of the same kind, and so on without end (the object itself, for
    one), [dump_ruby_object] does not return, however deep the recursion
    may go. *)
Theorem as_json_cycle_never_returns (heap : obj_id -> heap_object)
  (builtin_to_s : VALUE -> string) (opts : yyjson_dump_options)
  (on_cycle : obj_id -> Prop) :
  (forall id, on_cycle id ->
     exists o id',
       heap id = RObject o /\ time_like o = false
       /\ as_json o = Some (Ref id') /\ on_cycle id') ->
  forall id fuel ctx,
    on_cycle id ->
    dump_ruby_object heap builtin_to_s opts fuel (Ref id) ctx = None.
Proof.
  intros Hcycle id fuel. revert id.
  induction fuel as [|fuel IH]; intros id ctx Hid; [reflexivity|].
  destruct (Hcycle id Hid) as (o & id' & Hh & Ht & Hj & Hid').
  cbn [dump_ruby_object].
  assert (Hty : TYPE heap (Ref id) = T_OTHER) by (unfold TYPE; rewrite Hh; reflexivity).
  rewrite Hty, try_as_json_other by exact Hty.
  unfold is_time_like, custom_of. rewrite Hh, Ht, Hj. simpl.
  apply IH. exact Hid'.
Qed.

Lemma as_json_cycle_never_returns_witness :
  dump_ruby_object (fun _ => RObject self_as_json_object) (fun _ => EmptyString)
    dump_defaults 1000 (Ref 1%positive) initial_context = None.
Proof.
  apply (as_json_cycle_never_returns (fun _ => RObject self_as_json_object)
           (fun _ => EmptyString) dump_defaults (fun id => id = 1%positive)).
  - intros id ->. exists self_as_json_object, 1%positive. repeat split.
  - reflexivity.
Defined.

Section NonFinite.

Variable heap : obj_id -> heap_object.
Variable builtin_to_s : VALUE -> string.
Variable opts : yyjson_dump_options.

(** A number that is infinite or NaN is exported under [allow_nan] only. *)
Lemma dump_ruby_object_nonfinite fuel :
  forall obj ctx v ctx',
    dump_ruby_object heap builtin_to_s opts fuel obj ctx = Some (Ok (v, ctx')) ->
    has_nonfinite v = true -> allow_nan opts = true.
Proof.
  induction fuel as [|fuel IH]; intros obj ctx v ctx' Hd Hv; [discriminate|].
  destruct (TYPE heap obj) eqn:Ht.
  1-8: revert Hd; cbn [dump_ruby_object]; rewrite Ht;
    try (unfold dret; intros [= <- _]; discriminate);
    destruct obj; try discriminate;
    unfold dump_integer, dump_float, dump_string, dump_symbol, dret, rb_raise;
    try (repeat match goal with |- context [if ?b then _ else _] => destruct b end;
         intros [= <- _]; discriminate).
  - destruct (allow_nan opts); [reflexivity|].
    rewrite andb_true_r.
    destruct (isinf d || isnan d) eqn:Hn; [discriminate|].
    intros [= <- _]. simpl in Hv. congruence.
  - destruct obj as [| | | | | | | |id]; try discriminate.
    unfold TYPE in Ht. destruct (heap id) as [items| |] eqn:Hh; try discriminate.
    destruct (dump_array_shape heap builtin_to_s opts fuel id items ctx v ctx' Hh Hd)
      as (vs & -> & Hall).
    cbn [has_nonfinite] in Hv. clear Hd Hh.
    induction Hall as [|x y xs ys Hx _ IHl]; [discriminate|].
    simpl in Hv. apply orb_true_iff in Hv as [Hv|Hv]; [|auto].
    eapply IH; eassumption.
  - destruct obj as [| | | | | | | |id]; try discriminate.
    unfold TYPE in Ht. destruct (heap id) as [|pairs|] eqn:Hh; try discriminate.
    destruct (dump_hash_shape heap builtin_to_s opts fuel id pairs ctx v ctx' Hh Hd)
      as (kvs & -> & Hall).
    cbn [has_nonfinite] in Hv. clear Hd Hh.
    induction Hall as [|p kv ps kvs' [_ Hx] _ IHl]; [discriminate|].
    simpl in Hv. apply orb_true_iff in Hv as [Hv|Hv]; [|auto].
    eapply IH; eassumption.
  - revert Hd. cbn [dump_ruby_object]. rewrite Ht.
    destruct (is_time_like heap obj).
    { unfold dump_time, dump_string, dret. intros [= <- _]. discriminate. }
    destruct (negb _).
    + intros Hd. eapply IH; eassumption.
    + unfold dump_string, dret. intros [= <- _]. discriminate.
Qed.

End NonFinite.

(** X28: a tree that the exporter returns holds an infinite or NaN number
    only under [allow_nan], and then the flags of the writer include
    [YYJSON_WRITE_ALLOW_INF_AND_NAN]; with [allow_nan] off no such number is
    in the tree. *)
Theorem nonfinite_numbers_are_written_under_their_flag
  (heap : obj_id -> heap_object) (builtin_to_s : VALUE -> string)
  (PRETTY TWO_SPACES SLASHES INF_NAN : Z) (opts : yyjson_dump_options)
  (fuel : nat) (obj : VALUE) (root : yyjson_mut_val) :
  yyjson_dump_ruby_object heap builtin_to_s opts fuel obj = Some (Ok root) ->
  (has_nonfinite root = true ->
   allow_nan opts = true
   /\ Z.land (write_flags PRETTY TWO_SPACES SLASHES INF_NAN opts) INF_NAN = INF_NAN)
  /\ (allow_nan opts = false -> has_nonfinite root = false).
Proof.
  unfold yyjson_dump_ruby_object.
  destruct (dump_ruby_object heap builtin_to_s opts fuel obj initial_context)
    as [[[v c]|e]|] eqn:Hd; try discriminate.
  intros [= <-].
  assert (Hn : has_nonfinite v = true -> allow_nan opts = true)
    by (eapply dump_ruby_object_nonfinite; exact Hd).
  split.
  - intros Hv. split; [apply Hn, Hv|].
    unfold write_flags. rewrite (Hn Hv).
    apply Z.bits_inj'. intros n Hpos.
    rewrite Z.land_spec, Z.lor_spec. destruct (Z.testbit INF_NAN n);
      [rewrite orb_true_r; reflexivity|apply andb_false_r].
  - intros Hf. destruct (has_nonfinite v); [|reflexivity].
    rewrite Hn in Hf by reflexivity. discriminate.
Qed.

Lemma nonfinite_numbers_are_written_under_their_flag_witness :
  yyjson_dump_ruby_object (fun _ => RArray [Float S754_nan]) (fun _ => EmptyString)
    dump_defaults 2 (Ref 1%positive) = Some (Ok (mut_arr [mut_real S754_nan]))
  /\ allow_nan dump_defaults = true
  /\ Z.land (write_flags 1 64 4 8 dump_defaults) 8 = 8.
Proof.
  assert (H : yyjson_dump_ruby_object (fun _ => RArray [Float S754_nan])
                (fun _ => EmptyString) dump_defaults 2 (Ref 1%positive)
              = Some (Ok (mut_arr [mut_real S754_nan]))) by (vm_compute; reflexivity).
  split; [exact H|].
  apply (proj1 (nonfinite_numbers_are_written_under_their_flag _ _ 1 64 4 8 _ _ _ _ H)).
  reflexivity.
Defined.

(** ** The writer and the file variants *)

Lemma all_escaped_count (s : string) : all_escaped s = true -> count_escapes s = 0.
Proof.
  induction s as [|c s IH]; simpl; [reflexivity|].
  destruct (needs_escape c); simpl; [discriminate|]. intros H. rewrite IH by exact H.
  reflexivity.
Qed.

Lemma copy_and_escape_append (a b : string) :
  copy_and_escape (a ++ b) = copy_and_escape a ++ copy_and_escape b.
Proof.
  induction a as [|c a IH]; [reflexivity|].
  rewrite append_cons. cbn [copy_and_escape]. rewrite IH.
  repeat match goal with |- context [Ascii.eqb ?x ?y] => destruct (Ascii.eqb x y) end;
    reflexivity.
Qed.

Lemma count_escapes_append (a b : string) :
  count_escapes (a ++ b) = count_escapes a + count_escapes b.
Proof.
  induction a as [|c a IH]; [reflexivity|].
  rewrite append_cons. cbn [count_escapes]. rewrite IH. lia.
Qed.

(** X11: [escape_html_entities] always returns, with the length of what
    it returns, a text no shorter than its input, and the same text exactly
    when no byte needs escaping; escaping its result again changes nothing;
    and the escape of a concatenation is the concatenation of the escapes,
    the lengths added. *)
Theorem html_escaping_is_idempotent :
  (forall json,
      exists e n,
        escape_html_entities json = Some (e, n)
        /\ n = strlen e /\ strlen json <= n
        /\ escape_html_entities e = Some (e, n)
        /\ (e = json <-> count_escapes json = 0))
  /\ (forall a b ea la eb lb,
      escape_html_entities a = Some (ea, la) ->
      escape_html_entities b = Some (eb, lb) ->
      escape_html_entities (a ++ b) = Some (ea ++ eb, la + lb)).
Proof.
  split.
  - intros json. exists (html_escaped json), (strlen json + count_escapes json * 5).
    pose proof (count_escapes_nonneg json) as Hc.
    assert (Hlen : strlen (html_escaped json) = strlen json + count_escapes json * 5).
    { rewrite <- copy_and_escape_spec. apply copy_and_escape_length. }
    split; [apply escape_html_entities_spec|].
    split; [symmetry; exact Hlen|]. split; [lia|]. split.
    + rewrite escape_html_entities_spec.
      pose proof (all_escaped_count _ (html_escaped_all_escaped json)) as H0.
      rewrite <- !copy_and_escape_spec in *.
      rewrite (copy_and_escape_nothing _ H0), H0, copy_and_escape_length.
      do 2 f_equal. lia.
    + split.
      * intros He. rewrite He in Hlen. lia.
      * intros H0. rewrite <- copy_and_escape_spec. apply copy_and_escape_nothing, H0.
  - intros a b ea la eb lb. rewrite !escape_html_entities_spec.
    intros [= <- <-] [= <- <-]. rewrite <- !copy_and_escape_spec.
    rewrite copy_and_escape_append, strlen_append, count_escapes_append.
    do 2 f_equal. lia.
Qed.

(** X12: [escape_html] decides nothing but a last pass over the text: the
    dump with [escape_html] set is, outcome for outcome, the dump without
    it with the text rewritten, and the errors are the same; without it
    the dump returns what the engine wrote, whole. *)
Theorem html_escaping_is_a_pass_over_the_text (heap : obj_id -> heap_object)
  (builtin_to_s : VALUE -> string)
  (write : yyjson_mut_val -> Z -> option string)
  (PRETTY TWO_SPACES SLASHES INF_NAN : Z)
  (fuel : nat) (obj : VALUE) (opts : yyjson_dump_options) :
  let write_string :=
    yyjson_ruby_write_string heap builtin_to_s write PRETTY TWO_SPACES
      SLASHES INF_NAN fuel obj in
  let flags := write_flags PRETTY TWO_SPACES SLASHES INF_NAN in
  write_string (with_escape_html opts true)
  = fmap (M := option) (fmap (M := result) html_escaped)
      (write_string (with_escape_html opts false))
  /\ write_string (with_escape_html opts false)
     = match yyjson_dump_ruby_object heap builtin_to_s opts fuel obj with
       | None => None
       | Some (Raise e) => Some (Raise e)
       | Some (Ok root) =>
           match write root (flags opts) with
           | None => Some (Raise (GenerateError WriteFailed))
           | Some json => Some (Ok json)
           end
       end.
Proof.
  intros write_string flags.
  assert (Hd : forall b,
             yyjson_dump_ruby_object heap builtin_to_s (with_escape_html opts b) fuel obj
             = yyjson_dump_ruby_object heap builtin_to_s opts fuel obj).
  { intros b. unfold yyjson_dump_ruby_object.
    rewrite (dump_ruby_object_options heap builtin_to_s (with_escape_html opts b) opts);
      reflexivity. }
  assert (Hf : forall b, flags (with_escape_html opts b) = flags opts) by reflexivity.
  unfold write_string, yyjson_ruby_write_string. rewrite !Hd. fold flags. rewrite !Hf.
  cbn [escape_html with_escape_html].
  destruct (yyjson_dump_ruby_object heap builtin_to_s opts fuel obj) as [[root|e]|];
    try (split; reflexivity).
  destruct (write root (flags opts)) as [json|]; [|split; reflexivity].
  rewrite escape_html_entities_spec.
  rewrite <- copy_and_escape_spec, <- copy_and_escape_length, !rb_str_new_all.
  rewrite copy_and_escape_spec. split; reflexivity.
Qed.

(** X13: [yyjson_ruby_write_file] never escapes HTML: what it hands the
    engine is decided by [pretty], [escape_slash] and [allow_nan] alone, so
    [escape_html], set in the hash or by [:rails], changes nothing in a
    [dump_file]; and when the value does not export, the call raises and
    the files are left as they were. *)
Theorem dump_file_writes_unescaped_json (FS : Type)
  (heap : obj_id -> heap_object) (builtin_to_s : VALUE -> string)
  (write_file : string -> yyjson_mut_val -> Z -> FS -> option (string * Z) * FS)
  (PRETTY TWO_SPACES SLASHES INF_NAN : Z) (NUM2INT : VALUE -> result Z)
  (fuel : nat) (obj path : VALUE) (fs : FS) :
  let to_file :=
    yyjson_ruby_write_file FS heap builtin_to_s write_file PRETTY TWO_SPACES
      SLASHES INF_NAN fuel obj path in
  let dump_file :=
    yyjson_dump_file FS heap builtin_to_s write_file PRETTY TWO_SPACES
      SLASHES INF_NAN NUM2INT fuel obj path in
  (forall o1 o2,
      pretty o1 = pretty o2 -> escape_slash o1 = escape_slash o2 ->
      allow_nan o1 = allow_nan o2 ->
      to_file o1 fs = to_file o2 fs)
  /\ (forall opts, to_file (with_escape_html opts true) fs = to_file opts fs)
  /\ (forall opts e,
      yyjson_dump_ruby_object heap builtin_to_s opts fuel obj = Some (Raise e) ->
      exists e', to_file opts fs = Some (inr (Raised e'), fs))
  /\ dump_file (Some [(Sym "mode", Sym "rails")]) fs = dump_file None fs
  /\ dump_file (Some [(Sym "escape_html", Qtrue)]) fs = dump_file None fs.
Proof.
  intros to_file dump_file.
  assert (Hrec : forall o1 o2,
      pretty o1 = pretty o2 -> escape_slash o1 = escape_slash o2 ->
      allow_nan o1 = allow_nan o2 ->
      to_file o1 fs = to_file o2 fs).
  { intros o1 o2 Hp Hs Hn. unfold to_file, yyjson_ruby_write_file.
    destruct (StringValue path) as [s|e]; [|reflexivity].
    unfold yyjson_dump_ruby_object, write_flags.
    rewrite (dump_ruby_object_options heap builtin_to_s o1 o2 Hn), Hp, Hs, Hn.
    reflexivity. }
  split; [exact Hrec|]. split; [|split; [|split]].
  - intros opts. apply Hrec; reflexivity.
  - intros opts e He. unfold to_file, yyjson_ruby_write_file.
    destruct (StringValue path) as [s|e']; [|eauto].
    rewrite He. eauto.
  - unfold dump_file, yyjson_dump_file.
    destruct (StringValue path) as [s|e]; [|reflexivity].
    cbn. apply Hrec; reflexivity.
  - unfold dump_file, yyjson_dump_file.
    destruct (StringValue path) as [s|e]; [|reflexivity].
    cbn. apply Hrec; reflexivity.
Qed.

(** X14: reading from a file and reading from a string pass the engine
    the same flags and build the result alike: when the engine reads from
    the file, for every flag word, the document it reads from the text,
    [yyjson_parse_file] and [yyjson_load_file] return what
    [yyjson_parse_string] and [yyjson_load] return; a path that is not a
    String raises a TypeError before the options are looked at. *)
Theorem load_file_agrees_with_load (FS : Type) (char_signed interned : bool)
  (yyjson_read_opts : string -> Z -> yyjson_val + Z * string)
  (yyjson_read_file : string -> Z -> FS -> yyjson_val + Z * Z * string)
  (ALLOW_COMMENTS ALLOW_INF_AND_NAN FILE_OPEN : Z) (NUM2INT : VALUE -> result Z)
  (path json : string) (os : object_space) (fs : FS) :
  (forall flg root,
      yyjson_read_opts json flg = inl root ->
      yyjson_read_file (c_str path) flg fs = inl root) ->
  let parse_string :=
    yyjson_parse_string char_signed interned yyjson_read_opts ALLOW_COMMENTS
      ALLOW_INF_AND_NAN in
  let load :=
    yyjson_load char_signed interned yyjson_read_opts ALLOW_COMMENTS
      ALLOW_INF_AND_NAN NUM2INT in
  let parse_file :=
    yyjson_parse_file FS char_signed interned yyjson_read_file ALLOW_COMMENTS
      ALLOW_INF_AND_NAN FILE_OPEN in
  let load_file :=
    yyjson_load_file FS NUM2INT char_signed interned yyjson_read_file
      ALLOW_COMMENTS ALLOW_INF_AND_NAN FILE_OPEN in
  (forall opts r,
      parse_string (Str json) opts os = Ok r ->
      parse_file (Str path) opts os fs = inl r)
  /\ (forall h r,
      load (Str json) h os = Ok r -> load_file (Str path) h os fs = inl r)
  /\ (forall p h e,
      StringValue p = Raise e -> load_file p h os fs = inr (Raised e)).
Proof.
  intros Hread parse_string load parse_file load_file.
  assert (Hparse : forall opts r,
      parse_string (Str json) opts os = Ok r ->
      parse_file (Str path) opts os fs = inl r).
  { intros opts r. unfold parse_string, yyjson_parse_string, parse_file,
      yyjson_parse_file, YYJSON_READ_NOFLAG. cbn [StringValue].
    destruct (p_allow_nan opts), (p_allow_comments opts); cbn [andb];
      rewrite ?Z.lor_0_l;
      match goal with
      | |- context [yyjson_read_opts json ?f] =>
          destruct (yyjson_read_opts json f) as [root|[pos msg]] eqn:Hr;
          [rewrite (Hread _ _ Hr); intros [= <-]; reflexivity|discriminate]
      end. }
  split; [exact Hparse|]. split.
  - intros h r. unfold load, yyjson_load, load_file, yyjson_load_file.
    cbn [StringValue].
    destruct h as [h|].
    + destruct (RHASH_EMPTY_P h) eqn:He.
      * destruct h; [|discriminate He]. apply Hparse.
      * destruct (yyjson_extract_parse_options NUM2INT (Some h)) as [o|e];
          [|discriminate].
        apply Hparse.
    + apply Hparse.
  - intros p h e Hp. unfold load_file, yyjson_load_file. rewrite Hp. reflexivity.
Qed.

Lemma load_file_agrees_with_load_witness :
  yyjson_load_file unit (fun _ => Ok 0) true false (fun _ _ _ => inl (val_sint 7))
    1 2 3 (Str "data.json") (Some [(Sym "freeze", Qtrue)]) empty_space tt
  = inl (R_fixnum 7, empty_space).
Proof.
  apply (load_file_agrees_with_load unit true false (fun _ _ => inl (val_sint 7))
           (fun _ _ _ => inl (val_sint 7)) 1 2 3 (fun _ => Ok 0)
           "data.json" "7" empty_space tt).
  - intros flg root [= <-]. reflexivity.
  - reflexivity.
Defined.

(** ** The hash and the comparison of keys *)

Lemma fnv1a_loop_range (s : string) (h : Z) :
  0 <= h < 2 ^ 32 -> 0 <= fnv1a_loop h s < 2 ^ 32.
Proof.
  revert h. induction s as [|c s IH]; intros h Hh; simpl; [exact Hh|].
  apply IH. apply Z.mod_pos_bound. lia.
Qed.

Lemma fnv1a_loop_append (a b : string) (h : Z) :
  fnv1a_loop h (a ++ b) = fnv1a_loop (fnv1a_loop h a) b.
Proof.
  revert h. induction a as [|c a IH]; intros h; [reflexivity|].
  rewrite append_cons. cbn [fnv1a_loop]. apply IH.
Qed.

(** X15: [fnv1a] stays within 32 bits and is a running hash: the hash of
    a concatenation continues the loop from the hash of the first part, one
    byte a round; the hash of no bytes is the offset basis. *)
Theorem fnv1a_is_a_running_uint32 (a b : string) :
  0 <= fnv1a a < 2 ^ 32
  /\ fnv1a (a ++ b) = fnv1a_loop (fnv1a a) b
  /\ (forall c : ascii,
        fnv1a (a ++ String c EmptyString)
        = (Z.lxor (fnv1a a) (u8 c) * 16777619) mod 2 ^ 32)
  /\ fnv1a EmptyString = 2166136261.
Proof.
  repeat split.
  - apply fnv1a_loop_range. lia.
  - apply fnv1a_loop_range. lia.
  - apply fnv1a_loop_append.
  - intros c. unfold fnv1a. rewrite fnv1a_loop_append. reflexivity.
Qed.

(** X16: on keys of one length [fast_cmp] is the three-way comparison of
    a total order, whether [char] is signed or not: it returns -1, 0 or 1,
    0 exactly for equal keys, the opposite sign when the keys are swapped,
    and -1 transitively. *)
Theorem fast_cmp_orders_keys_of_one_length (char_signed : bool) (a b c : string) :
  String.length a = String.length b ->
  String.length b = String.length c ->
  let cmp x y := fast_cmp char_signed x y (strlen a) in
  (cmp a b = -1 \/ cmp a b = 0 \/ cmp a b = 1)
  /\ (cmp a b = 0 <-> a = b)
  /\ cmp b a = - cmp a b
  /\ (cmp a b = -1 -> cmp b c = -1 -> cmp a c = -1).
Proof.
  intros Hab Hbc cmp.
  assert (Hlb : strlen a = strlen b) by (unfold strlen; lia).
  assert (Hlc : strlen a = strlen c) by (unfold strlen; lia).
  assert (Hab' : cmp a b = lex_cmp (bcode char_signed a) (bcode char_signed b))
    by (apply fast_cmp_spec; exact Hab).
  assert (Hba' : cmp b a = lex_cmp (bcode char_signed b) (bcode char_signed a))
    by (unfold cmp; rewrite Hlb; apply fast_cmp_spec; lia).
  assert (Hbc' : cmp b c = lex_cmp (bcode char_signed b) (bcode char_signed c))
    by (unfold cmp; rewrite Hlb; apply fast_cmp_spec; exact Hbc).
  assert (Hac' : cmp a c = lex_cmp (bcode char_signed a) (bcode char_signed c))
    by (apply fast_cmp_spec; lia).
  rewrite Hab', Hba', Hbc', Hac'.
  split; [apply lex_cmp_range|]. split; [|split].
  - rewrite lex_cmp_eq. split; [|intros ->; reflexivity].
    apply bcode_inj. exact Hab.
  - apply lex_cmp_antisym.
  - apply lex_lt_trans.
Qed.

Lemma fast_cmp_orders_keys_of_one_length_witness :
  fast_cmp true "abcdefghiz" "abcdefghij" 10 = 1
  /\ fast_cmp true "abcdefghij" "abcdefghiz" 10 = -1.
Proof.
  pose proof (fast_cmp_orders_keys_of_one_length true "abcdefghij" "abcdefghiz"
                "abcdefghiz" eq_refl eq_refl) as (_ & _ & H & _).
  split; [|reflexivity].
  change (strlen "abcdefghij") with 10 in H. rewrite H. reflexivity.
Defined.

Lemma bcode_whole_words (char_signed : bool) (s : string) :
  (String.length s mod 8 = 0)%nat ->
  bcode char_signed s = map u8 (list_ascii_of_string s).
Proof.
  intros Hm. unfold bcode. cbn zeta.
  rewrite length_list_ascii_of_string.
  assert (Hw : (8 * (String.length s / 8) = String.length s)%nat).
  { pose proof (Nat.div_mod_eq (String.length s) 8). lia. }
  rewrite Hw, firstn_all2, skipn_all2
    by (rewrite length_list_ascii_of_string; lia).
  simpl. apply app_nil_r.
Qed.

(** X17: [fast_cmp] returns the sign [memcmp] returns when [char] is
    unsigned, when both keys are ASCII, and when the length is a multiple of
    8 (the bytes are then all compared in words); with a signed [char] it
    does not on the bytes after the last whole word: there a byte of 128 or
    more sorts before an ASCII byte. *)
Theorem fast_cmp_agrees_with_memcmp (char_signed : bool) (a b : string) :
  String.length a = String.length b ->
  let cmp := fast_cmp char_signed a b (strlen a) in
  (char_signed = false -> cmp = memcmp_sign a b)
  /\ (all_ascii a -> all_ascii b -> cmp = memcmp_sign a b)
  /\ ((String.length a mod 8 = 0)%nat -> cmp = memcmp_sign a b)
  /\ (forall x y : ascii,
        128 <= u8 x -> u8 y < 128 ->
        fast_cmp true (String x EmptyString) (String y EmptyString) 1 = -1
        /\ memcmp_sign (String x EmptyString) (String y EmptyString) = 1).
Proof.
  intros Hab cmp. unfold cmp. rewrite fast_cmp_spec by exact Hab.
  unfold memcmp_sign. split; [|split; [|split]].
  - intros ->. rewrite !bcode_plain; [reflexivity| |];
      apply Forall_forall; intros; left; reflexivity.
  - intros Ha Hb. rewrite !bcode_plain; [reflexivity| |];
      (eapply Forall_impl; [eassumption|]); intros; right; assumption.
  - intros Hm. rewrite !bcode_whole_words; [reflexivity| |]; congruence.
  - intros x y Hx Hy.
    change 1 with (strlen (String x EmptyString)) at 1.
    rewrite fast_cmp_spec by reflexivity.
    unfold bcode, char_val. cbn.
    pose proof (u8_range x). pose proof (u8_range y).
    destruct (Z.leb_spec 128 (u8 x)); [|lia].
    destruct (Z.leb_spec 128 (u8 y)); [lia|].
    split.
    + destruct (Z.ltb_spec (u8 x - 256) (u8 y)); [reflexivity|lia].
    + destruct (Z.ltb_spec (u8 x) (u8 y)); [lia|].
      destruct (Z.ltb_spec (u8 y) (u8 x)); [reflexivity|lia].
Qed.

Lemma fast_cmp_agrees_with_memcmp_witness :
  fast_cmp true "key" "kez" 3 = memcmp_sign "key" "kez".
Proof.
  apply (proj1 (proj2 (fast_cmp_agrees_with_memcmp true "key" "kez" eq_refl)));
    unfold all_ascii; cbn; repeat constructor.
Defined.

(** ** The search of the cache *)

Section SearchBounds.

Variable char_signed : bool.

(** The loop of [cache_search] stays between [lo] and [hi]: every slot it
    reads is one of the slots in use, and what it returns is the index of
    a slot that matches the key or the code of a place from [lo] to
    [hi + 1]. *)
Lemma cache_search_loop_bounds (c : string_cache_t) s slen h :
  forall (n : nat) lo hi,
    n = Z.to_nat (hi - lo + 1) ->
    0 <= lo -> hi < cache_len c ->
    let r := cache_search_loop char_signed c s slen h lo hi in
    (0 <= r /\ lo <= r <= hi /\ slot_matches char_signed c s slen h r)
    \/ (exists p, r = - (p + 1) /\ lo <= p /\ p <= Z.max lo (hi + 1)).
Proof.
  induction n as [n IH] using lt_wf_ind. intros lo hi Hn Hlo Hhi.
  rewrite cache_search_loop_equation_1.
  unfold cache_search_loop_unfold_clause_1.
  destruct (Z_le_gt_dec lo hi) as [Hle|Hgt]; [|right; exists lo; lia].
  cbn zeta. rewrite Z.shiftr_div_pow2 by lia. change (2 ^ 1) with 2.
  pose proof (Z.div_mod (lo + hi) 2 ltac:(lia)) as Hdm.
  pose proof (Z.mod_pos_bound (lo + hi) 2 ltac:(lia)) as Hmb.
  set (mid := (lo + hi) / 2) in *.
  assert (Hmid : lo <= mid <= hi) by lia.
  unfold string_cache_t in *.
  destruct (c !! Z.to_nat mid) as [e|] eqn:He.
  2:{ exfalso. apply lookup_ge_None in He. unfold cache_len in Hhi. lia. }
  assert (Hup : let r := cache_search_loop char_signed c s slen h (mid + 1) hi in
                (0 <= r /\ lo <= r <= hi /\ slot_matches char_signed c s slen h r)
                \/ (exists p, r = - (p + 1) /\ lo <= p /\ p <= Z.max lo (hi + 1))).
  { destruct (IH (Z.to_nat (hi - (mid + 1) + 1)) ltac:(lia) (mid + 1) hi eq_refl
                ltac:(lia) Hhi) as [(H0 & Hr & Hm)|(p & Hp & Hp1 & Hp2)].
    - left. repeat split; try lia. exact Hm.
    - right. exists p. lia. }
  assert (Hdown : let r := cache_search_loop char_signed c s slen h lo (mid - 1) in
                  (0 <= r /\ lo <= r <= hi /\ slot_matches char_signed c s slen h r)
                  \/ (exists p, r = - (p + 1) /\ lo <= p /\ p <= Z.max lo (hi + 1))).
  { destruct (IH (Z.to_nat (mid - 1 - lo + 1)) ltac:(lia) lo (mid - 1) eq_refl
                Hlo ltac:(lia)) as [(H0 & Hr & Hm)|(p & Hp & Hp1 & Hp2)].
    - left. repeat split; try lia. exact Hm.
    - right. exists p. lia. }
  cbn zeta in Hup, Hdown.
  destruct (Z.ltb_spec (hash e) h); [exact Hup|].
  destruct (Z.ltb_spec h (hash e)); [exact Hdown|].
  destruct (Z.ltb_spec (len e) slen); [exact Hup|].
  destruct (Z.ltb_spec slen (len e)); [exact Hdown|].
  destruct (Z.eqb_spec (fast_cmp char_signed s (ptr e) slen) 0) as [Hc|Hc].
  - left. split; [lia|]. split; [lia|]. exists e. repeat split; try lia; assumption.
  - destruct (0 <? _); [exact Hup|exact Hdown].
Qed.

Lemma cache_search_bounds (c : string_cache_t) s slen h :
  let r := cache_search char_signed c s slen h in
  (0 <= r -> r < cache_len c /\ slot_matches char_signed c s slen h r)
  /\ (r < 0 -> 0 <= - (r + 1) <= cache_len c).
Proof.
  unfold cache_search.
  destruct (cache_search_loop_bounds c s slen h
              (Z.to_nat (cache_len c - 1 - 0 + 1)) 0 (cache_len c - 1) eq_refl
              ltac:(lia) ltac:(lia)) as [(H0 & Hr & Hm)|(p & Hp & Hp1 & Hp2)].
  - split; [intros _; split; [lia|exact Hm]|lia].
  - cbn zeta. rewrite Hp. unfold cache_len in *. split; lia.
Qed.

(** What a lookup returns is the value it makes or the value of an entry,
    and what it leaves is the cache or the cache with one entry for the
    value it made. *)
Lemma get_key_with_cases mk (c : string_cache_t) s os :
  let r := get_key_with char_signed mk c s os in
  (r.1.1 = (mk s os).1 \/ exists e, e ∈ c /\ r.1.1 = val e)
  /\ (r.1.2 = c
      \/ exists p e, r.1.2 = (take p c ++ e :: drop p c)%list
                     /\ val e = (mk s os).1 /\ val e = r.1.1).
Proof.
  unfold get_key_with.
  destruct (uncacheable s).
  { destruct (mk s os) as [v os1]. simpl. auto. }
  pose proof (cache_search_bounds c s (strlen s) (fnv1a s)) as [Hhit Hmiss].
  cbn zeta in Hhit, Hmiss.
  destruct (Z.leb_spec 0 (cache_search char_signed c s (strlen s) (fnv1a s))) as [H0|H0].
  - destruct (Hhit H0) as (_ & e & He & _). unfold string_cache_t in *.
    rewrite He. simpl. split; [right|left; reflexivity].
    exists e. split; [|reflexivity]. apply list_elem_of_lookup. eauto.
  - destruct (mk s os) as [v os1]. simpl. split; [left; reflexivity|].
    unfold cache_insert. destruct (CACHE_SIZE <=? cache_len c); [left; reflexivity|].
    right. eexists _, _. split; [reflexivity|]. split; reflexivity.
Qed.

End SearchBounds.

(** X18: on any cache and any key, sorted or not, [cache_search] returns
    the index of a slot in use whose entry has the hash and the length of
    the key and compares equal to it, or the code [-(p + 1)] of a place [p]
    from 0 to the number of entries; so a lookup returns the value it made
    or the value of an entry of the cache, never the content of a slot that
    is not in use. *)
Theorem cache_search_stays_in_bounds (char_signed : bool) (c : string_cache_t)
  (s : string) (slen h : Z) :
  let r := cache_search char_signed c s slen h in
  (0 <= r -> r < cache_len c /\ slot_matches char_signed c s slen h r)
  /\ (r < 0 -> 0 <= - (r + 1) <= cache_len c)
  /\ (forall interned os,
        let k := get_str_key char_signed interned c s os in
        k.1.1 = (make_fstr interned s os).1 \/ exists e, e ∈ c /\ k.1.1 = val e)
  /\ (forall os,
        let k := get_sym_key char_signed c s os in
        k.1.1 = R_symbol s \/ exists e, e ∈ c /\ k.1.1 = val e).
Proof.
  intros r. split; [apply cache_search_bounds|]. split; [apply cache_search_bounds|].
  split.
  - intros interned os. rewrite get_str_key_with.
    apply (get_key_with_cases char_signed (make_fstr interned) c s os).
  - intros os. rewrite get_sym_key_with.
    apply (get_key_with_cases char_signed make_sym c s os).
Qed.

(** X19: on a cache that satisfies the invariant, [cache_search] returns
    an index exactly when the cache holds the key, and then the index of
    the entry of that key; otherwise, for a cacheable key and a cache that
    is not full, [cache_insert] at the place it returns keeps the
    invariant. *)
Theorem cache_search_finds_exactly_the_key (char_signed : bool)
  (c : string_cache_t) (s : string) :
  cache_inv char_signed c ->
  let r := cache_search char_signed c s (strlen s) (fnv1a s) in
  (0 <= r <-> exists e, e ∈ c /\ ptr e = s)
  /\ (0 <= r -> exists e, c !! Z.to_nat r = Some e /\ ptr e = s)
  /\ (r < 0 -> uncacheable s = false -> cache_len c < CACHE_SIZE ->
      forall v,
        cache_inv char_signed (cache_insert c (- (r + 1)) s (strlen s) (fnv1a s) v)).
Proof.
  intros (Hs & Hwf & Hlen). cbn zeta.
  assert (Hkey : forall e, e ∈ c -> entry_code char_signed e = key_code char_signed s ->
                           ptr e = s).
  { intros e He Hc. apply (key_code_inj char_signed).
    rewrite <- entry_code_key; [exact Hc|]. eapply Forall_forall in Hwf; eauto. }
  assert (Hcode : forall e, e ∈ c -> ptr e = s ->
                            entry_code char_signed e = key_code char_signed s).
  { intros e He Hp. rewrite entry_code_key, Hp; [reflexivity|].
    eapply Forall_forall in Hwf; eauto. }
  destruct (cache_search_spec char_signed c s Hs Hwf) as [Hf|Hi].
  - destruct Hf as (Hge & e & He & Hc).
    assert (Hin : e ∈ c) by (apply list_elem_of_lookup; eauto).
    split; [|split].
    + split; [intros _; exists e; auto|intros _; exact Hge].
    + intros _. exists e. auto.
    + lia.
  - destruct Hi as (p & Hr & Hp & Hb & Ha).
    assert (Hnone : forall e, e ∈ c -> ptr e <> s).
    { intros e He Hptr. pose proof (Hcode e He Hptr) as Hc.
      rewrite <- (take_drop p c) in He. apply elem_of_app in He as [He|He].
      - eapply Forall_forall in Hb; eauto. rewrite Hc in Hb.
        exact (lex_lt_irrefl _ Hb).
      - eapply Forall_forall in Ha; eauto. rewrite Hc in Ha.
        exact (lex_lt_irrefl _ Ha). }
    split; [|split].
    + split; [lia|]. intros (e & He & Hptr). exfalso. exact (Hnone e He Hptr).
    + lia.
    + intros _ Hu Hfree v. unfold cache_insert.
      destruct (Z.leb_spec CACHE_SIZE (cache_len c)); [lia|].
      rewrite Hr. replace (- (- (Z.of_nat p + 1) + 1)) with (Z.of_nat p) by lia.
      rewrite Nat2Z.id. pose proof (cacheable_length s Hu) as Hl.
      rewrite Z.mod_small by (unfold CACHE_MAX_LEN in Hl; lia).
      fold (new_entry s v). split; [|split].
      * apply insert_sorted; [exact Hs| |];
          rewrite (entry_code_key char_signed (new_entry s v))
            by (apply new_entry_wf, Hu); assumption.
      * rewrite <- (take_drop p c) in Hwf. apply Forall_app in Hwf as [H1 H2].
        apply Forall_app. split; [exact H1|]. constructor; [|exact H2].
        apply new_entry_wf, Hu.
      * unfold cache_len in *. rewrite length_app. cbn [length].
        rewrite length_take, length_drop. lia.
Qed.

Lemma cache_search_finds_exactly_the_key_witness :
  let c := (get_str_key true false [] "id" empty_space).1.2 in
  0 <= cache_search true c "id" (strlen "id") (fnv1a "id")
  <-> exists e, e ∈ c /\ ptr e = "id".
Proof.
  apply (cache_search_finds_exactly_the_key true
           (get_str_key true false [] "id" empty_space).1.2 "id").
  apply (cache_step_inv true [] _ (cache_inv_empty true)).
  apply step_str.
Defined.

Section LookupTwice.

Variable char_signed : bool.
Variable mk : string -> object_space -> rvalue * object_space.

(** A key that the cache holds, or has room for, is looked up again with
    the value of the first lookup, and the second lookup changes neither
    the cache nor the objects of the runtime. *)
Lemma get_key_with_twice (c : string_cache_t) s os :
  cache_inv char_signed c -> uncacheable s = false ->
  cache_len c < CACHE_SIZE \/ (exists e, e ∈ c /\ ptr e = s) ->
  forall v c' os',
    get_key_with char_signed mk c s os = (v, c', os') ->
    cache_inv char_signed c'
    /\ forall os2, get_key_with char_signed mk c' s os2 = (v, c', os2).
Proof.
  intros Hinv Hu Hroom v c' os' Hget.
  pose proof (get_key_outcome char_signed mk c s os Hinv v c' os' Hget) as Hout.
  assert (Hinv' : cache_inv char_signed c')
    by (apply (key_outcome_cache char_signed mk c s os v c' os' Hinv Hout)).
  split; [exact Hinv'|]. intros os2.
  assert (Hheld : exists e, e ∈ c' /\ ptr e = s /\ val e = v).
  { destruct Hout as [Hb|e _ He Hp|p _ Hn Hl Hi|_ Hn Hl].
    - congruence.
    - exists e. auto.
    - exists (new_entry s (mk s os).1). split; [|split; reflexivity].
      apply elem_of_app. right. apply elem_of_cons. left. reflexivity.
    - exfalso. destruct Hroom as [Hroom|(e & He & Hp)]; [lia|].
      exact (Hn e He Hp). }
  destruct Hheld as (e & He & Hp & Hv).
  destruct (get_key_with char_signed mk c' s os2) as [[v2 c2] os3] eqn:Hget2.
  pose proof (get_key_outcome char_signed mk c' s os2 Hinv' v2 c2 os3 Hget2) as Hout2.
  destruct Hout2 as [Hb|e2 _ He2 Hp2|p _ Hn _ _|_ Hn _].
  - congruence.
  - assert (e2 = e) by (apply (cache_ptr_unique char_signed c'); congruence).
    subst e2. rewrite Hv. reflexivity.
  - exfalso. exact (Hn e He Hp).
  - exfalso. exact (Hn e He Hp).
Qed.

End LookupTwice.

(** X20: a cacheable key that the cache holds, or has room for, is found
    again: after one lookup, with [get_str_key] or with [get_sym_key],
    every further lookup of the key returns the same value and changes
    neither the cache nor the objects of the runtime. *)
Theorem key_lookup_is_stable (char_signed interned : bool) (c : string_cache_t)
  (s : string) (os : object_space) :
  cache_inv char_signed c ->
  uncacheable s = false ->
  cache_len c < CACHE_SIZE \/ (exists e, e ∈ c /\ ptr e = s) ->
  (forall v c' os',
      get_str_key char_signed interned c s os = (v, c', os') ->
      forall os2, get_str_key char_signed interned c' s os2 = (v, c', os2))
  /\ (forall v c' os',
      get_sym_key char_signed c s os = (v, c', os') ->
      forall os2, get_sym_key char_signed c' s os2 = (v, c', os2)).
Proof.
  intros Hinv Hu Hroom. split.
  - intros v c' os' Hget os2. rewrite get_str_key_with in *.
    apply (get_key_with_twice char_signed (make_fstr interned) c s os Hinv Hu Hroom
             v c' os' Hget).
  - intros v c' os' Hget os2. rewrite get_sym_key_with in *.
    apply (get_key_with_twice char_signed make_sym c s os Hinv Hu Hroom
             v c' os' Hget).
Qed.

Lemma key_lookup_is_stable_witness :
  let first := get_str_key true false [] "name" empty_space in
  get_str_key true false first.1.2 "name" first.2
  = (first.1.1, first.1.2, first.2).
Proof.
  intros first.
  assert (Hroom : cache_len [] < CACHE_SIZE) by reflexivity.
  apply (proj1 (key_lookup_is_stable true false [] "name" empty_space
                  (cache_inv_empty true) eq_refl (or_introl Hroom))
           first.1.1 first.1.2 first.2).
  reflexivity.
Defined.

(** ** What the builder returns *)

Lemma small_ints_lookup (n : Z) :
  SMALL_INT_MIN <= n <= SMALL_INT_MAX ->
  small_ints !! Z.to_nat (n - SMALL_INT_MIN) = Some (R_fixnum n).
Proof.
  unfold small_ints, SMALL_INT_MIN, SMALL_INT_MAX. intros Hn.
  rewrite list_lookup_fmap, lookup_seq_lt by lia. simpl. f_equal. f_equal. lia.
Qed.

Lemma small_int_fixnum (n : Z) :
  SMALL_INT_MIN <= n <= SMALL_INT_MAX -> small_int n = R_fixnum n.
Proof.
  intros Hn. unfold small_int. rewrite small_ints_lookup by exact Hn. reflexivity.
Qed.

Lemma build_num_sint (n : Z) :
  build_num (val_sint n)
  = if (FIXNUM_MIN <=? n) && (n <=? FIXNUM_MAX) then R_fixnum n else R_bignum n.
Proof.
  unfold build_num.
  destruct (Z.leb_spec SMALL_INT_MIN n), (Z.leb_spec n SMALL_INT_MAX); cbn [andb];
    try reflexivity.
  rewrite small_int_fixnum by lia.
  unfold SMALL_INT_MIN, SMALL_INT_MAX, FIXNUM_MIN, FIXNUM_MAX in *.
  destruct (Z.leb_spec (- 2 ^ 62) n), (Z.leb_spec n (2 ^ 62 - 1)); cbn [andb];
    try reflexivity; lia.
Qed.

Lemma build_num_uint (n : Z) :
  0 <= n ->
  build_num (val_uint n) = if n <=? FIXNUM_MAX then R_fixnum n else R_bignum n.
Proof.
  intros Hn. unfold build_num.
  destruct (Z.leb_spec n SMALL_INT_MAX); [|reflexivity].
  rewrite small_int_fixnum by (unfold SMALL_INT_MIN; lia).
  unfold SMALL_INT_MAX, FIXNUM_MAX in *.
  destruct (Z.leb_spec n (2 ^ 62 - 1)); [reflexivity|lia].
Qed.

(** X21: the table of small integers has 111 slots, and the slot the
    builder reads for [n] from -10 to 100 holds the Fixnum [n]; so
    [fast_int] and [build_num] return the integer they are given: a Fixnum
    of the same value inside the Fixnum range, a Bignum outside of it, for
    signed and for unsigned integers. *)
Theorem small_integer_table_is_transparent :
  length small_ints = 111%nat
  /\ (forall n, SMALL_INT_MIN <= n <= SMALL_INT_MAX ->
        small_ints !! Z.to_nat (n - SMALL_INT_MIN) = Some (LONG2FIX n))
  /\ (forall n, FIXNUM_MIN <= n <= FIXNUM_MAX ->
        fast_int n = R_fixnum n /\ LONG2FIX n = R_fixnum n)
  /\ (forall n,
        build_num (val_sint n)
        = if (FIXNUM_MIN <=? n) && (n <=? FIXNUM_MAX) then R_fixnum n
          else R_bignum n)
  /\ (forall n, 0 <= n ->
        build_num (val_uint n)
        = if n <=? FIXNUM_MAX then R_fixnum n else R_bignum n).
Proof.
  assert (Hfix : forall n, FIXNUM_MIN <= n <= FIXNUM_MAX -> LONG2FIX n = R_fixnum n).
  { intros n Hn. unfold LONG2FIX, FIXNUM_MIN, FIXNUM_MAX in *.
    rewrite Z.mod_small by lia. f_equal. lia. }
  split; [reflexivity|]. split; [|split; [|split]].
  - intros n Hn. rewrite small_ints_lookup by exact Hn. f_equal. symmetry.
    apply Hfix. unfold SMALL_INT_MIN, SMALL_INT_MAX, FIXNUM_MIN, FIXNUM_MAX in *. lia.
  - intros n Hn. split; [|apply Hfix, Hn]. unfold fast_int.
    destruct (Z.leb_spec SMALL_INT_MIN n), (Z.leb_spec n SMALL_INT_MAX); cbn [andb];
      try (apply Hfix, Hn).
    apply small_int_fixnum. lia.
  - apply build_num_sint.
  - apply build_num_uint.
Qed.

Section BuilderShape.

Variable char_signed : bool.
Variable interned : bool.
Variable opts : yyjson_parse_options.

(** The primitive path of [yyjson_build_ruby_object] returns what the
    general path returns. *)
Lemma build_ruby_object_general root os :
  yyjson_build_ruby_object char_signed interned opts root os
  = let '(v, ctx) := build_val char_signed interned opts root (fresh_ctx os) in
    (v, objects ctx).
Proof.
  unfold yyjson_build_ruby_object, fresh_ctx.
  destruct root; cbn [is_container negb build_val_simple build_val]; try reflexivity.
  unfold build_str. cbn [objects].
  destruct (p_freeze opts).
  - destruct (make_fstr interned s os); reflexivity.
  - destruct (make_str s os); reflexivity.
Qed.

End BuilderShape.

(** X23: the path of [yyjson_build_ruby_object] for a root that is no
    array or object returns what the general path returns; for such a root
    [build_val] returns what [build_val_simple] returns and leaves both
    caches as they are. *)
Theorem primitive_root_path_agrees (char_signed interned : bool)
  (opts : yyjson_parse_options) (root : yyjson_val) (os : object_space) :
  yyjson_build_ruby_object char_signed interned opts root os
  = (let '(v, ctx) := build_val char_signed interned opts root (fresh_ctx os) in
     (v, objects ctx))
  /\ (is_container root = false ->
      forall ctx,
        let r := build_val char_signed interned opts root ctx in
        r.1 = (build_val_simple interned root (p_freeze opts) (objects ctx)).1
        /\ str_cache r.2 = str_cache ctx /\ sym_cache r.2 = sym_cache ctx).
Proof.
  split; [apply build_ruby_object_general|].
  intros Hc ctx.
  destruct root; try discriminate; cbn [build_val build_val_simple];
    try (repeat split; reflexivity).
  unfold build_str.
  destruct (p_freeze opts);
    [destruct (make_fstr interned s (objects ctx))|destruct (make_str s (objects ctx))];
    repeat split; reflexivity.
Qed.

(** What holds of every key and of every value of a buffer holds of the
    keys and of the values of the hash made from it. *)
Lemma hash_bulk_insert_forallb (fk fv : rvalue -> bool)
  (kvs : list (rvalue * rvalue)) :
  forallb (fun kv => fk kv.1 && fv kv.2) kvs = true ->
  forallb (fun kv => fk kv.1 && fv kv.2) (rb_hash_bulk_insert kvs []) = true.
Proof.
  intros H. apply forallb_forall. intros kv Hin. apply list_elem_of_In in Hin.
  assert (HF : Forall (fun kv => fk kv.1 = true /\ fv kv.2 = true)
                 (rb_hash_bulk_insert kvs [])).
  { apply (hash_bulk_insert_Forall (fun k => fk k = true) (fun v => fv v = true)
             kvs []); [constructor|].
    apply Forall_forall. intros x Hx. apply andb_true_iff.
    apply (proj1 (forallb_forall _ _) H). apply list_elem_of_In, Hx. }
  apply andb_true_iff. exact (proj1 (Forall_forall _ _) HF kv Hin).
Qed.

Section BuilderFreeze.

Variable char_signed : bool.
Variable interned : bool.
Variable opts : yyjson_parse_options.

Lemma get_key_with_ok mk (c : string_cache_t) s os sym :
  (forall s os, key_ok sym (mk s os).1 = true) ->
  Forall (fun e => key_ok sym (val e) = true) c ->
  let r := get_key_with char_signed mk c s os in
  key_ok sym r.1.1 = true /\ Forall (fun e => key_ok sym (val e) = true) r.1.2.
Proof.
  intros Hmk Hc r.
  destruct (get_key_with_cases char_signed mk c s os) as [Hv Hc'].
  fold r in Hv, Hc'. split.
  - destruct Hv as [->|(e & He & ->)]; [apply Hmk|].
    eapply Forall_forall in Hc; eauto.
  - destruct Hc' as [->|(p & e & -> & He & _)]; [exact Hc|].
    rewrite <- (take_drop p c) in Hc. apply Forall_app in Hc as [H1 H2].
    apply Forall_app. split; [exact H1|]. constructor; [|exact H2].
    rewrite He. apply Hmk.
Qed.

Lemma build_key_ok k ctx a ctx' :
  cache_ok opts ctx ->
  build_key char_signed interned opts k ctx = (a, ctx') ->
  key_ok (p_symbolize_names opts) a = true /\ cache_ok opts ctx'.
Proof.
  unfold build_key, cache_ok, cache_in_use.
  destruct (p_symbolize_names opts) eqn:Hsym; intros Hc.
  - rewrite get_sym_key_with.
    pose proof (get_key_with_ok make_sym (sym_cache ctx) k (objects ctx) true
                  ltac:(reflexivity) Hc) as [H1 H2].
    destruct (get_key_with char_signed make_sym (sym_cache ctx) k (objects ctx))
      as [[a0 c0] os0].
    intros [= <- <-]. simpl in *. auto.
  - rewrite get_str_key_with.
    assert (Hmk : forall s os, key_ok false (make_fstr interned s os).1 = true).
    { intros s os. unfold make_fstr.
      destruct interned; [destruct (fstrings os !! s)|]; reflexivity. }
    pose proof (get_key_with_ok (make_fstr interned) (str_cache ctx) k (objects ctx)
                  false Hmk Hc) as [H1 H2].
    destruct (get_key_with char_signed (make_fstr interned) (str_cache ctx) k
                (objects ctx)) as [[a0 c0] os0].
    intros [= <- <-]. simpl in *. auto.
Qed.

Lemma frozen_as_build_num v :
  frozen_as (p_symbolize_names opts) (p_freeze opts) (build_num v) = true.
Proof.
  assert (Hs : forall n, frozen_as (p_symbolize_names opts) (p_freeze opts)
                           (small_int n) = true).
  { intros n. unfold small_int.
    destruct (small_ints !! Z.to_nat (n - SMALL_INT_MIN)) as [x|] eqn:E; [|reflexivity].
    apply list_elem_of_lookup_2, list_elem_of_In, in_map_iff in E as (i & <- & _).
    reflexivity. }
  destruct v; try reflexivity; unfold build_num;
    repeat match goal with |- context [if ?b then _ else _] => destruct b end;
    try reflexivity; apply Hs.
Qed.

Lemma build_items_freezes items :
  Forall (freezes char_signed interned opts) items ->
  forall ctx vals ctx',
    cache_ok opts ctx ->
    build_items (build_val char_signed interned opts) items ctx = (vals, ctx') ->
    forallb (frozen_as (p_symbolize_names opts) (p_freeze opts)) vals = true
    /\ cache_ok opts ctx'.
Proof.
  induction 1 as [|v items Hv _ IH]; intros ctx vals ctx' Hc.
  - intros [= <- <-]. auto.
  - cbn [build_items].
    destruct (build_val char_signed interned opts v ctx) as [x c1] eqn:Hx.
    destruct (build_items _ items c1) as [vs c2] eqn:Hr.
    intros [= <- <-].
    destruct (Hv ctx x c1 Hc Hx) as [H1 Hc1].
    destruct (IH c1 vs c2 Hc1 Hr) as [H2 Hc2].
    cbn [forallb]. rewrite H1, H2. auto.
Qed.

Lemma build_pairs_freezes pairs :
  Forall (fun kv => freezes char_signed interned opts kv.2) pairs ->
  forall ctx kvs ctx',
    cache_ok opts ctx ->
    build_pairs char_signed interned opts (build_val char_signed interned opts)
      pairs ctx = (kvs, ctx') ->
    forallb (fun kv => key_ok (p_symbolize_names opts) kv.1
                       && frozen_as (p_symbolize_names opts) (p_freeze opts) kv.2)
      kvs = true
    /\ cache_ok opts ctx'.
Proof.
  induction 1 as [|[k v] pairs Hv _ IH]; intros ctx kvs ctx' Hc.
  - intros [= <- <-]. auto.
  - cbn [build_pairs].
    destruct (build_key char_signed interned opts k ctx) as [a c1] eqn:Hk.
    destruct (build_val char_signed interned opts v c1) as [x c2] eqn:Hx.
    destruct (build_pairs _ _ _ _ pairs c2) as [rest c3] eqn:Hr.
    intros [= <- <-].
    destruct (build_key_ok k ctx a c1 Hc Hk) as [Ha Hc1].
    destruct (Hv c1 x c2 Hc1 Hx) as [H1 Hc2].
    destruct (IH c2 rest c3 Hc2 Hr) as [H2 Hc3].
    cbn [forallb]. simpl. rewrite Ha, H1, H2. auto.
Qed.

Lemma build_val_freezes v : freezes char_signed interned opts v.
Proof.
  induction v as [| | | | | | |items IH|pairs IH] using yyjson_val_ind';
    intros ctx r ctx' Hc; cbn [build_val].
  - intros [= <- <-]. auto.
  - intros [= <- <-]. auto.
  - intros [= <- <-]. destruct b; auto.
  - intros Hb. apply pair_equal_spec in Hb as [<- <-].
    split; [apply frozen_as_build_num|exact Hc].
  - intros Hb. apply pair_equal_spec in Hb as [<- <-].
    split; [apply frozen_as_build_num|exact Hc].
  - intros Hb. apply pair_equal_spec in Hb as [<- <-]. auto.
  - unfold build_str, make_fstr, make_str.
    destruct (p_freeze opts) eqn:Hf;
      [destruct interned; [destruct (fstrings _ !! s)|]|];
      intros [= <- <-]; (split; [reflexivity|exact Hc]).
  - unfold build_arr. destruct items as [|x items].
    + intros [= <- <-]. cbn [frozen_as forallb]. rewrite eqb_reflx. auto.
    + destruct (build_items _ (x :: items) ctx) as [vals c1] eqn:Hb.
      intros [= <- <-].
      destruct (build_items_freezes _ IH ctx vals c1 Hc Hb) as [H1 H2].
      cbn [frozen_as]. rewrite eqb_reflx, H1. auto.
  - unfold build_obj. destruct pairs as [|kv pairs].
    + intros [= <- <-]. cbn [frozen_as forallb]. rewrite eqb_reflx. auto.
    + destruct (build_pairs _ _ _ _ (kv :: pairs) ctx) as [kvs c1] eqn:Hb.
      intros [= <- <-].
      destruct (build_pairs_freezes _ IH ctx kvs c1 Hc Hb) as [H1 H2].
      cbn [frozen_as].
      rewrite eqb_reflx, (hash_bulk_insert_forallb _ _ _ H1). auto.
Qed.

Lemma build_items_atoms_ok items :
  Forall (atoms_ok char_signed interned opts) items ->
  forall ctx,
    cache_ok opts ctx ->
    Forall (fun k => key_ok (p_symbolize_names opts) k = true)
      (atoms_items char_signed interned opts (key_atoms char_signed interned opts)
         items ctx).
Proof.
  induction 1 as [|x items Hx _ IH]; intros ctx Hc; cbn [atoms_items];
    [constructor|].
  apply Forall_app. split; [apply Hx, Hc|]. apply IH.
  destruct (build_val char_signed interned opts x ctx) as [r c1] eqn:Hr.
  exact (proj2 (build_val_freezes x ctx r c1 Hc Hr)).
Qed.

Lemma build_pairs_atoms_ok pairs :
  Forall (fun kv => atoms_ok char_signed interned opts kv.2) pairs ->
  forall ctx,
    cache_ok opts ctx ->
    Forall (fun k => key_ok (p_symbolize_names opts) k = true)
      (atoms_pairs char_signed interned opts (key_atoms char_signed interned opts)
         pairs ctx).
Proof.
  induction 1 as [|[k x] pairs Hx _ IH]; intros ctx Hc; cbn [atoms_pairs];
    [constructor|].
  destruct (build_key char_signed interned opts k ctx) as [a c0] eqn:Ha.
  destruct (build_key_ok k ctx a c0 Hc Ha) as [Hka Hc0].
  constructor; [exact Hka|]. apply Forall_app. split; [apply Hx, Hc0|]. apply IH.
  destruct (build_val char_signed interned opts x c0) as [r c1] eqn:Hr.
  exact (proj2 (build_val_freezes x c0 r c1 Hc0 Hr)).
Qed.

Lemma build_val_atoms_ok v : atoms_ok char_signed interned opts v.
Proof.
  induction v as [| | | | | | |items IH|pairs IH] using yyjson_val_ind';
    intros ctx Hc; cbn [key_atoms]; try constructor.
  - apply build_items_atoms_ok; assumption.
  - apply build_pairs_atoms_ok; assumption.
Qed.

End BuilderFreeze.

(** The keys of a value that is frozen as the options say are keys as the
    call makes them. *)
Lemma value_keys_ok sym freeze :
  forall v, frozen_as sym freeze v = true ->
            Forall (fun k => key_ok sym k = true) (value_keys v).
Proof.
  fix IH 1. intros v. destruct v as [| | | | | | | |frozen items|frozen pairs];
    cbn [frozen_as value_keys]; intros Hv; try constructor.
  - apply andb_true_iff in Hv as [_ Hv].
    induction items as [|x items IHi]; [constructor|].
    cbn [forallb] in Hv. apply andb_true_iff in Hv as [H1 H2].
    cbn [flat_map]. apply Forall_app. split; [apply IH, H1|apply IHi, H2].
  - apply andb_true_iff in Hv as [_ Hv].
    induction pairs as [|[k x] pairs IHp]; [constructor|].
    cbn [forallb] in Hv. apply andb_true_iff in Hv as [H1 H2].
    simpl in H1. apply andb_true_iff in H1 as [Hk Hx].
    cbn [flat_map]. apply Forall_app. split; [|apply IHp, H2].
    simpl. constructor; [exact Hk|apply IH, Hx].
Qed.

Lemma build_ruby_object_frozen (char_signed interned : bool)
  (opts : yyjson_parse_options) (root : yyjson_val) (os : object_space) :
  frozen_as (p_symbolize_names opts) (p_freeze opts)
    (yyjson_build_ruby_object char_signed interned opts root os).1 = true.
Proof.
  rewrite build_ruby_object_general.
  destruct (build_val char_signed interned opts root (fresh_ctx os)) as [r ctx] eqn:Hb.
  simpl.
  apply (build_val_freezes char_signed interned opts root (fresh_ctx os) r ctx);
    [|exact Hb].
  unfold cache_ok, cache_in_use, fresh_ctx. simpl.
  destruct (p_symbolize_names opts); constructor.
Qed.

(** X24: [freeze] reaches every value: every array, hash and string value
    of the result is frozen exactly when [freeze] is set; the keys are
    frozen strings whether [freeze] is set or not, and symbols, all of
    them, when [symbolize_names] is set. *)
Theorem freeze_reaches_every_value (char_signed interned : bool)
  (opts : yyjson_parse_options) (root : yyjson_val) (os : object_space) :
  let v := (yyjson_build_ruby_object char_signed interned opts root os).1 in
  frozen_as (p_symbolize_names opts) (p_freeze opts) v = true
  /\ Forall (fun k => key_ok (p_symbolize_names opts) k = true) (value_keys v).
Proof.
  intros v.
  pose proof (build_ruby_object_frozen char_signed interned opts root os) as Hv.
  split; [exact Hv|]. eapply value_keys_ok. exact Hv.
Qed.

(** Two keys as one call makes them are one key of a hash exactly when
    they have the same bytes. *)
Lemma key_eql_ok (sym : bool) (a b : rvalue) :
  key_ok sym a = true -> key_ok sym b = true ->
  key_eql a b
  = String.eqb (default EmptyString (atom_bytes a)) (default EmptyString (atom_bytes b)).
Proof.
  intros Ha Hb. destruct a, b; simpl in *; try discriminate; try reflexivity;
    destruct sym; simpl in *; discriminate.
Qed.

Lemma hash_aset_keys_ok (sym : bool) (h : list (rvalue * rvalue)) (k v : rvalue) :
  Forall (fun kv => key_ok sym kv.1 = true) h -> key_ok sym k = true ->
  Forall (fun kv => key_ok sym kv.1 = true) (rb_hash_aset h k v).
Proof.
  intros Hh Hk. induction Hh as [|[k' v'] h Hk' Hh IH]; simpl.
  - constructor; [exact Hk|constructor].
  - destruct (key_eql k' k); constructor; assumption.
Qed.

(** Storing a pair in a hash is storing what it spells in the pairs the
    hash spells. *)
Lemma hash_aset_spells (sym : bool) (h : list (rvalue * rvalue)) (k v : rvalue) :
  Forall (fun kv => key_ok sym kv.1 = true) h -> key_ok sym k = true ->
  map (fun kv => (default EmptyString (atom_bytes kv.1), reify kv.2))
    (rb_hash_aset h k v)
  = obj_store (map (fun kv => (default EmptyString (atom_bytes kv.1), reify kv.2)) h)
      (default EmptyString (atom_bytes k)) (reify v).
Proof.
  intros Hh Hk. induction Hh as [|[k' v'] h Hk' Hh IH]; [reflexivity|].
  cbn [rb_hash_aset map obj_store fst snd].
  rewrite (key_eql_ok sym k' k Hk' Hk).
  destruct (String.eqb _ _); cbn [map fst snd]; [reflexivity|].
  rewrite IH. reflexivity.
Qed.

Lemma hash_bulk_insert_spells (sym : bool) (kvs h : list (rvalue * rvalue)) :
  Forall (fun kv => key_ok sym kv.1 = true) h ->
  Forall (fun kv => key_ok sym kv.1 = true) kvs ->
  map (fun kv => (default EmptyString (atom_bytes kv.1), reify kv.2))
    (rb_hash_bulk_insert kvs h)
  = fold_left (fun h kv => obj_store h kv.1 kv.2)
      (map (fun kv => (default EmptyString (atom_bytes kv.1), reify kv.2)) kvs)
      (map (fun kv => (default EmptyString (atom_bytes kv.1), reify kv.2)) h).
Proof.
  intros Hh Hk. revert h Hh.
  induction Hk as [|[k v] kvs Hk _ IH]; intros h Hh; [reflexivity|].
  unfold rb_hash_bulk_insert in *. cbn [fold_left map fst snd].
  rewrite IH by (apply hash_aset_keys_ok; assumption).
  rewrite (hash_aset_spells sym) by assumption. reflexivity.
Qed.

(** The pairs an object keeps: a key has one pair, every key of the
    object has one, and its value is the one that stands last with it. *)
Lemma obj_store_keys (h : list (string * yyjson_val)) (k : string) (v : yyjson_val)
  (k' : string) :
  k' ∈ map fst (obj_store h k v) <-> k' ∈ map fst h \/ k' = k.
Proof.
  induction h as [|[k0 v0] h IH]; cbn [obj_store map fst].
  - rewrite list_elem_of_singleton, elem_of_nil. tauto.
  - destruct (String.eqb_spec k0 k) as [->|Hne]; cbn [map fst].
    + rewrite elem_of_cons. tauto.
    + rewrite !elem_of_cons, IH. tauto.
Qed.

Lemma obj_store_NoDup (h : list (string * yyjson_val)) (k : string) (v : yyjson_val) :
  NoDup (map fst h) -> NoDup (map fst (obj_store h k v)).
Proof.
  induction h as [|[k0 v0] h IH]; cbn [obj_store map fst]; intros Hnd.
  - apply NoDup_singleton.
  - destruct (String.eqb_spec k0 k) as [->|Hne]; cbn [map fst]; [exact Hnd|].
    apply NoDup_cons in Hnd as [Hn Hnd]. apply NoDup_cons. split; [|apply IH, Hnd].
    rewrite obj_store_keys. intros [H|H]; [contradiction|congruence].
Qed.

Lemma obj_store_elem (h : list (string * yyjson_val)) (k : string) (v : yyjson_val)
  (k' : string) (v' : yyjson_val) :
  NoDup (map fst h) ->
  (k', v') ∈ obj_store h k v <-> (k' = k /\ v' = v) \/ (k' <> k /\ (k', v') ∈ h).
Proof.
  induction h as [|[k0 v0] h IH]; cbn [obj_store map fst]; intros Hnd.
  - rewrite list_elem_of_singleton, elem_of_nil. split.
    + intros [= -> ->]. left. auto.
    + intros [[-> ->]|[_ []]]. reflexivity.
  - apply NoDup_cons in Hnd as [Hn Hnd].
    destruct (String.eqb_spec k0 k) as [->|Hne].
    + rewrite !elem_of_cons. split.
      * intros [[= -> ->]|Hin]; [left; auto|]. right. split; [|right; exact Hin].
        intros ->. apply Hn. apply list_elem_of_fmap. exists (k, v'). auto.
      * intros [[-> ->]|[Hne [[= H1 _]|Hin]]]; [left; reflexivity|contradiction|].
        right. exact Hin.
    + rewrite !elem_of_cons, (IH Hnd). split.
      * intros [[= -> ->]|[[-> ->]|[Hk Hin]]].
        -- right. split; [exact Hne|left; reflexivity].
        -- left. auto.
        -- right. split; [exact Hk|right; exact Hin].
      * intros [[-> ->]|[Hk [[= -> ->]|Hin]]].
        -- right. left. auto.
        -- left. reflexivity.
        -- right. right. auto.
Qed.

Lemma last_value_snoc (l : list (string * yyjson_val)) (k0 : string)
  (v0 : yyjson_val) (k : string) :
  last_value (l ++ [(k0, v0)]) k
  = if String.eqb k0 k then Some v0 else last_value l k.
Proof.
  induction l as [|[k1 v1] l IH]; cbn [last_value app].
  - destruct (String.eqb k0 k); reflexivity.
  - rewrite IH. destruct (String.eqb k0 k); reflexivity.
Qed.

Lemma obj_entries_snoc (l : list (string * yyjson_val)) (kv : string * yyjson_val) :
  obj_entries (l ++ [kv]) = obj_store (obj_entries l) kv.1 kv.2.
Proof. unfold obj_entries. rewrite fold_left_app. reflexivity. Qed.

Lemma obj_entries_facts (l : list (string * yyjson_val)) :
  NoDup (map fst (obj_entries l))
  /\ (forall k, k ∈ map fst (obj_entries l) <-> k ∈ map fst l)
  /\ (forall k v, (k, v) ∈ obj_entries l <-> last_value l k = Some v).
Proof.
  induction l as [|[k0 v0] l (Hnd & Hk & Hv)] using rev_ind.
  - split; [apply NoDup_nil_2|]. split; [reflexivity|].
    intros k v. cbn. rewrite elem_of_nil. split; [intros []|discriminate].
  - rewrite obj_entries_snoc. cbn [fst snd].
    split; [apply obj_store_NoDup, Hnd|]. split.
    + intros k. rewrite obj_store_keys, Hk, map_app, elem_of_app.
      cbn [map fst]. rewrite list_elem_of_singleton. reflexivity.
    + intros k v. rewrite (obj_store_elem _ _ _ _ _ Hnd), last_value_snoc.
      destruct (String.eqb_spec k0 k) as [->|Hne].
      * split; [intros [[_ ->]|[Hne _]]; [reflexivity|contradiction]|].
        intros [= ->]. left. auto.
      * rewrite Hv. split; [intros [[-> _]|[_ H]]; [contradiction|exact H]|].
        intros H. right. split; [congruence|exact H].
Qed.

Lemma obj_store_fresh (h : list (string * yyjson_val)) (k : string) (v : yyjson_val) :
  k ∉ map fst h -> obj_store h k v = (h ++ [(k, v)])%list.
Proof.
  induction h as [|[k0 v0] h IH]; cbn [obj_store map fst app]; intros Hn;
    [reflexivity|].
  rewrite not_elem_of_cons in Hn. destruct Hn as [Hne Hn].
  destruct (String.eqb_spec k0 k) as [->|_]; [contradiction|].
  rewrite IH by exact Hn. reflexivity.
Qed.

Lemma obj_entries_distinct (l : list (string * yyjson_val)) :
  NoDup (map fst l) -> obj_entries l = l.
Proof.
  assert (H : forall l h, NoDup (map fst (h ++ l)) ->
                          fold_left (fun h kv => obj_store h kv.1 kv.2) l h
                          = (h ++ l)%list).
  { clear l. induction l as [|[k v] l IH]; intros h Hnd; cbn [fold_left fst snd].
    - rewrite app_nil_r. reflexivity.
    - rewrite obj_store_fresh.
      + rewrite IH; rewrite <- app_assoc; [reflexivity|exact Hnd].
      + rewrite map_app in Hnd. apply NoDup_app in Hnd as (_ & Hd & _).
        intros Hin. apply (Hd k Hin). cbn [map fst]. apply elem_of_cons. auto. }
  intros Hnd. apply (H l []). exact Hnd.
Qed.

Section BuilderSpells.

Variable char_signed : bool.
Variable interned : bool.
Variable opts : yyjson_parse_options.

Lemma reify_build_num v :
  doc_wf v = true ->
  match v with val_uint _ | val_sint _ | val_real _ => True | _ => False end ->
  reify (build_num v) = as_built v.
Proof.
  destruct v; try contradiction; intros Hwf _.
  - cbn [doc_wf] in Hwf. apply andb_true_iff in Hwf as [H0 _].
    apply Z.leb_le in H0. rewrite build_num_uint by exact H0.
    destruct (n <=? FIXNUM_MAX); reflexivity.
  - rewrite build_num_sint. destruct (_ && _); reflexivity.
  - reflexivity.
Qed.

Lemma build_items_spells items :
  Forall (spells char_signed interned opts) items -> forallb doc_wf items = true ->
  forall ctx ks atoms vals ctx',
    trace_inv char_signed (cache_in_use opts ctx) ks atoms ->
    cache_ok opts ctx ->
    build_items (build_val char_signed interned opts) items ctx = (vals, ctx') ->
    map reify vals = map as_built items.
Proof.
  induction 1 as [|v items Hv _ IH]; intros Hwf ctx ks atoms vals ctx' Hinv Hc.
  - intros [= <- <-]. reflexivity.
  - cbn [forallb] in Hwf. apply andb_true_iff in Hwf as [Hw1 Hw2].
    cbn [build_items].
    destruct (build_val char_signed interned opts v ctx) as [x c1] eqn:Hx.
    destruct (build_items _ items c1) as [vs c2] eqn:Hr.
    intros [= <- <-]. cbn [map]. f_equal.
    + exact (Hv Hw1 ctx ks atoms x c1 Hinv Hc Hx).
    + eapply (IH Hw2 c1); [| |exact Hr].
      * exact (build_val_trace char_signed interned opts v ctx ks atoms x c1 Hinv Hx).
      * exact (proj2 (build_val_freezes char_signed interned opts v ctx x c1 Hc Hx)).
Qed.

Lemma build_pairs_spells pairs :
  Forall (fun kv => spells char_signed interned opts kv.2) pairs ->
  forallb (fun kv => doc_wf kv.2) pairs = true ->
  forall ctx ks atoms kvs ctx',
    trace_inv char_signed (cache_in_use opts ctx) ks atoms ->
    cache_ok opts ctx ->
    build_pairs char_signed interned opts (build_val char_signed interned opts)
      pairs ctx = (kvs, ctx') ->
    map (fun kv => (default EmptyString (atom_bytes kv.1), reify kv.2)) kvs
    = map (fun kv => (kv.1, as_built kv.2)) pairs.
Proof.
  induction 1 as [|[k v] pairs Hv _ IH]; intros Hwf ctx ks atoms kvs ctx' Hinv Hc.
  - intros [= <- <-]. reflexivity.
  - cbn [forallb] in Hwf. apply andb_true_iff in Hwf as [Hw1 Hw2].
    simpl in Hv, Hw1. cbn [build_pairs].
    destruct (build_key char_signed interned opts k ctx) as [a c1] eqn:Hk.
    destruct (build_val char_signed interned opts v c1) as [x c2] eqn:Hx.
    destruct (build_pairs _ _ _ _ pairs c2) as [rest c3] eqn:Hr.
    intros [= <- <-]. cbn [map].
    pose proof (build_key_trace char_signed interned opts ks atoms k ctx a c1 Hinv Hk)
      as Hinv1.
    pose proof (build_val_trace char_signed interned opts v c1 _ _ x c2 Hinv1 Hx)
      as Hinv2.
    assert (Ha : atom_bytes a = Some k).
    { apply (ti_bytes _ _ _ _ Hinv1 (length ks) k a).
      - rewrite lookup_app_r, Nat.sub_diag by lia. reflexivity.
      - rewrite lookup_app_r by (rewrite (ti_length _ _ _ _ Hinv); lia).
        rewrite (ti_length _ _ _ _ Hinv), Nat.sub_diag. reflexivity. }
    destruct (build_key_ok char_signed interned opts k ctx a c1 Hc Hk) as [_ Hc1].
    f_equal.
    + simpl. rewrite Ha. simpl. f_equal. exact (Hv Hw1 c1 _ _ x c2 Hinv1 Hc1 Hx).
    + eapply (IH Hw2 c2); [exact Hinv2| |exact Hr].
      exact (proj2 (build_val_freezes char_signed interned opts v c1 x c2 Hc1 Hx)).
Qed.

Lemma build_val_spells v : spells char_signed interned opts v.
Proof.
  induction v as [| | | | | | |items IH|pairs IH] using yyjson_val_ind';
    intros Hwf ctx ks atoms r ctx' Hinv Hc; cbn [build_val].
  - intros [= <- <-]. reflexivity.
  - intros [= <- <-]. reflexivity.
  - intros [= <- <-]. destruct b; reflexivity.
  - intros Hb. apply pair_equal_spec in Hb as [<- <-].
    apply reify_build_num; [exact Hwf|exact I].
  - intros Hb. apply pair_equal_spec in Hb as [<- <-].
    apply reify_build_num; [exact Hwf|exact I].
  - intros Hb. apply pair_equal_spec in Hb as [<- <-]. reflexivity.
  - unfold build_str, make_fstr, make_str.
    destruct (p_freeze opts);
      [destruct interned; [destruct (fstrings _ !! s)|]|];
      intros [= <- <-]; reflexivity.
  - unfold build_arr. destruct items as [|x items].
    + intros [= <- <-]. reflexivity.
    + destruct (build_items _ (x :: items) ctx) as [vals c1] eqn:Hb.
      intros [= <- <-]. cbn [reify as_built]. f_equal.
      eapply build_items_spells; eauto.
  - unfold build_obj. destruct pairs as [|kv pairs].
    + intros [= <- <-]. reflexivity.
    + destruct (build_pairs _ _ _ _ (kv :: pairs) ctx) as [kvs c1] eqn:Hb.
      intros [= <- <-]. cbn [reify as_built]. f_equal.
      assert (Hfr : Forall (fun kv => freezes char_signed interned opts kv.2)
                      (kv :: pairs)).
      { apply Forall_forall. intros p _. apply build_val_freezes. }
      destruct (build_pairs_freezes char_signed interned opts _ Hfr ctx kvs c1 Hc Hb)
        as [Hok _].
      assert (Hsp : map (fun kv => (default EmptyString (atom_bytes kv.1), reify kv.2)) kvs
                    = map (fun kv => (kv.1, as_built kv.2)) (kv :: pairs))
        by (eapply build_pairs_spells; eauto).
      rewrite (hash_bulk_insert_spells (p_symbolize_names opts) kvs []).
      * rewrite Hsp. reflexivity.
      * constructor.
      * apply Forall_forall. intros p Hp. apply list_elem_of_In in Hp.
        pose proof (proj1 (forallb_forall _ _) Hok p Hp) as Hp'.
        apply andb_true_iff in Hp' as [Hp' _]. exact Hp'.
Qed.

End BuilderSpells.

(** X22: the value [yyjson_build_ruby_object] returns spells the
    document: the same nesting, the items of every array in order, keys and
    strings byte for byte, numbers by value (an unsigned integer as an
    integer, a value of an unknown tag as nil), and every object as the
    hash keeps it: one pair a key, for every key of the object, with the
    value that stands last with the key in the object; an object without a
    key twice keeps all its pairs, in order. *)
Theorem import_spells_the_document (char_signed interned : bool)
  (opts : yyjson_parse_options) (root : yyjson_val) (os : object_space) :
  doc_wf root = true ->
  reify (yyjson_build_ruby_object char_signed interned opts root os).1
  = as_built root
  /\ (forall pairs,
        NoDup (map fst (obj_entries pairs))
        /\ (forall k, k ∈ map fst (obj_entries pairs) <-> k ∈ map fst pairs)
        /\ (forall k v, (k, v) ∈ obj_entries pairs <-> last_value pairs k = Some v)
        /\ (NoDup (map fst pairs) -> obj_entries pairs = pairs)).
Proof.
  intros Hwf. split.
  - rewrite build_ruby_object_general.
    destruct (build_val char_signed interned opts root (fresh_ctx os)) as [v ctx] eqn:Hb.
    simpl.
    apply (build_val_spells char_signed interned opts root Hwf (fresh_ctx os) [] [] v ctx);
      [| |exact Hb].
    + unfold cache_in_use, fresh_ctx. simpl.
      destruct (p_symbolize_names opts); apply trace_inv_empty.
    + unfold cache_ok, cache_in_use, fresh_ctx. simpl.
      destruct (p_symbolize_names opts); constructor.
  - intros pairs. destruct (obj_entries_facts pairs) as (H1 & H2 & H3).
    split; [exact H1|]. split; [exact H2|]. split; [exact H3|].
    apply obj_entries_distinct.
Qed.

Lemma import_spells_the_document_witness :
  reify (yyjson_build_ruby_object true false default_parse_opts
           (val_obj [("a", val_uint 1); ("b", val_null);
                     ("a", val_arr [val_str "x"; val_raw])])
           empty_space).1
  = val_obj [("a", val_arr [val_str "x"; val_null]); ("b", val_null)].
Proof.
  apply (proj1 (import_spells_the_document true false default_parse_opts
                  (val_obj [("a", val_uint 1); ("b", val_null);
                            ("a", val_arr [val_str "x"; val_raw])])
                  empty_space eq_refl)).
Defined.

Lemma fresh_between_nil a b : fresh_between a b [].
Proof. split; [constructor|]. intros id H. inversion H. Qed.

Lemma fresh_between_app a b c l1 l2 :
  fresh_between a b l1 -> fresh_between b c l2 ->
  (a <= b)%positive -> (b <= c)%positive ->
  fresh_between a c (l1 ++ l2)%list.
Proof.
  intros [N1 H1] [N2 H2] Hab Hbc. split.
  - apply NoDup_app. split; [exact N1|]. split; [|exact N2].
    intros x Hx1 Hx2. specialize (H1 x Hx1). specialize (H2 x Hx2). lia.
  - intros id Hid. apply elem_of_app in Hid as [Hid|Hid].
    + specialize (H1 id Hid). lia.
    + specialize (H2 id Hid). lia.
Qed.

Lemma fresh_between_submseteq a b l1 l2 :
  l1 ⊆+ l2 -> fresh_between a b l2 -> fresh_between a b l1.
Proof.
  intros Hs [Hnd Hin]. split.
  - destruct (submseteq_Permutation _ _ Hs) as [k Hp]. rewrite Hp in Hnd.
    apply NoDup_app in Hnd as [H _]. exact H.
  - intros id Hid. apply Hin. eapply elem_of_submseteq; eauto.
Qed.

(** The strings of a hash are strings of the hash it was and of the pair
    stored, each one as often at most. *)
Lemma hash_aset_ids (h : list (rvalue * rvalue)) (k v : rvalue) :
  flat_map (fun kv => (mutable_ids kv.1 ++ mutable_ids kv.2)%list) (rb_hash_aset h k v)
  ⊆+ (flat_map (fun kv => (mutable_ids kv.1 ++ mutable_ids kv.2)%list) h
      ++ (mutable_ids k ++ mutable_ids v))%list.
Proof.
  induction h as [|[k' v'] h IH]; cbn [rb_hash_aset flat_map fst snd app].
  - rewrite app_nil_r. reflexivity.
  - destruct (key_eql k' k); cbn [flat_map fst snd].
    + solve_submseteq.
    + rewrite <- !app_assoc. do 2 apply submseteq_skips_l.
      exact IH.
Qed.

Lemma hash_bulk_insert_ids (kvs h : list (rvalue * rvalue)) :
  flat_map (fun kv => (mutable_ids kv.1 ++ mutable_ids kv.2)%list)
    (rb_hash_bulk_insert kvs h)
  ⊆+ (flat_map (fun kv => (mutable_ids kv.1 ++ mutable_ids kv.2)%list) h
      ++ flat_map (fun kv => (mutable_ids kv.1 ++ mutable_ids kv.2)%list) kvs)%list.
Proof.
  revert h. induction kvs as [|[k v] kvs IH]; intros h.
  - cbn. rewrite app_nil_r. reflexivity.
  - unfold rb_hash_bulk_insert in *. cbn [fold_left flat_map fst snd].
    etrans; [apply IH|]. etrans; [apply submseteq_skips_r, hash_aset_ids|].
    rewrite <- !app_assoc. reflexivity.
Qed.

Section BuilderIdentity.

Variable char_signed : bool.
Variable interned : bool.
Variable opts : yyjson_parse_options.

Lemma get_key_with_space mk (c : string_cache_t) s os :
  let r := get_key_with char_signed mk c s os in
  r.2 = os \/ r.2 = (mk s os).2.
Proof.
  unfold get_key_with.
  destruct (uncacheable s); [destruct (mk s os); simpl; auto|].
  destruct (0 <=? _); [simpl; auto|].
  destruct (mk s os); simpl; auto.
Qed.

Lemma make_fstr_space s os :
  (next_id os <= next_id (make_fstr interned s os).2)%positive.
Proof.
  unfold make_fstr. destruct interned; [destruct (fstrings os !! s)|]; simpl; lia.
Qed.

Lemma key_ok_immutable sym k : key_ok sym k = true -> mutable_ids k = [].
Proof.
  destruct k; try discriminate; try reflexivity.
  simpl. destruct frozen; [reflexivity|]. rewrite andb_false_r. discriminate.
Qed.

Lemma build_key_space k ctx a ctx' :
  build_key char_signed interned opts k ctx = (a, ctx') ->
  (next_id (objects ctx) <= next_id (objects ctx'))%positive.
Proof.
  unfold build_key. destruct (p_symbolize_names opts).
  - rewrite get_sym_key_with.
    pose proof (get_key_with_space make_sym (sym_cache ctx) k (objects ctx)) as H.
    destruct (get_key_with char_signed make_sym (sym_cache ctx) k (objects ctx))
      as [[a0 c0] os0].
    intros [= <- <-]. simpl in *. destruct H as [->| ->]; simpl; lia.
  - rewrite get_str_key_with.
    pose proof (get_key_with_space (make_fstr interned) (str_cache ctx) k (objects ctx))
      as H.
    pose proof (make_fstr_space k (objects ctx)).
    destruct (get_key_with char_signed (make_fstr interned) (str_cache ctx) k
                (objects ctx)) as [[a0 c0] os0].
    intros [= <- <-]. simpl in *. destruct H as [->| ->]; lia.
Qed.

Lemma mutable_ids_build_num v : mutable_ids (build_num v) = [].
Proof.
  assert (Hs : forall n, mutable_ids (small_int n) = []).
  { intros n. unfold small_int.
    destruct (small_ints !! Z.to_nat (n - SMALL_INT_MIN)) as [x|] eqn:E; [|reflexivity].
    apply list_elem_of_lookup_2, list_elem_of_In, in_map_iff in E as (i & <- & _).
    reflexivity. }
  destruct v; try reflexivity; unfold build_num;
    repeat match goal with |- context [if ?b then _ else _] => destruct b end;
    try reflexivity; apply Hs.
Qed.

Lemma build_items_allocates items :
  Forall (allocates char_signed interned opts) items ->
  forall ctx vals ctx',
    cache_ok opts ctx ->
    build_items (build_val char_signed interned opts) items ctx = (vals, ctx') ->
    (next_id (objects ctx) <= next_id (objects ctx'))%positive
    /\ fresh_between (next_id (objects ctx)) (next_id (objects ctx'))
         (flat_map mutable_ids vals).
Proof.
  induction 1 as [|v items Hv _ IH]; intros ctx vals ctx' Hc.
  - intros [= <- <-]. split; [lia|apply fresh_between_nil].
  - cbn [build_items].
    destruct (build_val char_signed interned opts v ctx) as [x c1] eqn:Hx.
    destruct (build_items _ items c1) as [vs c2] eqn:Hr.
    intros [= <- <-].
    destruct (Hv ctx x c1 Hc Hx) as [L1 F1].
    destruct (build_val_freezes char_signed interned opts v ctx x c1 Hc Hx) as [_ Hc1].
    destruct (IH c1 vs c2 Hc1 Hr) as [L2 F2].
    split; [lia|]. cbn [flat_map].
    eapply fresh_between_app; eauto.
Qed.

Lemma build_pairs_allocates pairs :
  Forall (fun kv => allocates char_signed interned opts kv.2) pairs ->
  forall ctx kvs ctx',
    cache_ok opts ctx ->
    build_pairs char_signed interned opts (build_val char_signed interned opts)
      pairs ctx = (kvs, ctx') ->
    (next_id (objects ctx) <= next_id (objects ctx'))%positive
    /\ fresh_between (next_id (objects ctx)) (next_id (objects ctx'))
         (flat_map (fun kv => (mutable_ids kv.1 ++ mutable_ids kv.2)%list) kvs).
Proof.
  induction 1 as [|[k v] pairs Hv _ IH]; intros ctx kvs ctx' Hc.
  - intros [= <- <-]. split; [lia|apply fresh_between_nil].
  - cbn [build_pairs].
    destruct (build_key char_signed interned opts k ctx) as [a c1] eqn:Hk.
    destruct (build_val char_signed interned opts v c1) as [x c2] eqn:Hx.
    destruct (build_pairs _ _ _ _ pairs c2) as [rest c3] eqn:Hr.
    intros [= <- <-].
    destruct (build_key_ok char_signed interned opts k ctx a c1 Hc Hk) as [Ha Hc1].
    pose proof (build_key_space k ctx a c1 Hk) as L0.
    destruct (Hv c1 x c2 Hc1 Hx) as [L1 F1].
    destruct (build_val_freezes char_signed interned opts v c1 x c2 Hc1 Hx) as [_ Hc2].
    destruct (IH c2 rest c3 Hc2 Hr) as [L2 F2].
    split; [lia|]. cbn [flat_map]. simpl.
    rewrite (key_ok_immutable _ _ Ha). simpl.
    eapply fresh_between_app; [|exact F2|lia|lia].
    destruct F1 as [N1 H1]. split; [exact N1|].
    intros id Hid. specialize (H1 id Hid). lia.
Qed.

Lemma build_val_allocates v : allocates char_signed interned opts v.
Proof.
  induction v as [| | | | | | |items IH|pairs IH] using yyjson_val_ind';
    intros ctx r ctx' Hc; cbn [build_val].
  - intros [= <- <-]. split; [lia|apply fresh_between_nil].
  - intros [= <- <-]. split; [lia|apply fresh_between_nil].
  - intros [= <- <-]. split; [lia|destruct b; apply fresh_between_nil].
  - intros Hb. apply pair_equal_spec in Hb as [<- <-].
    rewrite mutable_ids_build_num. split; [lia|apply fresh_between_nil].
  - intros Hb. apply pair_equal_spec in Hb as [<- <-].
    rewrite mutable_ids_build_num. split; [lia|apply fresh_between_nil].
  - intros Hb. apply pair_equal_spec in Hb as [<- <-].
    split; [lia|apply fresh_between_nil].
  - unfold build_str, make_fstr, make_str.
    destruct (p_freeze opts);
      [destruct interned; [destruct (fstrings _ !! s)|]|];
      intros [= <- <-]; simpl; (split; [lia|]);
      try apply fresh_between_nil.
    split; [repeat constructor; set_solver|].
    intros id Hid. apply list_elem_of_singleton in Hid as ->. lia.
  - unfold build_arr. destruct items as [|x items].
    + intros [= <- <-]. split; [lia|apply fresh_between_nil].
    + destruct (build_items _ (x :: items) ctx) as [vals c1] eqn:Hb.
      intros [= <- <-]. cbn [mutable_ids].
      eapply build_items_allocates; eauto.
  - unfold build_obj. destruct pairs as [|kv pairs].
    + intros [= <- <-]. split; [lia|apply fresh_between_nil].
    + destruct (build_pairs _ _ _ _ (kv :: pairs) ctx) as [kvs c1] eqn:Hb.
      intros [= <- <-]. cbn [mutable_ids].
      destruct (build_pairs_allocates _ IH ctx kvs c1 Hc Hb) as [Hle Hfr].
      split; [exact Hle|]. eapply fresh_between_submseteq; [|exact Hfr].
      apply (hash_bulk_insert_ids kvs []).
Qed.

End BuilderIdentity.

Lemma frozen_immutable sym :
  forall v, frozen_as sym true v = true -> mutable_ids v = [].
Proof.
  fix IH 1. intros v. destruct v as [| | | | | |id frozen s| |frozen items|frozen pairs];
    cbn [frozen_as mutable_ids]; intros Hv; try reflexivity.
  - destruct frozen; [reflexivity|discriminate].
  - apply andb_true_iff in Hv as [_ Hv].
    induction items as [|x items IHi]; [reflexivity|].
    cbn [forallb] in Hv. apply andb_true_iff in Hv as [H1 H2].
    cbn [flat_map]. rewrite (IH x H1), (IHi H2). reflexivity.
  - apply andb_true_iff in Hv as [_ Hv].
    induction pairs as [|[k x] pairs IHp]; [reflexivity|].
    cbn [forallb] in Hv. apply andb_true_iff in Hv as [H1 H2].
    simpl in H1. apply andb_true_iff in H1 as [Hk Hx].
    cbn [flat_map]. simpl.
    rewrite (key_ok_immutable _ _ Hk), (IH x Hx), (IHp H2). reflexivity.
Qed.

(** X25: the strings of a result that are not frozen are objects made
    during the call, each one met once in the result: no two values share a
    mutable string, and none is an object that existed before; with
    [freeze] set no string of the result is mutable. *)
Theorem unfrozen_strings_are_never_shared (char_signed interned : bool)
  (opts : yyjson_parse_options) (root : yyjson_val) (os : object_space) :
  let r := yyjson_build_ruby_object char_signed interned opts root os in
  NoDup (mutable_ids r.1)
  /\ (forall id, id ∈ mutable_ids r.1 -> (next_id os <= id < next_id r.2)%positive)
  /\ (next_id os <= next_id r.2)%positive
  /\ (p_freeze opts = true -> mutable_ids r.1 = []).
Proof.
  intros r.
  assert (Hc0 : cache_ok opts (fresh_ctx os)).
  { unfold cache_ok, cache_in_use, fresh_ctx. simpl.
    destruct (p_symbolize_names opts); constructor. }
  unfold r. rewrite build_ruby_object_general.
  destruct (build_val char_signed interned opts root (fresh_ctx os)) as [v ctx] eqn:Hb.
  destruct (build_val_allocates char_signed interned opts root (fresh_ctx os) v ctx
              Hc0 Hb) as [Hle [Hnd Hin]].
  destruct (build_val_freezes char_signed interned opts root (fresh_ctx os) v ctx
              Hc0 Hb) as [Hfr _].
  simpl in *. split; [exact Hnd|]. split; [exact Hin|]. split; [exact Hle|].
  intros Hf. rewrite Hf in Hfr. eapply frozen_immutable. exact Hfr.
Qed.

Section BuilderInterned.

Variable char_signed : bool.
Variable opts : yyjson_parse_options.
Hypothesis no_symbols : p_symbolize_names opts = false.

Lemma interned_in_mono os os' a :
  fstrings os ⊆ fstrings os' -> interned_in os a -> interned_in os' a.
Proof.
  intros Hsub (id & s & -> & Hs). exists id, s. split; [reflexivity|].
  eapply lookup_weaken; eassumption.
Qed.

Lemma make_fstr_interned s os :
  let r := make_fstr true s os in
  interned_in r.2 r.1 /\ fstrings os ⊆ fstrings r.2.
Proof.
  unfold make_fstr. destruct (fstrings os !! s) as [id|] eqn:Hs; simpl.
  - split; [exists id, s; auto|reflexivity].
  - split.
    + exists (next_id os), s. split; [reflexivity|]. simpl. apply lookup_insert_eq.
    + apply insert_subseteq. exact Hs.
Qed.

(** A lookup returns the value of an entry and changes nothing, or it
    makes a value and leaves the cache with or without an entry for it. *)
Lemma get_key_with_either mk (c : string_cache_t) s os :
  let r := get_key_with char_signed mk c s os in
  (exists e, e ∈ c /\ r = (val e, c, os))
  \/ (r.1.1 = (mk s os).1 /\ r.2 = (mk s os).2
      /\ (r.1.2 = c
          \/ exists p e, r.1.2 = (take p c ++ e :: drop p c)%list
                         /\ val e = (mk s os).1)).
Proof.
  unfold get_key_with.
  destruct (uncacheable s).
  { right. destruct (mk s os) as [v os1]. simpl. auto. }
  pose proof (cache_search_bounds char_signed c s (strlen s) (fnv1a s)) as [Hhit _].
  cbn zeta in Hhit.
  destruct (Z.leb_spec 0 (cache_search char_signed c s (strlen s) (fnv1a s))) as [H0|H0].
  - left. destruct (Hhit H0) as (_ & e & He & _). unfold string_cache_t in *.
    rewrite He. simpl. exists e. split; [|reflexivity].
    apply list_elem_of_lookup. eauto.
  - right. destruct (mk s os) as [v os1]. simpl. split; [reflexivity|].
    split; [reflexivity|].
    unfold cache_insert. destruct (CACHE_SIZE <=? cache_len c); [left; reflexivity|].
    right. eexists _, _. split; reflexivity.
Qed.

Lemma build_key_interned k ctx a ctx' :
  cache_interned ctx ->
  build_key char_signed true opts k ctx = (a, ctx') ->
  interned_in (objects ctx') a /\ cache_interned ctx'
  /\ fstrings (objects ctx) ⊆ fstrings (objects ctx').
Proof.
  unfold build_key, cache_interned. rewrite no_symbols. intros Hc.
  rewrite get_str_key_with.
  pose proof (get_key_with_either (make_fstr true) (str_cache ctx) k (objects ctx))
    as Hcases.
  pose proof (make_fstr_interned k (objects ctx)) as [Hmk Hsub].
  destruct (get_key_with char_signed (make_fstr true) (str_cache ctx) k (objects ctx))
    as [[a0 c0] os0].
  cbn zeta in *. intros [= <- <-]. simpl.
  destruct Hcases as [(e & He & [= -> -> ->])|(Hv & Hos & Hc')]; simpl in *.
  - split; [|split; [exact Hc|reflexivity]].
    eapply Forall_forall in Hc; eauto.
  - subst a0 os0. split; [exact Hmk|]. split; [|exact Hsub].
    assert (Hc0 : Forall (fun e => interned_in (make_fstr true k (objects ctx)).2 (val e))
                    (str_cache ctx)).
    { eapply Forall_impl; [exact Hc|]. intros e. apply interned_in_mono, Hsub. }
    destruct Hc' as [->|(p & e & -> & He)]; [exact Hc0|].
    rewrite <- (take_drop p (str_cache ctx)) in Hc0.
    apply Forall_app in Hc0 as [H1 H2].
    apply Forall_app. split; [exact H1|]. constructor; [|exact H2].
    rewrite He. exact Hmk.
Qed.

Lemma cache_interned_mono ctx os :
  fstrings (objects ctx) ⊆ fstrings os ->
  cache_interned ctx ->
  cache_interned {| str_cache := str_cache ctx; sym_cache := sym_cache ctx;
                    objects := os |}.
Proof.
  intros Hsub Hc. unfold cache_interned in *. simpl.
  eapply Forall_impl; [exact Hc|]. intros e. apply interned_in_mono, Hsub.
Qed.

Lemma build_items_interns items :
  Forall (interns char_signed opts) items ->
  forall ctx vals ctx',
    cache_interned ctx ->
    build_items (build_val char_signed true opts) items ctx = (vals, ctx') ->
    cache_interned ctx'
    /\ fstrings (objects ctx) ⊆ fstrings (objects ctx')
    /\ Forall (interned_in (objects ctx')) (flat_map value_keys vals).
Proof.
  induction 1 as [|v items Hv _ IH]; intros ctx vals ctx' Hc.
  - intros [= <- <-]. split; [exact Hc|]. split; [reflexivity|constructor].
  - cbn [build_items].
    destruct (build_val char_signed true opts v ctx) as [x c1] eqn:Hx.
    destruct (build_items _ items c1) as [vs c2] eqn:Hr.
    intros [= <- <-].
    destruct (Hv ctx x c1 Hc Hx) as (Hc1 & S1 & F1).
    destruct (IH c1 vs c2 Hc1 Hr) as (Hc2 & S2 & F2).
    split; [exact Hc2|]. split; [etrans; eassumption|].
    cbn [flat_map]. apply Forall_app. split; [|exact F2].
    eapply Forall_impl; [exact F1|]. intros a. apply interned_in_mono, S2.
Qed.

Lemma build_pairs_interns pairs :
  Forall (fun kv => interns char_signed opts kv.2) pairs ->
  forall ctx kvs ctx',
    cache_interned ctx ->
    build_pairs char_signed true opts (build_val char_signed true opts)
      pairs ctx = (kvs, ctx') ->
    cache_interned ctx'
    /\ fstrings (objects ctx) ⊆ fstrings (objects ctx')
    /\ Forall (interned_in (objects ctx'))
         (flat_map (fun kv => kv.1 :: value_keys kv.2) kvs).
Proof.
  induction 1 as [|[k v] pairs Hv _ IH]; intros ctx kvs ctx' Hc.
  - intros [= <- <-]. split; [exact Hc|]. split; [reflexivity|constructor].
  - cbn [build_pairs].
    destruct (build_key char_signed true opts k ctx) as [a c1] eqn:Hk.
    destruct (build_val char_signed true opts v c1) as [x c2] eqn:Hx.
    destruct (build_pairs _ _ _ _ pairs c2) as [rest c3] eqn:Hr.
    intros [= <- <-].
    destruct (build_key_interned k ctx a c1 Hc Hk) as (Ha & Hc1 & S0).
    destruct (Hv c1 x c2 Hc1 Hx) as (Hc2 & S1 & F1).
    destruct (IH c2 rest c3 Hc2 Hr) as (Hc3 & S2 & F2).
    split; [exact Hc3|]. split; [etrans; [exact S0|]; etrans; eassumption|].
    cbn [flat_map]. simpl. constructor.
    + eapply interned_in_mono; [|exact Ha]. etrans; eassumption.
    + apply Forall_app. split; [|exact F2].
      eapply Forall_impl; [exact F1|]. intros b. apply interned_in_mono, S2.
Qed.

Lemma build_val_interns v : interns char_signed opts v.
Proof.
  induction v as [| | | | | | |items IH|pairs IH] using yyjson_val_ind';
    intros ctx r ctx' Hc; cbn [build_val].
  - intros [= <- <-]. split; [exact Hc|]. split; [reflexivity|constructor].
  - intros [= <- <-]. split; [exact Hc|]. split; [reflexivity|constructor].
  - intros [= <- <-]. split; [exact Hc|]. split; [reflexivity|].
    destruct b; constructor.
  - intros Hb. apply pair_equal_spec in Hb as [<- <-].
    rewrite value_keys_build_num. split; [exact Hc|]. split; [reflexivity|constructor].
  - intros Hb. apply pair_equal_spec in Hb as [<- <-].
    rewrite value_keys_build_num. split; [exact Hc|]. split; [reflexivity|constructor].
  - intros Hb. apply pair_equal_spec in Hb as [<- <-].
    split; [exact Hc|]. split; [reflexivity|constructor].
  - unfold build_str.
    destruct (p_freeze opts).
    + pose proof (make_fstr_interned s (objects ctx)) as [_ Hsub].
      destruct (make_fstr true s (objects ctx)) as [v os1] eqn:Hm.
      intros [= <- <-]. simpl in Hsub. split; [|split; [exact Hsub|]].
      * apply cache_interned_mono; assumption.
      * unfold make_fstr in Hm. destruct (fstrings _ !! s); injection Hm as <- _;
          constructor.
    + intros [= <- <-]. split; [|split; [reflexivity|constructor]].
      apply cache_interned_mono; [reflexivity|exact Hc].
  - unfold build_arr. destruct items as [|x items].
    + intros [= <- <-]. split; [exact Hc|]. split; [reflexivity|constructor].
    + destruct (build_items _ (x :: items) ctx) as [vals c1] eqn:Hb.
      intros [= <- <-]. cbn [value_keys].
      eapply build_items_interns; eauto.
  - unfold build_obj. destruct pairs as [|kv pairs].
    + intros [= <- <-]. split; [exact Hc|]. split; [reflexivity|constructor].
    + destruct (build_pairs _ _ _ _ (kv :: pairs) ctx) as [kvs c1] eqn:Hb.
      intros [= <- <-]. cbn [value_keys].
      destruct (build_pairs_interns _ IH ctx kvs c1 Hc Hb) as (H1 & H2 & H3).
      split; [exact H1|]. split; [exact H2|].
      apply hash_bulk_insert_keys, H3.
Qed.

Lemma build_items_atoms_interned items :
  Forall (atoms_interned char_signed opts) items ->
  forall ctx vals ctx',
    cache_interned ctx ->
    build_items (build_val char_signed true opts) items ctx = (vals, ctx') ->
    Forall (interned_in (objects ctx'))
      (atoms_items char_signed true opts (key_atoms char_signed true opts) items ctx).
Proof.
  induction 1 as [|x items Hx _ IH]; intros ctx vals ctx' Hc;
    cbn [build_items atoms_items].
  - intros _. constructor.
  - destruct (build_val char_signed true opts x ctx) as [r c1] eqn:Hr.
    destruct (build_items _ items c1) as [rs c2] eqn:Hrs.
    intros [= <- <-]. cbn [snd].
    destruct (build_val_interns x ctx r c1 Hc Hr) as (Hc1 & _ & _).
    assert (Hall : Forall (interns char_signed opts) items).
    { apply Forall_forall. intros y _. apply build_val_interns. }
    destruct (build_items_interns items Hall c1 rs c2 Hc1 Hrs) as (_ & S2 & _).
    apply Forall_app. split; [|exact (IH c1 rs c2 Hc1 Hrs)].
    eapply Forall_impl; [exact (Hx ctx r c1 Hc Hr)|].
    intros a. apply interned_in_mono, S2.
Qed.

Lemma build_pairs_atoms_interned pairs :
  Forall (fun kv => atoms_interned char_signed opts kv.2) pairs ->
  forall ctx kvs ctx',
    cache_interned ctx ->
    build_pairs char_signed true opts (build_val char_signed true opts)
      pairs ctx = (kvs, ctx') ->
    Forall (interned_in (objects ctx'))
      (atoms_pairs char_signed true opts (key_atoms char_signed true opts) pairs ctx).
Proof.
  induction 1 as [|[k x] pairs Hx _ IH]; intros ctx kvs ctx' Hc;
    cbn [build_pairs atoms_pairs].
  - intros _. constructor.
  - destruct (build_key char_signed true opts k ctx) as [a c0] eqn:Hk.
    destruct (build_val char_signed true opts x c0) as [r c1] eqn:Hr.
    destruct (build_pairs _ _ _ _ pairs c1) as [rs c2] eqn:Hrs.
    intros [= <- <-]. cbn [snd].
    destruct (build_key_interned k ctx a c0 Hc Hk) as (Ha & Hc0 & _).
    destruct (build_val_interns x c0 r c1 Hc0 Hr) as (Hc1 & S1 & _).
    assert (Hall : Forall (fun kv => interns char_signed opts kv.2) pairs).
    { apply Forall_forall. intros y _. apply build_val_interns. }
    destruct (build_pairs_interns pairs Hall c1 rs c2 Hc1 Hrs) as (_ & S2 & _).
    constructor.
    + eapply interned_in_mono; [|exact Ha]. etrans; eassumption.
    + apply Forall_app. split; [|exact (IH c1 rs c2 Hc1 Hrs)].
      eapply Forall_impl; [exact (Hx c0 r c1 Hc0 Hr)|].
      intros b. apply interned_in_mono, S2.
Qed.

Lemma build_val_atoms_interned v : atoms_interned char_signed opts v.
Proof.
  induction v as [| | | | | | |items IH|pairs IH] using yyjson_val_ind';
    intros ctx r ctx' Hc; cbn [build_val key_atoms]; try (intros _; constructor).
  - unfold build_arr. destruct items as [|x items].
    + intros _. constructor.
    + destruct (build_items _ (x :: items) ctx) as [vals c1] eqn:Hb.
      intros [= <- <-]. eapply build_items_atoms_interned; eauto.
  - unfold build_obj. destruct pairs as [|kv pairs].
    + intros _. constructor.
    + destruct (build_pairs _ _ _ _ (kv :: pairs) ctx) as [kvs c1] eqn:Hb.
      intros [= <- <-]. eapply build_pairs_atoms_interned; eauto.
Qed.

End BuilderInterned.

(** X26: with symbolized names, and with interned strings
    ([rb_enc_interned_str]), all the lookups of a key in a document return
    one and the same value, whether the key is cacheable or not and whether
    the cache is full or not; two keys of the hashes of the result that
    have the same bytes are one object; and the keys of the hashes are the
    values of the lookups when no object of the document has a key
    twice. *)
Theorem interned_and_symbol_keys_are_shared (char_signed interned : bool)
  (opts : yyjson_parse_options) (root : yyjson_val) (os : object_space) :
  p_symbolize_names opts = true \/ interned = true ->
  let v := (yyjson_build_ruby_object char_signed interned opts root os).1 in
  let atoms := key_atoms char_signed interned opts root (fresh_ctx os) in
  (forall i j k,
      doc_keys root !! i = Some k -> doc_keys root !! j = Some k ->
      exists a, atoms !! i = Some a /\ atoms !! j = Some a)
  /\ (forall a b,
        a ∈ value_keys v -> b ∈ value_keys v -> atom_bytes a = atom_bytes b ->
        a = b)
  /\ (keys_distinct root = true -> value_keys v = atoms).
Proof.
  intros Hcfg v atoms.
  assert (Hc0 : cache_ok opts (fresh_ctx os)).
  { unfold cache_ok, cache_in_use, fresh_ctx. simpl.
    destruct (p_symbolize_names opts); constructor. }
  assert (Hsame : forall l : list rvalue,
             Forall (fun k => key_ok (p_symbolize_names opts) k = true) l ->
             (p_symbolize_names opts = false ->
              exists os', Forall (interned_in os') l) ->
             forall a b, a ∈ l -> b ∈ l -> atom_bytes a = atom_bytes b -> a = b).
  { intros l Hok Hint a b Ha Hb Hab.
    pose proof (proj1 (Forall_forall _ _) Hok a Ha) as Hoka.
    pose proof (proj1 (Forall_forall _ _) Hok b Hb) as Hokb.
    destruct (p_symbolize_names opts) eqn:Hsym.
    - destruct a; try discriminate. destruct b; try discriminate.
      simpl in Hab. congruence.
    - destruct (Hint eq_refl) as [os' Hos].
      destruct (proj1 (Forall_forall _ _) Hos a Ha) as (id1 & s1 & -> & H1).
      destruct (proj1 (Forall_forall _ _) Hos b Hb) as (id2 & s2 & -> & H2).
      simpl in Hab. injection Hab as ->. congruence. }
  split; [|split].
  - intros i j k Hi Hj.
    destruct (build_ruby_object_trace char_signed interned opts root os) as [c Hinv].
    fold atoms in Hinv.
    assert (Hat : forall n, doc_keys root !! n = Some k ->
                            exists a, atoms !! n = Some a /\ atom_bytes a = Some k).
    { intros n Hn.
      destruct (atoms !! n) as [a|] eqn:Ha.
      - exists a. split; [reflexivity|]. eapply (ti_bytes _ _ _ _ Hinv); eassumption.
      - exfalso. apply lookup_ge_None in Ha. apply lookup_lt_Some in Hn.
        rewrite (ti_length _ _ _ _ Hinv) in Ha. lia. }
    destruct (Hat i Hi) as (ai & Hai & Hbi). destruct (Hat j Hj) as (aj & Haj & Hbj).
    exists ai. split; [exact Hai|]. rewrite Haj. f_equal.
    apply (Hsame atoms).
    + apply build_val_atoms_ok, Hc0.
    + intros Hsym. destruct Hcfg as [Hcfg | ->]; [congruence|].
      destruct (build_val char_signed true opts root (fresh_ctx os)) as [r ctx] eqn:Hb.
      exists (objects ctx).
      apply (build_val_atoms_interned char_signed opts Hsym root (fresh_ctx os) r ctx);
        [constructor|exact Hb].
    + apply list_elem_of_lookup. eauto.
    + apply list_elem_of_lookup. eauto.
    + congruence.
  - apply Hsame.
    + pose proof (build_ruby_object_frozen char_signed interned opts root os) as Hfr.
      eapply value_keys_ok. exact Hfr.
    + intros Hsym. destruct Hcfg as [Hcfg | ->]; [congruence|].
      unfold v. rewrite build_ruby_object_general.
      destruct (build_val char_signed true opts root (fresh_ctx os)) as [r ctx] eqn:Hb.
      destruct (build_val_interns char_signed opts Hsym root (fresh_ctx os) r ctx)
        as (_ & _ & HF); [constructor|exact Hb|].
      exists (objects ctx). exact HF.
  - apply build_ruby_object_keys.
Qed.

Lemma interned_and_symbol_keys_are_shared_witness :
  let v := (yyjson_build_ruby_object true true default_parse_opts crowded_doc
              empty_space).1 in
  exists a, value_keys v !! 63%nat = Some a /\ value_keys v !! 64%nat = Some a.
Proof.
  intros v.
  destruct (interned_and_symbol_keys_are_shared true true default_parse_opts
              crowded_doc empty_space (or_intror eq_refl)) as (Hshare & _ & Hkeys).
  fold v in Hkeys. rewrite Hkeys by reflexivity.
  apply (Hshare 63%nat 64%nat "zz"); vm_compute; reflexivity.
Defined.
